(** * PriorityQueue<K, V>: a shallow embedding of priorityqueue.hh

    The queue keeps every (key, value) pair in two std::multiset objects,
    one ordered by key then value, one by value then key.  A multiset is
    modelled by the sequence its iterators traverse, an iterator by a
    position in that sequence.  Queue objects live in a store indexed by
    address, so that [this == &queue] is a comparison of addresses.

    Every operation of K, V or the allocator that may throw consults a
    fault schedule carried by the world; exceptions leave the store as it
    is at the throw, as in C++. *)

From Stdlib Require Import List Bool Arith ZArith Lia Permutation Sorted.
Import ListNotations.

(** ** What the template asks of K and V *)

(** [operator==] and [operator<] of an element type. *)
Class Elem (T : Type) : Type := {
  op_eq : T -> T -> bool;
  op_lt : T -> T -> bool
}.

(** The usual contract: [==] is equality and [<] a strict total order. *)
Class ElemLaws (T : Type) {E : Elem T} : Prop := {
  op_eq_spec : forall a b : T, op_eq a b = true <-> a = b;
  op_lt_irrefl : forall a : T, op_lt a a = false;
  op_lt_trans : forall a b c : T,
      op_lt a b = true -> op_lt b c = true -> op_lt a c = true;
  op_lt_connex : forall a b : T,
      op_lt a b = false -> op_lt b a = false -> a = b
}.

#[export] Instance Elem_Z : Elem Z := {| op_eq := Z.eqb; op_lt := Z.ltb |}.

(** ** Exceptions, faults and outcomes *)

(** Where an exception of the environment comes from: an operation of K
    or V (copy construction, [==], [<]) or the allocator. *)
Inductive kind : Type := KV | Alloc.

Inductive exn : Type :=
| PQNotFoundEx
| PQEmptyEx
| Fault (kd : kind) (tag : nat).

(** Ways a call ends without returning or throwing: undefined behaviour
    (a null [unique_ptr] dereferenced, an iterator that designates no
    element), a failed [assert], or [std::terminate] after an exception
    reached a [noexcept] boundary. *)
Inductive abort : Type :=
| NullDeref
| BadIterator
| AssertionFailed
| Terminated.

Inductive outcome (A : Type) : Type :=
| Ret (a : A)
| Throw (e : exn)
| Abort (x : abort).
Arguments Ret {A} a.
Arguments Throw {A} e.
Arguments Abort {A} x.

Definition addr : Type := nat.

(** Position of an element in a multiset's sequence; [end()] is the
    length of the sequence. *)
Definition iterator : Type := nat.

(** First fault of a schedule, if any. *)
Fixpoint first_fault (fs : list (option nat)) : option nat :=
  match fs with
  | [] => None
  | Some n :: _ => Some n
  | None :: fs' => first_fault fs'
  end.

Section Queue.

Context {K V : Type} {EK : Elem K} {EV : Elem V}.

(** [key_value_pair]: the pair of shared pointers is modelled by the pair
    of values they point to, which no operation ever mutates. *)
Definition key_value_pair : Type := (K * V)%type.

Record PriorityQueue : Type := mkPQ {
  pairs_by_K : option (list key_value_pair);
  pairs_by_V : option (list key_value_pair);
  inserted_K : option iterator;
  inserted_V : option iterator
}.

(** The exceptions the environment is going to raise: one entry for each
    operation of K or V that may throw, and one for each allocation;
    [Some tag] makes that operation throw [Fault _ tag].  A schedule that
    runs out raises nothing more. *)
Record schedule : Type := mkSched {
  kv_faults : list (option nat);
  alloc_faults : list (option nat)
}.

Record World : Type := mkWorld {
  heap : addr -> PriorityQueue;
  faults : schedule
}.

Definition M (A : Type) : Type := World -> outcome A * World.

Definition ret {A} (a : A) : M A := fun w => (Ret a, w).

Definition bind {A B} (m : M A) (k : A -> M B) : M B :=
  fun w =>
    match m w with
    | (Ret a, w') => k a w'
    | (Throw e, w') => (Throw e, w')
    | (Abort x, w') => (Abort x, w')
    end.

Definition throw {A} (e : exn) : M A := fun w => (Throw e, w).

Definition abort_with {A} (x : abort) : M A := fun w => (Abort x, w).

(** [try { m } catch (...) { h }] *)
Definition try_catch {A} (m : M A) (h : exn -> M A) : M A :=
  fun w =>
    match m w with
    | (Throw e, w') => h e w'
    | r => r
    end.

(** A [noexcept] function: an escaping exception calls [std::terminate]. *)
Definition noexcept {A} (m : M A) : M A :=
  fun w =>
    match m w with
    | (Throw _, w') => (Abort Terminated, w')
    | r => r
    end.

Definition upd {A} (h : addr -> A) (a : addr) (x : A) : addr -> A :=
  fun b => if Nat.eqb b a then x else h b.

Definition get (a : addr) : M PriorityQueue := fun w => (Ret (heap w a), w).

Definition put (a : addr) (q : PriorityQueue) : M unit :=
  fun w => (Ret tt, mkWorld (upd (heap w) a q) (faults w)).

Definition entries (kd : kind) (s : schedule) : list (option nat) :=
  match kd with KV => kv_faults s | Alloc => alloc_faults s end.

Definition set_entries (kd : kind) (fs : list (option nat)) (s : schedule)
    : schedule :=
  match kd with
  | KV => mkSched fs (alloc_faults s)
  | Alloc => mkSched (kv_faults s) fs
  end.

(** One operation that may throw: it takes the next entry of its kind's
    schedule, and throws when that entry is a fault. *)
Definition tick (kd : kind) : M unit :=
  fun w =>
    match entries kd (faults w) with
    | [] => (Ret tt, w)
    | None :: fs => (Ret tt, mkWorld (heap w) (set_entries kd fs (faults w)))
    | Some n :: fs =>
        (Throw (Fault kd n), mkWorld (heap w) (set_entries kd fs (faults w)))
    end.

Notation "x <- m ;; k" := (bind m (fun x => k))
  (at level 61, m at next level, right associativity).
Notation "m ;; k" := (bind m (fun _ => k))
  (at level 61, right associativity).

(** ** Operations of the element types and of std::multiset *)

(** [a == b] and [a < b] on K or V: the call may throw. *)
Definition eq_op {T} {E : Elem T} (a b : T) : M bool :=
  tick KV ;; ret (op_eq a b).

Definition lt_op {T} {E : Elem T} (a b : T) : M bool :=
  tick KV ;; ret (op_lt a b).

(** [std::make_shared<T>(x)]: allocates, then copy-constructs a T. *)
Definition make_shared {T} (x : T) : M T :=
  tick Alloc ;; tick KV ;; ret x.

Definition CompByFst (a b : key_value_pair) : M bool :=
  e <- eq_op (fst a) (fst b) ;;
  if negb e then lt_op (fst a) (fst b) else lt_op (snd a) (snd b).

Definition CompBySnd (a b : key_value_pair) : M bool :=
  e <- eq_op (snd a) (snd b) ;;
  if negb e then lt_op (snd a) (snd b) else lt_op (fst a) (fst b).

(** The two index members of a queue. *)
Inductive index : Type := ByK | ByV.

Definition comp_of (ix : index) : key_value_pair -> key_value_pair -> M bool :=
  match ix with ByK => CompByFst | ByV => CompBySnd end.

Definition member (ix : index) (q : PriorityQueue) : option (list key_value_pair) :=
  match ix with ByK => pairs_by_K q | ByV => pairs_by_V q end.

Definition set_member (ix : index) (p : option (list key_value_pair))
    (q : PriorityQueue) : PriorityQueue :=
  match ix with
  | ByK => mkPQ p (pairs_by_V q) (inserted_K q) (inserted_V q)
  | ByV => mkPQ (pairs_by_K q) p (inserted_K q) (inserted_V q)
  end.

Definition set_inserted (ix : index) (it : iterator)
    (q : PriorityQueue) : PriorityQueue :=
  match ix with
  | ByK => mkPQ (pairs_by_K q) (pairs_by_V q) (Some it) (inserted_V q)
  | ByV => mkPQ (pairs_by_K q) (pairs_by_V q) (inserted_K q) (Some it)
  end.

(** Sequence algorithms, with the comparator as std::multiset calls it:
    [comp y x] reads "y goes before x". *)
Fixpoint lower_bound (comp : key_value_pair -> key_value_pair -> M bool) (x : key_value_pair)
    (l : list key_value_pair) : M iterator :=
  match l with
  | [] => ret 0
  | y :: l' =>
      b <- comp y x ;;
      if b then (i <- lower_bound comp x l' ;; ret (S i)) else ret 0
  end.

Fixpoint upper_bound (comp : key_value_pair -> key_value_pair -> M bool) (x : key_value_pair)
    (l : list key_value_pair) : M iterator :=
  match l with
  | [] => ret 0
  | y :: l' =>
      b <- comp x y ;;
      if b then ret 0 else (i <- upper_bound comp x l' ;; ret (S i))
  end.

(** [find]: the lower bound, unless it is [end()] or lies after [x].
    The standard lets [find] return any element equivalent to [x]; the
    first one is what the library returns. *)
Definition find (comp : key_value_pair -> key_value_pair -> M bool) (x : key_value_pair)
    (l : list key_value_pair) : M iterator :=
  i <- lower_bound comp x l ;;
  match nth_error l i with
  | None => ret (length l)
  | Some y => b <- comp x y ;; ret (if b then length l else i)
  end.

Definition insert_at (i : nat) (x : key_value_pair) (l : list key_value_pair) : list key_value_pair :=
  firstn i l ++ x :: skipn i l.

Definition erase_at (i : nat) (l : list key_value_pair) : list key_value_pair :=
  firstn i l ++ skipn (S i) l.

(** [*p] for a [unique_ptr] member: a null pointer has no pointee. *)
Definition load (this : addr) (ix : index) : M (list key_value_pair) :=
  q <- get this ;;
  match member ix q with
  | Some l => ret l
  | None => abort_with NullDeref
  end.

Definition store (this : addr) (ix : index) (l : list key_value_pair) : M unit :=
  q <- get this ;; put this (set_member ix (Some l) q).

Definition ms_size (this : addr) (ix : index) : M nat :=
  l <- load this ix ;; ret (length l).

Definition ms_end (this : addr) (ix : index) : M iterator :=
  l <- load this ix ;; ret (length l).

Definition ms_deref (this : addr) (ix : index) (it : iterator) : M key_value_pair :=
  l <- load this ix ;;
  match nth_error l it with
  | Some x => ret x
  | None => abort_with BadIterator
  end.

Definition ms_find (this : addr) (ix : index) (x : key_value_pair) : M iterator :=
  l <- load this ix ;; find (comp_of ix) x l.

Definition ms_lower_bound (this : addr) (ix : index) (x : key_value_pair) : M iterator :=
  l <- load this ix ;; lower_bound (comp_of ix) x l.

(** [insert(x)]: the place is found, a node is allocated, and only then
    is the container changed; the new element goes after its equivalents. *)
Definition ms_insert (this : addr) (ix : index) (x : key_value_pair) : M iterator :=
  l <- load this ix ;;
  pos <- upper_bound (comp_of ix) x l ;;
  tick Alloc ;;
  store this ix (insert_at pos x l) ;;
  ret pos.

(** [insert(first, last)]: one insertion after the other. *)
Fixpoint ms_insert_range (this : addr) (ix : index) (xs : list key_value_pair) : M unit :=
  match xs with
  | [] => ret tt
  | x :: xs' => ms_insert this ix x ;; ms_insert_range this ix xs'
  end.

(** [erase(it)] does not throw; [it] must designate an element. *)
Definition ms_erase (this : addr) (ix : index) (it : iterator) : M unit :=
  l <- load this ix ;;
  if it <? length l then store this ix (erase_at it l)
  else abort_with BadIterator.

(** [new std::multiset<...>()] *)
Definition ms_new : M (list key_value_pair) := tick Alloc ;; ret [].

(** [new std::multiset<...>(other)]: the container, then a node for each
    element; the pairs of shared pointers are copied without throwing. *)
Fixpoint ms_copy_nodes (l : list key_value_pair) : M (list key_value_pair) :=
  match l with
  | [] => ret []
  | x :: l' => tick Alloc ;; r <- ms_copy_nodes l' ;; ret (x :: r)
  end.

Definition ms_copy (l : list key_value_pair) : M (list key_value_pair) :=
  tick Alloc ;; ms_copy_nodes l.

(** ** Member functions of PriorityQueue *)

(** [PriorityQueue()] *)
Definition default_ctor : M PriorityQueue :=
  k <- ms_new ;;
  v <- ms_new ;;
  ret (mkPQ (Some k) (Some v) None None).

(** [PriorityQueue(const PriorityQueue& queue)]: the iterators
    [inserted_K], [inserted_V] are not copied. *)
Definition copy_ctor (queue : addr) : M PriorityQueue :=
  lk <- load queue ByK ;;
  k <- ms_copy lk ;;
  lv <- load queue ByV ;;
  v <- ms_copy lv ;;
  ret (mkPQ (Some k) (Some v) None None).

(** The two [std::swap] calls of [swap], on the objects themselves. *)
Definition swap_members (a b : PriorityQueue) : PriorityQueue * PriorityQueue :=
  (mkPQ (pairs_by_K b) (pairs_by_V b) (inserted_K a) (inserted_V a),
   mkPQ (pairs_by_K a) (pairs_by_V a) (inserted_K b) (inserted_V b)).

(** [swap(queue)] for a queue in the store. *)
Definition swap (this queue : addr) : M unit :=
  noexcept
    (if negb (this =? queue) then
       a <- get this ;;
       b <- get queue ;;
       put this (fst (swap_members a b)) ;;
       put queue (snd (swap_members a b))
     else ret tt).

(** [swap(tmp)] for a local object [tmp], whose address is never [this];
    the result is the local after the call. *)
Definition swap_local (this : addr) (tmp : PriorityQueue) : M PriorityQueue :=
  noexcept
    (a <- get this ;;
     put this (fst (swap_members a tmp)) ;;
     ret (snd (swap_members a tmp))).

Definition clear (this : addr) : M unit :=
  noexcept
    (tmp <- default_ctor ;;
     swap_local this tmp ;;
     ret tt).

Definition isValid (this : addr) : M bool :=
  q <- get this ;;
  ret (match pairs_by_K q, pairs_by_V q with
       | Some _, Some _ => true
       | _, _ => false
       end).

Definition size (this : addr) : M nat :=
  noexcept
    (v <- isValid this ;;
     if negb v then ret 0
     else
       nk <- ms_size this ByK ;;
       nv <- ms_size this ByV ;;
       if nk =? nv then ret nk else abort_with AssertionFailed).

Definition empty (this : addr) : M bool :=
  noexcept (n <- size this ;; ret (n =? 0)).

(** [operator=(const PriorityQueue&)] *)
Definition copy_assign (this queue : addr) : M unit :=
  if negb (this =? queue) then
    temp <- copy_ctor queue ;;
    swap_local this temp ;;
    ret tt
  else ret tt.

(** [operator=(PriorityQueue&&)]: each [unique_ptr] is released from
    [queue] and then adopted by [this]. *)
Definition move_assign (this queue : addr) : M unit :=
  noexcept
    (q <- get queue ;;
     put queue (set_member ByK None q) ;;
     t <- get this ;;
     put this (set_member ByK (pairs_by_K q) t) ;;
     q <- get queue ;;
     put queue (set_member ByV None q) ;;
     t <- get this ;;
     put this (set_member ByV (pairs_by_V q) t)).

(** [PriorityQueue(PriorityQueue&& queue)], constructing at [this]. *)
Definition move_ctor (this queue : addr) : M unit :=
  noexcept
    (put this (mkPQ None None None None) ;;
     move_assign this queue).

Definition set_it (this : addr) (ix : index) (it : iterator) : M unit :=
  q <- get this ;; put this (set_inserted ix it q).

(** Reading [inserted_K] or [inserted_V] to erase through it. *)
Definition get_it (this : addr) (ix : index) : M iterator :=
  q <- get this ;;
  match (match ix with ByK => inserted_K q | ByV => inserted_V q end) with
  | Some it => ret it
  | None => abort_with BadIterator
  end.

(** The two branches of [insert] differ only in the pair they store. *)
Definition insert_both (this : addr) (x : key_value_pair) : M unit :=
  it <- ms_insert this ByK x ;;
  set_it this ByK it ;;
  try_catch
    (it' <- ms_insert this ByV x ;; set_it this ByV it')
    (fun e =>
       iK <- get_it this ByK ;;
       ms_erase this ByK iK ;;
       throw e).

(** [insert(key, value)].  The arguments of [std::make_pair] are
    evaluated left to right.  [*pair_iterator] is read once: a
    multiset's iterators stay valid across [insert], so the two reads of
    the source yield the same pair. *)
Definition insert (this : addr) (key : K) (value : V) : M unit :=
  k <- make_shared key ;;
  v <- make_shared value ;;
  let to_find := (k, v) in
  pair_iterator <- ms_find this ByK to_find ;;
  end_ <- ms_end this ByK ;;
  if negb (pair_iterator =? end_) then
    x <- ms_deref this ByK pair_iterator ;;
    insert_both this x
  else
    insert_both this to_find.

Definition minValue (this : addr) : M V :=
  e <- empty this ;;
  if e then throw PQEmptyEx
  else x <- ms_deref this ByV 0 ;; ret (snd x).

Definition maxValue (this : addr) : M V :=
  e <- empty this ;;
  if e then throw PQEmptyEx
  else n <- ms_end this ByV ;; x <- ms_deref this ByV (n - 1) ;; ret (snd x).

Definition minKey (this : addr) : M K :=
  e <- empty this ;;
  if e then throw PQEmptyEx
  else x <- ms_deref this ByV 0 ;; ret (fst x).

Definition maxKey (this : addr) : M K :=
  e <- empty this ;;
  if e then throw PQEmptyEx
  else n <- ms_end this ByV ;; x <- ms_deref this ByV (n - 1) ;; ret (fst x).

Definition deleteMin (this : addr) : M unit :=
  e <- empty this ;;
  if e then ret tt
  else
    let to_delete1 := 0 in
    x <- ms_deref this ByV to_delete1 ;;
    to_delete2 <- ms_find this ByK x ;;
    ms_erase this ByV to_delete1 ;;
    ms_erase this ByK to_delete2.

Definition deleteMax (this : addr) : M unit :=
  e <- empty this ;;
  if e then ret tt
  else
    end_ <- ms_end this ByV ;;
    let to_delete1 := end_ - 1 in
    x <- ms_deref this ByV to_delete1 ;;
    to_delete2 <- ms_find this ByK x ;;
    ms_erase this ByV to_delete1 ;;
    ms_erase this ByK to_delete2.

(** [changeValue(key, value)].  The arguments of [std::make_pair] are
    evaluated left to right. *)
Definition changeValue (this : addr) (key : K) (value : V) : M unit :=
  k <- make_shared key ;;
  m <- minValue this ;;
  v <- make_shared m ;;
  let to_find := (k, v) in
  pair_iterator <- ms_lower_bound this ByK to_find ;;
  end_ <- ms_end this ByK ;;
  absent <-
    (if pair_iterator =? end_ then ret true
     else
       x <- ms_deref this ByK pair_iterator ;;
       e <- eq_op (fst x) key ;;
       ret (negb e)) ;;
  if absent then throw PQNotFoundEx
  else
    pair_to_delete <- ms_deref this ByK pair_iterator ;;
    insert this key value ;;
    to_delete <-
      try_catch
        (to_delete1 <- ms_find this ByK pair_to_delete ;;
         to_delete2 <- ms_find this ByV pair_to_delete ;;
         ret (to_delete1, to_delete2))
        (fun e =>
           iK <- get_it this ByK ;;
           ms_erase this ByK iK ;;
           iV <- get_it this ByV ;;
           ms_erase this ByV iV ;;
           throw e) ;;
    ms_erase this ByK (fst to_delete) ;;
    ms_erase this ByV (snd to_delete).

Definition merge (this queue : addr) : M unit :=
  if negb (this =? queue) then
    tmp <- copy_ctor this ;;
    try_catch
      (lk <- load queue ByK ;;
       ms_insert_range this ByK lk ;;
       lv <- load queue ByV ;;
       ms_insert_range this ByV lv)
      (fun e => swap_local this tmp ;; throw e) ;;
    clear queue
  else ret tt.

(** ** Comparison operators *)

(** The loop of [operator==]: [it2] is advanced without a test against
    [rhs]'s end. *)
Fixpoint eq_loop (l1 l2 : list key_value_pair) : M bool :=
  match l1 with
  | [] => ret true
  | x :: l1' =>
      match l2 with
      | [] => abort_with BadIterator
      | y :: l2' =>
          ek <- eq_op (fst x) (fst y) ;;
          e <- (if ek then eq_op (snd x) (snd y) else ret false) ;;
          if negb e then ret false else eq_loop l1' l2'
      end
  end.

Definition operator_eq (lhs rhs : addr) : M bool :=
  n1 <- size lhs ;;
  n2 <- size rhs ;;
  if n1 =? n2 then
    n <- size lhs ;;
    if n =? 0 then ret true
    else
      l1 <- load lhs ByK ;;
      l2 <- load rhs ByK ;;
      eq_loop l1 l2
  else ret false.

(** The loop of [operator<] and the test after it. *)
Fixpoint lt_loop (l1 l2 : list key_value_pair) : M bool :=
  match l1, l2 with
  | x :: l1', y :: l2' =>
      ek <- eq_op (fst x) (fst y) ;;
      if negb ek then lt_op (fst x) (fst y)
      else
        ev <- eq_op (snd x) (snd y) ;;
        if negb ev then lt_op (snd x) (snd y)
        else lt_loop l1' l2'
  | [], _ :: _ => ret true
  | _, _ => ret false
  end.

Definition operator_lt (lhs rhs : addr) : M bool :=
  n1 <- size lhs ;;
  both <- (if n1 =? 0 then n2 <- size rhs ;; ret (n2 =? 0) else ret false) ;;
  if both then ret false
  else
    n1 <- size lhs ;;
    either <- (if n1 =? 0 then ret true else n2 <- size rhs ;; ret (n2 =? 0)) ;;
    if either then n <- size lhs ;; ret (n =? 0)
    else
      l1 <- load lhs ByK ;;
      l2 <- load rhs ByK ;;
      match l1, l2 with
      | _ :: _, _ :: _ => lt_loop l1 l2
      | _, _ => abort_with AssertionFailed
      end.

Definition operator_ne (lhs rhs : addr) : M bool :=
  e <- operator_eq lhs rhs ;; ret (negb e).

Definition operator_gt (lhs rhs : addr) : M bool :=
  e <- operator_eq lhs rhs ;;
  if negb e then l <- operator_lt lhs rhs ;; ret (negb l) else ret false.

Definition operator_le (lhs rhs : addr) : M bool :=
  e <- operator_eq lhs rhs ;;
  if e then ret true else operator_lt lhs rhs.

Definition operator_ge (lhs rhs : addr) : M bool :=
  l <- operator_lt lhs rhs ;; ret (negb l).

(** The free function [swap(lhs, rhs)]. *)
Definition swap_free (lhs rhs : addr) : M unit :=
  noexcept (swap lhs rhs).

(** ** Observations on worlds *)

(** What a schedule holds in store: the first fault of each kind. *)
Definition outlook (s : schedule) : option nat * option nat :=
  (first_fault (kv_faults s), first_fault (alloc_faults s)).

(** [raised s e]: [e] is the exception the schedule [s] raises first for
    its kind; in particular [e] comes from K, V or the allocator. *)
Definition raised (s : schedule) (e : exn) : Prop :=
  match e with
  | Fault KV n => fst (outlook s) = Some n
  | Fault Alloc n => snd (outlook s) = Some n
  | _ => False
  end.

(** No allocation is scheduled to fail. *)
Definition alloc_quiet (s : schedule) : Prop := snd (outlook s) = None.

(** The externally observable state of a queue: the two sequences. *)
Definition observable (q : PriorityQueue)
    : option (list key_value_pair) * option (list key_value_pair) :=
  (pairs_by_K q, pairs_by_V q).

(** A queue whose indexes are the sequences [lk] and [lv]. *)
Definition holds (q : PriorityQueue) (lk lv : list key_value_pair) : Prop :=
  pairs_by_K q = Some lk /\ pairs_by_V q = Some lv.

(** ** Comparators and sequence algorithms without effects *)

Definition cmp_fst (a b : key_value_pair) : bool :=
  if negb (op_eq (fst a) (fst b)) then op_lt (fst a) (fst b)
  else op_lt (snd a) (snd b).

Definition cmp_snd (a b : key_value_pair) : bool :=
  if negb (op_eq (snd a) (snd b)) then op_lt (snd a) (snd b)
  else op_lt (fst a) (fst b).

Definition cmp (ix : index) : key_value_pair -> key_value_pair -> bool :=
  match ix with ByK => cmp_fst | ByV => cmp_snd end.

Fixpoint lower_bound_of (c : key_value_pair -> key_value_pair -> bool)
    (x : key_value_pair) (l : list key_value_pair) : nat :=
  match l with
  | [] => 0
  | y :: l' => if c y x then S (lower_bound_of c x l') else 0
  end.

Fixpoint upper_bound_of (c : key_value_pair -> key_value_pair -> bool)
    (x : key_value_pair) (l : list key_value_pair) : nat :=
  match l with
  | [] => 0
  | y :: l' => if c x y then 0 else S (upper_bound_of c x l')
  end.

Definition find_of (c : key_value_pair -> key_value_pair -> bool)
    (x : key_value_pair) (l : list key_value_pair) : nat :=
  match nth_error l (lower_bound_of c x l) with
  | None => length l
  | Some y => if c x y then length l else lower_bound_of c x l
  end.

(** The sequence after [insert(x)]. *)
Definition inserted (ix : index) (x : key_value_pair)
    (l : list key_value_pair) : list key_value_pair :=
  insert_at (upper_bound_of (cmp ix) x l) x l.

(** The sequence after [insert(first, last)] over [xs]. *)
Fixpoint inserted_all (ix : index) (xs l : list key_value_pair)
    : list key_value_pair :=
  match xs with
  | [] => l
  | x :: xs' => inserted_all ix xs' (inserted ix x l)
  end.

(** ** A weakest-precondition calculus for runs *)

Definition wp {A} (m : M A) (w : World) (Q : outcome A -> World -> Prop) : Prop :=
  Q (fst (m w)) (snd (m w)).

(** [m] changes no queue and returns [v], unless a scheduled fault makes
    it throw. *)
Definition reads {A} (m : M A) (v : A) : Prop :=
  forall h s (Q : outcome A -> World -> Prop),
    (forall s', outlook s' = outlook s -> Q (Ret v) (mkWorld h s')) ->
    (forall e s', raised s e -> Q (Throw e) (mkWorld h s')) ->
    wp m (mkWorld h s) Q.

(** ** Predicates on queues and stores *)

(** Every queue but [this] is observably the same in [h'] as in [h]. *)
Definition frame (this : addr) (h h' : addr -> PriorityQueue) : Prop :=
  forall a, a <> this -> observable (h' a) = observable (h a).

(** Every queue is observably the same in [h'] as in [h]. *)
Definition unchanged (h h' : addr -> PriorityQueue) : Prop :=
  forall a, observable (h' a) = observable (h a).

(** The pair [insert(key, value)] stores: the one [find] designates in
    the key index [lk], or else the new one. *)
Definition stored_pair (key : K) (value : V) (lk : list key_value_pair)
    : key_value_pair :=
  match nth_error lk (find_of cmp_fst (key, value) lk) with
  | Some y => y
  | None => (key, value)
  end.

(** Every queue but [this] is the same object in [h'] as in [h]. *)
Definition only (this : addr) (h h' : addr -> PriorityQueue) : Prop :=
  forall a, a <> this -> h' a = h a.

(** The number [size()] returns, and the condition its [assert] tests. *)
Definition size_of (q : PriorityQueue) : nat :=
  match pairs_by_K q, pairs_by_V q with
  | Some lk, Some _ => length lk
  | _, _ => 0
  end.

Definition coherent (q : PriorityQueue) : Prop :=
  match pairs_by_K q, pairs_by_V q with
  | Some lk, Some lv => length lk = length lv
  | _, _ => True
  end.

(** [l] is in the order of the index [ix]: no element goes before one
    that precedes it. *)
Definition sorted (ix : index) (l : list key_value_pair) : Prop :=
  StronglySorted (fun a b => cmp ix b a = false) l.

(** The invariant of a queue: both indexes are in order and hold the same
    pairs; a queue that was moved from has no index at all. *)
Definition wf (q : PriorityQueue) : Prop :=
  match pairs_by_K q, pairs_by_V q with
  | Some lk, Some lv => sorted ByK lk /\ sorted ByV lv /\ Permutation lk lv
  | None, None => True
  | _, _ => False
  end.

(** The lexicographic comparison both comparators instantiate. *)
Definition lex {A B} {EA : Elem A} {EB : Elem B} (a b : A * B) : bool :=
  if negb (op_eq (fst a) (fst b)) then op_lt (fst a) (fst b)
  else op_lt (snd a) (snd b).

(** The sequence after [changeValue] has inserted [x] and erased the
    pair [find] designates for [y]. *)
Definition changed (ix : index) (y x : key_value_pair)
    (l : list key_value_pair) : list key_value_pair :=
  erase_at (find_of (cmp ix) y (inserted ix x l)) (inserted ix x l).

(** The sequence of the key index, empty for a queue without indexes. *)
Definition keys (q : PriorityQueue) : list key_value_pair :=
  match pairs_by_K q with Some l => l | None => [] end.

(** What the loops of [operator==] and [operator<] compute. *)
Fixpoint eqb_seq (l1 l2 : list key_value_pair) : bool :=
  match l1, l2 with
  | x :: l1', y :: l2' =>
      op_eq (fst x) (fst y) && op_eq (snd x) (snd y) && eqb_seq l1' l2'
  | _, _ => true
  end.

Fixpoint ltb_seq (l1 l2 : list key_value_pair) : bool :=
  match l1, l2 with
  | x :: l1', y :: l2' =>
      if negb (op_eq (fst x) (fst y)) then op_lt (fst x) (fst y)
      else if negb (op_eq (snd x) (snd y)) then op_lt (snd x) (snd y)
      else ltb_seq l1' l2'
  | [], _ :: _ => true
  | _, _ => false
  end.

(** The value of [lhs == rhs]. *)
Definition eq_result (q1 q2 : PriorityQueue) : bool :=
  if size_of q1 =? size_of q2 then
    if size_of q1 =? 0 then true else eqb_seq (keys q1) (keys q2)
  else false.

(** The value of [lhs < rhs]. *)
Definition lt_result (q1 q2 : PriorityQueue) : bool :=
  if (size_of q1 =? 0) && (size_of q2 =? 0) then false
  else if (size_of q1 =? 0) || (size_of q2 =? 0) then size_of q1 =? 0
  else ltb_seq (keys q1) (keys q2).

(** ** Programs over the public interface *)

Inductive call : Type :=
| DefaultCtor (this : addr)
| CopyCtor (this queue : addr)
| MoveCtor (this queue : addr)
| CopyAssign (this queue : addr)
| MoveAssign (this queue : addr)
| Size (this : addr)
| Empty (this : addr)
| Insert (this : addr) (key : K) (value : V)
| MinValue (this : addr)
| MaxValue (this : addr)
| MinKey (this : addr)
| MaxKey (this : addr)
| DeleteMin (this : addr)
| DeleteMax (this : addr)
| ChangeValue (this : addr) (key : K) (value : V)
| Merge (this queue : addr)
| Swap (this queue : addr)
| OpEq (lhs rhs : addr)
| OpNe (lhs rhs : addr)
| OpLt (lhs rhs : addr)
| OpGt (lhs rhs : addr)
| OpLe (lhs rhs : addr)
| OpGe (lhs rhs : addr).

Definition discard {A} (m : M A) : M unit := _ <- m ;; ret tt.

(** One call of the public interface; a constructor builds its object at
    the address [this]. *)
Definition exec (c : call) : M unit :=
  match c with
  | DefaultCtor this => q <- default_ctor ;; put this q
  | CopyCtor this queue => q <- copy_ctor queue ;; put this q
  | MoveCtor this queue => move_ctor this queue
  | CopyAssign this queue => copy_assign this queue
  | MoveAssign this queue => move_assign this queue
  | Size this => discard (size this)
  | Empty this => discard (empty this)
  | Insert this key value => insert this key value
  | MinValue this => discard (minValue this)
  | MaxValue this => discard (maxValue this)
  | MinKey this => discard (minKey this)
  | MaxKey this => discard (maxKey this)
  | DeleteMin this => deleteMin this
  | DeleteMax this => deleteMax this
  | ChangeValue this key value => changeValue this key value
  | Merge this queue => merge this queue
  | Swap this queue => swap this queue
  | OpEq lhs rhs => discard (operator_eq lhs rhs)
  | OpNe lhs rhs => discard (operator_ne lhs rhs)
  | OpLt lhs rhs => discard (operator_lt lhs rhs)
  | OpGt lhs rhs => discard (operator_gt lhs rhs)
  | OpLe lhs rhs => discard (operator_le lhs rhs)
  | OpGe lhs rhs => discard (operator_ge lhs rhs)
  end.

(** A caller that makes the calls one after the other, catching what
    they throw; the run ends where a call aborts the program.  The
    result lists how each call ended. *)
Fixpoint run_calls (cs : list call) (w : World) : list (outcome unit) * World :=
  match cs with
  | [] => ([], w)
  | c :: cs' =>
      match exec c w with
      | (Abort x, w1) => ([Abort x], w1)
      | (r, w1) => (r :: fst (run_calls cs' w1), snd (run_calls cs' w1))
      end
  end.

(** Whether a run was free of aborts. *)
Definition completes (rs : list (outcome unit)) : Prop :=
  Forall (fun r => match r with Abort _ => False | _ => True end) rs.

(** Insertion of a list of pairs, one [insert] after the other. *)
Fixpoint insert_list (this : addr) (l : list key_value_pair) : M unit :=
  match l with
  | [] => ret tt
  | x :: l' => insert this (fst x) (snd x) ;; insert_list this l'
  end.

(** Every queue of the store satisfies the invariant. *)
Definition all_wf (h : addr -> PriorityQueue) : Prop := forall a, wf (h a).

(** ** Counting pairs *)

(** The effect of a call that returns on the number of pairs of each
    queue: [insert] adds one, [deleteMin] and [deleteMax] remove one
    unless there is none, [merge] moves the pairs of its argument; copies,
    moves and [swap] carry the pairs of a queue along. *)
Definition count_step (c : call) (n : addr -> nat) : addr -> nat :=
  match c with
  | DefaultCtor this => upd n this 0
  | CopyCtor this queue => upd n this (n queue)
  | CopyAssign this queue => upd n this (n queue)
  | MoveCtor this queue =>
      if this =? queue then upd n this 0
      else upd (upd n queue 0) this (n queue)
  | MoveAssign this queue => upd (upd n queue 0) this (n queue)
  | Insert this _ _ => upd n this (S (n this))
  | DeleteMin this => upd n this (n this - 1)
  | DeleteMax this => upd n this (n this - 1)
  | Merge this queue =>
      if this =? queue then n
      else upd (upd n this (n this + n queue)) queue 0
  | Swap this queue => upd (upd n this (n queue)) queue (n this)
  | _ => n
  end.

(** The numbers of pairs after the calls [cs] that ended as [rs] say:
    a call that threw counts for nothing. *)
Fixpoint expected_sizes (cs : list call) (rs : list (outcome unit))
    (n : addr -> nat) : addr -> nat :=
  match cs, rs with
  | c :: cs', Ret _ :: rs' => expected_sizes cs' rs' (count_step c n)
  | _ :: cs', _ :: rs' => expected_sizes cs' rs' n
  | _, _ => n
  end.

(** What a call leaves behind, by the way it ended: after a return, the
    invariant and the count of [count_step]; after an exception, the
    queues as they were. *)
Definition effect (c : call) (h : addr -> PriorityQueue)
    (r : outcome unit) (w' : World) : Prop :=
  match r with
  | Ret _ =>
      all_wf (heap w') /\
      forall a, size_of (heap w' a) = count_step c (fun b => size_of (h b)) a
  | Throw _ => unchanged h (heap w')
  | Abort _ => True
  end.

(** A call that returns or throws with the store [h] it started from. *)
Definition keeps {A} (h : addr -> PriorityQueue) (r : outcome A) (w' : World) : Prop :=
  match r with
  | Abort _ => False
  | _ => heap w' = h
  end.

(** ** Further programs and observations *)

(** [m] returns [v] from [w] and leaves every queue as it is. *)
Definition returns {A} (m : M A) (w : World) (v : A) : Prop :=
  fst (m w) = Ret v /\ heap (snd (m w)) = heap w.

(** A caller that reads minValue() and calls deleteMin(), [n] times,
    collecting the values read. *)
Fixpoint drain (this : addr) (n : nat) : M (list V) :=
  match n with
  | 0 => ret []
  | S n' =>
      m <- minValue this ;;
      deleteMin this ;;
      r <- drain this n' ;;
      ret (m :: r)
  end.

(** Two pairs are equal, as [operator==] and [operator<] test it. *)
Definition pair_eqb (x y : key_value_pair) : bool :=
  op_eq (fst x) (fst y) && op_eq (snd x) (snd y).

(** [m] changes no queue, runs no operation of K or V, and returns [v]
    unless an allocation fails. *)
Definition allocates {A} (m : M A) (v : A) : Prop :=
  forall h s (Q : outcome A -> World -> Prop),
    (forall s', kv_faults s' = kv_faults s -> outlook s' = outlook s ->
                Q (Ret v) (mkWorld h s')) ->
    (forall n s', kv_faults s' = kv_faults s -> snd (outlook s) = Some n ->
                  Q (Throw (Fault Alloc n)) (mkWorld h s')) ->
    wp m (mkWorld h s) Q.

(** What a copy leaves behind: [this] with the indexes of [queue], or,
    after a failed allocation, every queue as it was; no operation of K
    or V has run. *)
Definition copied (this queue : addr) (w : World) (r : outcome unit)
    (w' : World) : Prop :=
  kv_faults (faults w') = kv_faults (faults w) /\
  match r with
  | Ret _ =>
      observable (heap w' this) = observable (heap w queue) /\
      (forall a, a <> this -> heap w' a = heap w a)
  | Throw e =>
      (exists n, e = Fault Alloc n /\ snd (outlook (faults w)) = Some n) /\
      heap w' = heap w
  | Abort _ => False
  end.

(** What a move leaves behind: [this] with the indexes of [queue], and
    [queue], when it is another object, with none, so that it reports
    itself empty; the schedule is untouched. *)
Definition moved (this queue : addr) (w w' : World) : Prop :=
  faults w' = faults w /\
  observable (heap w' this) = observable (heap w queue) /\
  (this <> queue ->
   observable (heap w' queue) = (None, None) /\
   size queue w' = (Ret 0, w') /\
   empty queue w' = (Ret true, w')) /\
  (forall a, a <> this -> a <> queue -> heap w' a = heap w a).

(** The only ways a call can abort: a null pointer dereferenced, and
    then some queue of the store [h] has no indexes, or std::terminate,
    and then the schedule [s] holds a failing allocation. *)
Definition harmless {A} (h : addr -> PriorityQueue) (s : schedule)
    (r : outcome A) (w' : World) : Prop :=
  match r with
  | Abort x =>
      (x = NullDeref /\ exists a, pairs_by_K (h a) = None) \/
      (x = Terminated /\ ~ alloc_quiet s)
  | _ => True
  end.

(** No call of the run hit an invalid iterator or a failed [assert]. *)
Definition well_behaved (rs : list (outcome unit)) : Prop :=
  Forall (fun r => r <> Abort BadIterator /\ r <> Abort AssertionFailed) rs.

(** * Properties *)

(** ** Rules of the calculus *)

Lemma wp_ret {A} (a : A) w Q : Q (Ret a) w -> wp (ret a) w Q.
Proof. exact (fun H => H). Qed.

Lemma wp_throw {A} e w (Q : outcome A -> World -> Prop) :
  Q (Throw e) w -> wp (throw e) w Q.
Proof. exact (fun H => H). Qed.

Lemma wp_abort {A} x w (Q : outcome A -> World -> Prop) :
  Q (Abort x) w -> wp (abort_with x) w Q.
Proof. exact (fun H => H). Qed.

Lemma wp_bind {A B} (m : M A) (k : A -> M B) w Q :
  wp m w (fun r w1 =>
            match r with
            | Ret a => wp (k a) w1 Q
            | Throw e => Q (Throw e) w1
            | Abort x => Q (Abort x) w1
            end) ->
  wp (bind m k) w Q.
Proof.
  unfold wp, bind. destruct (m w) as [[a|e|x] w1]; simpl; auto.
Qed.

Lemma wp_try {A} (m : M A) (h : exn -> M A) w Q :
  wp m w (fun r w1 =>
            match r with
            | Throw e => wp (h e) w1 Q
            | _ => Q r w1
            end) ->
  wp (try_catch m h) w Q.
Proof.
  unfold wp, try_catch. destruct (m w) as [[a|e|x] w1]; simpl; auto.
Qed.

Lemma wp_noexcept {A} (m : M A) w Q :
  wp m w (fun r w1 =>
            match r with
            | Throw _ => Q (Abort Terminated) w1
            | _ => Q r w1
            end) ->
  wp (noexcept m) w Q.
Proof.
  unfold wp, noexcept. destruct (m w) as [[a|e|x] w1]; simpl; auto.
Qed.

Lemma wp_mono {A} (m : M A) w (Q Q' : outcome A -> World -> Prop) :
  wp m w Q -> (forall r w1, Q r w1 -> Q' r w1) -> wp m w Q'.
Proof. unfold wp. auto. Qed.

(** What a calculus judgement says of a run. *)
Lemma wp_run {A} (m : M A) w Q r w1 :
  wp m w Q -> m w = (r, w1) -> Q r w1.
Proof. unfold wp. intros H E. rewrite E in H. exact H. Qed.

Lemma wp_get a h s Q :
  Q (Ret (h a)) (mkWorld h s) -> wp (get a) (mkWorld h s) Q.
Proof. exact (fun H => H). Qed.

Lemma upd_same {A} (h : addr -> A) a x : upd h a x a = x.
Proof. unfold upd. now rewrite Nat.eqb_refl. Qed.

Lemma upd_other {A} (h : addr -> A) a b x : b <> a -> upd h a x b = h b.
Proof. unfold upd. intros H. apply Nat.eqb_neq in H. now rewrite H. Qed.

Lemma only_refl this h : only this h h.
Proof. intros a _. reflexivity. Qed.

Lemma only_trans this h1 h2 h3 : only this h1 h2 -> only this h2 h3 -> only this h1 h3.
Proof. intros H1 H2 a Ha. rewrite H2, H1; auto. Qed.

Lemma wp_put a q h s Q :
  (forall h', h' a = q -> only a h h' -> Q (Ret tt) (mkWorld h' s)) ->
  wp (put a q) (mkWorld h s) Q.
Proof.
  intros HQ. apply HQ.
  - apply upd_same.
  - intros b Hb. apply upd_other, Hb.
Qed.

(** ** Operations that only read *)

Lemma reads_ret {A} (a : A) : reads (ret a) a.
Proof. intros h s Q H _. apply wp_ret, H. reflexivity. Qed.

Lemma raised_outlook s s' e : outlook s' = outlook s -> raised s' e -> raised s e.
Proof. unfold raised. intros ->. auto. Qed.

Lemma reads_bind {A B} (m : M A) (k : A -> M B) a b :
  reads m a -> reads (k a) b -> reads (bind m k) b.
Proof.
  intros Hm Hk h s Q HR HT. apply wp_bind, Hm.
  - intros s' E. apply Hk.
    + intros s'' E'. apply HR. congruence.
    + intros e s'' R. apply HT. eapply raised_outlook; eauto.
  - intros e s' R. apply HT, R.
Qed.

Lemma reads_tick kd : reads (tick kd) tt.
Proof.
  intros h s Q HR HT. unfold wp, tick. simpl.
  destruct kd, s as [fk fa]; simpl.
  - destruct fk as [|[n|] fk]; simpl.
    + apply HR. reflexivity.
    + apply HT. reflexivity.
    + apply HR. reflexivity.
  - destruct fa as [|[n|] fa]; simpl.
    + apply HR. reflexivity.
    + apply HT. reflexivity.
    + apply HR. reflexivity.
Qed.

Lemma reads_eq_op {T} {E : Elem T} (a b : T) : reads (eq_op a b) (op_eq a b).
Proof. eapply reads_bind; [apply reads_tick | apply reads_ret]. Qed.

Lemma reads_lt_op {T} {E : Elem T} (a b : T) : reads (lt_op a b) (op_lt a b).
Proof. eapply reads_bind; [apply reads_tick | apply reads_ret]. Qed.

Lemma reads_make_shared {T} (x : T) : reads (make_shared x) x.
Proof.
  eapply reads_bind; [apply reads_tick |].
  eapply reads_bind; [apply reads_tick | apply reads_ret].
Qed.

Lemma reads_comp ix a b : reads (comp_of ix a b) (cmp ix a b).
Proof.
  destruct ix; simpl; unfold CompByFst, CompBySnd, cmp_fst, cmp_snd;
    (eapply reads_bind; [apply reads_eq_op |]);
    destruct (negb _); apply reads_lt_op.
Qed.

Lemma reads_lower_bound ix x l :
  reads (lower_bound (comp_of ix) x l) (lower_bound_of (cmp ix) x l).
Proof.
  induction l as [|y l IH]; simpl.
  - apply reads_ret.
  - eapply reads_bind; [apply reads_comp |].
    destruct (cmp ix y x).
    + eapply reads_bind; [apply IH | apply reads_ret].
    + apply reads_ret.
Qed.

Lemma reads_upper_bound ix x l :
  reads (upper_bound (comp_of ix) x l) (upper_bound_of (cmp ix) x l).
Proof.
  induction l as [|y l IH]; simpl.
  - apply reads_ret.
  - eapply reads_bind; [apply reads_comp |].
    destruct (cmp ix x y).
    + apply reads_ret.
    + eapply reads_bind; [apply IH | apply reads_ret].
Qed.

Lemma reads_find ix x l :
  reads (find (comp_of ix) x l) (find_of (cmp ix) x l).
Proof.
  unfold find, find_of.
  eapply reads_bind; [apply reads_lower_bound |].
  destruct (nth_error l _) as [y|].
  - eapply reads_bind; [apply reads_comp | apply reads_ret].
  - apply reads_ret.
Qed.

Lemma reads_ms_new : reads ms_new [].
Proof. eapply reads_bind; [apply reads_tick | apply reads_ret]. Qed.

Lemma reads_ms_copy l : reads (ms_copy l) l.
Proof.
  eapply reads_bind; [apply reads_tick |].
  induction l as [|x l IH]; simpl.
  - apply reads_ret.
  - eapply reads_bind; [apply reads_tick |].
    eapply reads_bind; [apply IH | apply reads_ret].
Qed.

Lemma reads_default_ctor : reads default_ctor (mkPQ (Some []) (Some []) None None).
Proof.
  eapply reads_bind; [apply reads_ms_new |].
  eapply reads_bind; [apply reads_ms_new | apply reads_ret].
Qed.

(** ** Access to the members of a queue in the store *)

Lemma wp_load this ix l h s Q :
  member ix (h this) = Some l ->
  Q (Ret l) (mkWorld h s) ->
  wp (load this ix) (mkWorld h s) Q.
Proof.
  intros Hm HQ. unfold load. apply wp_bind, wp_get. rewrite Hm. exact HQ.
Qed.

Lemma wp_load_null this ix h s Q :
  member ix (h this) = None ->
  Q (Abort NullDeref) (mkWorld h s) ->
  wp (load this ix) (mkWorld h s) Q.
Proof.
  intros Hm HQ. unfold load. apply wp_bind, wp_get. rewrite Hm. exact HQ.
Qed.

Lemma wp_store this ix l h s Q :
  (forall h', h' this = set_member ix (Some l) (h this) -> only this h h' ->
              Q (Ret tt) (mkWorld h' s)) ->
  wp (store this ix l) (mkWorld h s) Q.
Proof. intros HQ. unfold store. apply wp_bind, wp_get, wp_put, HQ. Qed.

Lemma wp_reads {A} (m : M A) v h s Q :
  reads m v ->
  (forall s', outlook s' = outlook s -> Q (Ret v) (mkWorld h s')) ->
  (forall e s', raised s e -> Q (Throw e) (mkWorld h s')) ->
  wp m (mkWorld h s) Q.
Proof. intros H. apply H. Qed.

Lemma wp_ms_end this ix l h s Q :
  member ix (h this) = Some l ->
  Q (Ret (length l)) (mkWorld h s) ->
  wp (ms_end this ix) (mkWorld h s) Q.
Proof.
  intros Hm HQ. unfold ms_end. eapply wp_bind, wp_load; eauto.
Qed.

Lemma wp_ms_size this ix l h s Q :
  member ix (h this) = Some l ->
  Q (Ret (length l)) (mkWorld h s) ->
  wp (ms_size this ix) (mkWorld h s) Q.
Proof.
  intros Hm HQ. unfold ms_size. eapply wp_bind, wp_load; eauto.
Qed.

Lemma wp_ms_deref this ix it l x h s Q :
  member ix (h this) = Some l ->
  nth_error l it = Some x ->
  Q (Ret x) (mkWorld h s) ->
  wp (ms_deref this ix it) (mkWorld h s) Q.
Proof.
  intros Hm Hn HQ. unfold ms_deref. eapply wp_bind, wp_load; eauto.
  simpl. rewrite Hn. exact HQ.
Qed.

Lemma wp_ms_find this ix x l h s Q :
  member ix (h this) = Some l ->
  (forall s', outlook s' = outlook s ->
              Q (Ret (find_of (cmp ix) x l)) (mkWorld h s')) ->
  (forall e s', raised s e -> Q (Throw e) (mkWorld h s')) ->
  wp (ms_find this ix x) (mkWorld h s) Q.
Proof.
  intros Hm HR HT. unfold ms_find. eapply wp_bind, wp_load; eauto.
  simpl. apply reads_find; assumption.
Qed.

Lemma wp_ms_lower_bound this ix x l h s Q :
  member ix (h this) = Some l ->
  (forall s', outlook s' = outlook s ->
              Q (Ret (lower_bound_of (cmp ix) x l)) (mkWorld h s')) ->
  (forall e s', raised s e -> Q (Throw e) (mkWorld h s')) ->
  wp (ms_lower_bound this ix x) (mkWorld h s) Q.
Proof.
  intros Hm HR HT. unfold ms_lower_bound. eapply wp_bind, wp_load; eauto.
  simpl. apply reads_lower_bound; assumption.
Qed.

(** A successful [insert(x)] stores [inserted ix x l] and returns the
    position of the new element; a failed one changes nothing. *)
Lemma wp_ms_insert this ix x l h s Q :
  member ix (h this) = Some l ->
  (forall h' s',
     outlook s' = outlook s ->
     h' this = set_member ix (Some (inserted ix x l)) (h this) ->
     only this h h' ->
     Q (Ret (upper_bound_of (cmp ix) x l)) (mkWorld h' s')) ->
  (forall e s', raised s e -> Q (Throw e) (mkWorld h s')) ->
  wp (ms_insert this ix x) (mkWorld h s) Q.
Proof.
  intros Hm HR HT. unfold ms_insert. eapply wp_bind, wp_load; eauto.
  simpl. apply wp_bind, reads_upper_bound.
  - intros s1 E1. apply wp_bind, reads_tick.
    + intros s2 E2. apply wp_bind, wp_store. intros h' H F.
      apply wp_ret, HR; auto. congruence.
    + intros e s2 R. apply HT. eapply raised_outlook; eauto.
  - intros e s1 R. apply HT, R.
Qed.

Lemma wp_ms_erase this ix it l h s Q :
  member ix (h this) = Some l ->
  it < length l ->
  (forall h',
     h' this = set_member ix (Some (erase_at it l)) (h this) ->
     only this h h' ->
     Q (Ret tt) (mkWorld h' s)) ->
  wp (ms_erase this ix it) (mkWorld h s) Q.
Proof.
  intros Hm Hlt HQ. unfold ms_erase. eapply wp_bind, wp_load; eauto.
  simpl. apply Nat.ltb_lt in Hlt. rewrite Hlt. apply wp_store, HQ.
Qed.

(** ** Positions, insertion and erasure in a sequence *)

Lemma lower_bound_of_le c x l : lower_bound_of c x l <= length l.
Proof. induction l as [|y l IH]; simpl; [|destruct (c y x)]; lia. Qed.

Lemma upper_bound_of_le c x l : upper_bound_of c x l <= length l.
Proof. induction l as [|y l IH]; simpl; [|destruct (c x y)]; lia. Qed.

Lemma find_of_le c x l : find_of c x l <= length l.
Proof.
  unfold find_of. pose proof (lower_bound_of_le c x l).
  destruct (nth_error l _) as [y|]; [destruct (c x y)|]; lia.
Qed.

Lemma lower_bound_of_nth c x l y :
  nth_error l (lower_bound_of c x l) = Some y -> c y x = false.
Proof.
  induction l as [|z l IH]; simpl.
  - discriminate.
  - destruct (c z x) eqn:Ez; simpl; [exact IH|]. congruence.
Qed.

Lemma find_of_nth c x l :
  find_of c x l <> length l ->
  exists y, nth_error l (find_of c x l) = Some y /\ c y x = false /\ c x y = false.
Proof.
  unfold find_of. intros H.
  destruct (nth_error l (lower_bound_of c x l)) as [y|] eqn:E; [|congruence].
  destruct (c x y) eqn:Exy; [congruence|].
  exists y. rewrite E. repeat split; auto.
  eapply lower_bound_of_nth; eauto.
Qed.

Lemma find_of_end c x l :
  find_of c x l = length l -> nth_error l (find_of c x l) = None.
Proof. intros ->. apply nth_error_None. lia. Qed.

Lemma length_insert_at i x l : length (insert_at i x l) = S (length l).
Proof.
  unfold insert_at. rewrite length_app. simpl.
  rewrite Nat.add_succ_r, <- length_app, firstn_skipn. reflexivity.
Qed.

Lemma length_erase_at i l : i < length l -> length (erase_at i l) = length l - 1.
Proof.
  intros H. unfold erase_at.
  rewrite length_app, length_firstn, length_skipn. lia.
Qed.

Lemma erase_insert_at i x l : i <= length l -> erase_at i (insert_at i x l) = l.
Proof.
  unfold erase_at, insert_at. revert l.
  induction i as [|i IH]; intros [|y l] H; simpl in *; try lia; auto.
  f_equal. apply IH. lia.
Qed.

Lemma Permutation_insert_at i x l : Permutation (x :: l) (insert_at i x l).
Proof.
  unfold insert_at. rewrite <- (firstn_skipn i l) at 1.
  apply Permutation_middle.
Qed.

Lemma nth_error_insert_at i x l :
  i <= length l -> nth_error (insert_at i x l) i = Some x.
Proof.
  unfold insert_at. revert l.
  induction i as [|i IH]; intros [|y l] H; simpl in *; try lia; auto.
  apply IH. lia.
Qed.

Lemma Permutation_erase_at i x l :
  nth_error l i = Some x -> Permutation l (x :: erase_at i l).
Proof.
  unfold erase_at. revert l.
  induction i as [|i IH]; intros [|y l] H; simpl in *; try discriminate.
  - injection H as ->. reflexivity.
  - rewrite perm_swap. constructor. apply IH, H.
Qed.

Lemma Permutation_inserted ix x l : Permutation (x :: l) (inserted ix x l).
Proof. apply Permutation_insert_at. Qed.

Lemma length_inserted ix x l : length (inserted ix x l) = S (length l).
Proof. apply length_insert_at. Qed.

Lemma Permutation_inserted_all ix xs l : Permutation (xs ++ l) (inserted_all ix xs l).
Proof.
  revert l. induction xs as [|x xs IH]; intros l; simpl.
  - reflexivity.
  - rewrite <- IH. rewrite <- Permutation_inserted.
    apply Permutation_middle.
Qed.

(** ** The iterators kept for roll-back *)

Lemma wp_set_it this ix it h s Q :
  (forall h', h' this = set_inserted ix it (h this) -> only this h h' ->
              Q (Ret tt) (mkWorld h' s)) ->
  wp (set_it this ix it) (mkWorld h s) Q.
Proof. intros HQ. unfold set_it. apply wp_bind, wp_get, wp_put, HQ. Qed.

Lemma wp_get_it this ix it h s Q :
  match ix with ByK => inserted_K (h this) | ByV => inserted_V (h this) end = Some it ->
  Q (Ret it) (mkWorld h s) ->
  wp (get_it this ix) (mkWorld h s) Q.
Proof.
  intros Hi HQ. unfold get_it. apply wp_bind, wp_get. rewrite Hi. exact HQ.
Qed.

(** Bookkeeping for a proof that follows a run: [Hthis] describes the
    object at [this] in the current store, [Hfr] relates the current
    store to the first one, [Hs] the current schedule to the first. *)
Ltac fields :=
  cbn [member set_member set_inserted pairs_by_K pairs_by_V
       inserted_K inserted_V observable fst snd].

Ltac fields_in H :=
  cbn [member set_member set_inserted pairs_by_K pairs_by_V
       inserted_K inserted_V observable fst snd] in H.

Ltac new_sched Hs :=
  let s' := fresh "s" in
  let E := fresh "E" in
  intros s' E; try rewrite Hs in E; clear Hs; rename E into Hs.

Ltac new_heap Hthis Hfr :=
  let h' := fresh "h" in
  let H := fresh "H" in
  let F := fresh "F" in
  let F' := fresh "F" in
  intros h' H F; rewrite Hthis in H; fields_in H;
  pose proof (only_trans _ _ _ _ Hfr F) as F';
  clear Hfr F Hthis; rename H into Hthis; rename F' into Hfr.

Ltac new_world Hthis Hfr Hs :=
  let h' := fresh "h" in
  let s' := fresh "s" in
  let E := fresh "E" in
  let H := fresh "H" in
  let F := fresh "F" in
  let F' := fresh "F" in
  intros h' s' E H F; try rewrite Hs in E; rewrite Hthis in H; fields_in H;
  pose proof (only_trans _ _ _ _ Hfr F) as F';
  clear Hfr F Hthis Hs; rename H into Hthis; rename F' into Hfr; rename E into Hs.

Ltac thrown Hs :=
  let e := fresh "e" in
  let s' := fresh "s" in
  let R := fresh "R" in
  intros e s' R; apply (raised_outlook _ _ _ Hs) in R.

Ltac at_this Hthis := rewrite Hthis; fields.

Lemma unchanged_refl h : unchanged h h.
Proof. intros a. reflexivity. Qed.

Lemma frame_of_only this h h' : only this h h' -> frame this h h'.
Proof. intros H a Ha. now rewrite H. Qed.

Lemma unchanged_of_only this h h' :
  only this h h' -> observable (h' this) = observable (h this) -> unchanged h h'.
Proof.
  intros H E a. destruct (Nat.eq_dec a this) as [->|Ha]; [exact E|now rewrite H].
Qed.

(** ** insert *)

Lemma wp_insert_both this x lk lv h s Q :
  holds (h this) lk lv ->
  (forall h' s',
      outlook s' = outlook s ->
      holds (h' this) (inserted ByK x lk) (inserted ByV x lv) ->
      inserted_K (h' this) = Some (upper_bound_of cmp_fst x lk) ->
      inserted_V (h' this) = Some (upper_bound_of cmp_snd x lv) ->
      only this h h' ->
      Q (Ret tt) (mkWorld h' s')) ->
  (forall e h' s', raised s e -> unchanged h h' -> Q (Throw e) (mkWorld h' s')) ->
  wp (insert_both this x) (mkWorld h s) Q.
Proof.
  intros [HK HV] HR HT. unfold insert_both.
  pose proof (only_refl this h) as Hfr.
  pose proof (eq_refl (outlook s)) as Hs.
  destruct (h this) as [pk pv ik iv] eqn:Hinit. cbn in HK, HV. subst pk pv.
  pose proof Hinit as Hthis.
  apply wp_bind, (wp_ms_insert this ByK x lk); [at_this Hthis; reflexivity | |].
  - new_world Hthis Hfr Hs. cbn beta iota.
    apply wp_bind, wp_set_it. new_heap Hthis Hfr. cbn beta iota.
    apply wp_try, wp_bind.
    apply (wp_ms_insert this ByV x lv); [at_this Hthis; reflexivity | |].
    + new_world Hthis Hfr Hs. cbn beta iota.
      apply wp_set_it. new_heap Hthis Hfr.
      apply HR; auto; try (split; at_this Hthis; reflexivity);
        at_this Hthis; reflexivity.
    + thrown Hs. cbn beta iota.
      apply wp_bind. eapply wp_get_it; [at_this Hthis; reflexivity|].
      cbn beta iota. apply wp_bind.
      eapply wp_ms_erase; [at_this Hthis; reflexivity | |].
      * unfold inserted. rewrite length_insert_at.
        pose proof (upper_bound_of_le (cmp ByK) x lk). lia.
      * new_heap Hthis Hfr. cbn beta iota. apply wp_throw, HT; auto.
        eapply unchanged_of_only; eauto.
        rewrite Hthis, Hinit. fields. unfold inserted.
        rewrite erase_insert_at by apply upper_bound_of_le. reflexivity.
  - thrown Hs. apply HT; auto. apply unchanged_refl.
Qed.

Lemma wp_insert this key value lk lv h s Q :
  holds (h this) lk lv ->
  (forall h' s',
      outlook s' = outlook s ->
      holds (h' this) (inserted ByK (stored_pair key value lk) lk)
                      (inserted ByV (stored_pair key value lk) lv) ->
      inserted_K (h' this)
        = Some (upper_bound_of cmp_fst (stored_pair key value lk) lk) ->
      inserted_V (h' this)
        = Some (upper_bound_of cmp_snd (stored_pair key value lk) lv) ->
      only this h h' ->
      Q (Ret tt) (mkWorld h' s')) ->
  (forall e h' s', raised s e -> unchanged h h' -> Q (Throw e) (mkWorld h' s')) ->
  wp (insert this key value) (mkWorld h s) Q.
Proof.
  intros Hh HR HT. unfold insert, stored_pair in *.
  pose proof (eq_refl (outlook s)) as Hs.
  pose proof Hh as [HK HV].
  apply wp_bind, (wp_reads _ _ _ _ _ (reads_make_shared key)).
  2:{ thrown Hs. apply HT; auto using unchanged_refl. }
  new_sched Hs. cbn beta iota.
  apply wp_bind, (wp_reads _ _ _ _ _ (reads_make_shared value)).
  2:{ thrown Hs. apply HT; auto using unchanged_refl. }
  new_sched Hs. cbn beta iota.
  apply wp_bind, (wp_ms_find this ByK (key, value) lk); [exact HK | |].
  2:{ thrown Hs. apply HT; auto using unchanged_refl. }
  new_sched Hs. cbn beta iota.
  apply wp_bind, (wp_ms_end this ByK lk); [exact HK|]. cbn beta iota.
  change (cmp ByK) with cmp_fst.
  destruct (Nat.eqb_spec (find_of cmp_fst (key, value) lk) (length lk)) as [E|E];
    cbn [negb].
  - rewrite (find_of_end _ _ _ E) in HR.
    apply (wp_insert_both this (key, value) lk lv); auto.
    + intros h' s' E' H1 H2 H3 H4. apply HR; auto. congruence.
    + intros e h' s' R U. apply HT; auto. eapply raised_outlook; eauto.
  - destruct (find_of_nth _ _ _ E) as (y & Hy & _).
    rewrite Hy in HR.
    apply wp_bind, (wp_ms_deref this ByK _ lk y); auto. cbn beta iota.
    apply (wp_insert_both this y lk lv); auto.
    + intros h' s' E' H1 H2 H3 H4. apply HR; auto. congruence.
    + intros e h' s' R U. apply HT; auto. eapply raised_outlook; eauto.
Qed.

(** ** size, empty and the accessors *)

Lemma wf_coherent q : wf q -> coherent q.
Proof.
  unfold wf, coherent. destruct (pairs_by_K q), (pairs_by_V q); auto.
  intros (_ & _ & P). apply Permutation_length, P.
Qed.

Lemma holds_coherent q lk lv : holds q lk lv -> coherent q -> length lk = length lv.
Proof. unfold coherent. intros [-> ->]. auto. Qed.

Lemma holds_size_of q lk lv : holds q lk lv -> size_of q = length lk.
Proof. unfold size_of. intros [-> ->]. auto. Qed.

Lemma wp_size this h s Q :
  coherent (h this) ->
  Q (Ret (size_of (h this))) (mkWorld h s) ->
  wp (size this) (mkWorld h s) Q.
Proof.
  unfold coherent, size_of. intros Hc HQ. unfold size, isValid.
  apply wp_noexcept, wp_bind, wp_bind, wp_get, wp_ret. cbn beta iota.
  destruct (pairs_by_K (h this)) as [lk|] eqn:EK';
    [destruct (pairs_by_V (h this)) as [lv|] eqn:EV'|]; cbn [negb];
    try (apply wp_ret; exact HQ).
  apply wp_bind, (wp_ms_size this ByK lk); auto. cbn beta iota.
  apply wp_bind, (wp_ms_size this ByV lv); auto. cbn beta iota.
  rewrite Hc, Nat.eqb_refl. apply wp_ret. rewrite <- Hc. exact HQ.
Qed.

Lemma wp_empty this h s Q :
  coherent (h this) ->
  Q (Ret (size_of (h this) =? 0)) (mkWorld h s) ->
  wp (empty this) (mkWorld h s) Q.
Proof.
  intros Hc HQ. unfold empty.
  apply wp_noexcept, wp_bind, wp_size; [exact Hc|]. apply wp_ret, HQ.
Qed.

(** A queue that is not empty has both indexes, of the same length. *)
Lemma size_of_pos q :
  coherent q -> size_of q <> 0 ->
  exists lk lv, holds q lk lv /\ length lk = length lv /\ length lv <> 0.
Proof.
  unfold coherent, size_of, holds.
  destruct (pairs_by_K q) as [lk|]; [destruct (pairs_by_V q) as [lv|]|];
    intros Hc Hn; try congruence.
  exists lk, lv. repeat split; congruence.
Qed.

Lemma nth_error_first {A} (l : list A) :
  length l <> 0 -> exists x, nth_error l 0 = Some x.
Proof. destruct l as [|x l]; simpl; [congruence|eauto]. Qed.

Lemma nth_error_last {A} (l : list A) :
  length l <> 0 -> exists x, nth_error l (length l - 1) = Some x.
Proof.
  intros H. destruct (nth_error l (length l - 1)) as [x|] eqn:E; eauto.
  apply nth_error_None in E. lia.
Qed.

Lemma wp_minValue this h s Q :
  coherent (h this) ->
  (size_of (h this) = 0 -> Q (Throw PQEmptyEx) (mkWorld h s)) ->
  (forall lk lv x, holds (h this) lk lv -> nth_error lv 0 = Some x ->
                   Q (Ret (snd x)) (mkWorld h s)) ->
  wp (minValue this) (mkWorld h s) Q.
Proof.
  intros Hc HE HR. unfold minValue. apply wp_bind, wp_empty; auto.
  destruct (Nat.eqb_spec (size_of (h this)) 0) as [E|E].
  - apply wp_throw, HE, E.
  - destruct (size_of_pos _ Hc E) as (lk & lv & Hh & _ & Hn).
    destruct (nth_error_first lv Hn) as [x Hx].
    apply wp_bind, (wp_ms_deref this ByV 0 lv x); auto; [apply Hh|].
    apply wp_ret. eauto.
Qed.

Lemma wp_minKey this h s Q :
  coherent (h this) ->
  (size_of (h this) = 0 -> Q (Throw PQEmptyEx) (mkWorld h s)) ->
  (forall lk lv x, holds (h this) lk lv -> nth_error lv 0 = Some x ->
                   Q (Ret (fst x)) (mkWorld h s)) ->
  wp (minKey this) (mkWorld h s) Q.
Proof.
  intros Hc HE HR. unfold minKey. apply wp_bind, wp_empty; auto.
  destruct (Nat.eqb_spec (size_of (h this)) 0) as [E|E].
  - apply wp_throw, HE, E.
  - destruct (size_of_pos _ Hc E) as (lk & lv & Hh & _ & Hn).
    destruct (nth_error_first lv Hn) as [x Hx].
    apply wp_bind, (wp_ms_deref this ByV 0 lv x); auto; [apply Hh|].
    apply wp_ret. eauto.
Qed.

Lemma wp_maxValue this h s Q :
  coherent (h this) ->
  (size_of (h this) = 0 -> Q (Throw PQEmptyEx) (mkWorld h s)) ->
  (forall lk lv x, holds (h this) lk lv ->
                   nth_error lv (length lv - 1) = Some x ->
                   Q (Ret (snd x)) (mkWorld h s)) ->
  wp (maxValue this) (mkWorld h s) Q.
Proof.
  intros Hc HE HR. unfold maxValue. apply wp_bind, wp_empty; auto.
  destruct (Nat.eqb_spec (size_of (h this)) 0) as [E|E].
  - apply wp_throw, HE, E.
  - destruct (size_of_pos _ Hc E) as (lk & lv & Hh & _ & Hn).
    destruct (nth_error_last lv Hn) as [x Hx].
    apply wp_bind, (wp_ms_end this ByV lv); [apply Hh|]. cbn beta iota.
    apply wp_bind, (wp_ms_deref this ByV _ lv x); auto; [apply Hh|].
    apply wp_ret. eauto.
Qed.

Lemma wp_maxKey this h s Q :
  coherent (h this) ->
  (size_of (h this) = 0 -> Q (Throw PQEmptyEx) (mkWorld h s)) ->
  (forall lk lv x, holds (h this) lk lv ->
                   nth_error lv (length lv - 1) = Some x ->
                   Q (Ret (fst x)) (mkWorld h s)) ->
  wp (maxKey this) (mkWorld h s) Q.
Proof.
  intros Hc HE HR. unfold maxKey. apply wp_bind, wp_empty; auto.
  destruct (Nat.eqb_spec (size_of (h this)) 0) as [E|E].
  - apply wp_throw, HE, E.
  - destruct (size_of_pos _ Hc E) as (lk & lv & Hh & _ & Hn).
    destruct (nth_error_last lv Hn) as [x Hx].
    apply wp_bind, (wp_ms_end this ByV lv); [apply Hh|]. cbn beta iota.
    apply wp_bind, (wp_ms_deref this ByV _ lv x); auto; [apply Hh|].
    apply wp_ret. eauto.
Qed.

(** ** The two orders on pairs *)

(** Facts about one element type that keeps its contract. *)
Lemma op_lt_asym {T} {E : Elem T} {L : ElemLaws T} (a b : T) :
  op_lt a b = true -> op_lt b a = false.
Proof.
  intros H. destruct (op_lt b a) eqn:E'; auto.
  rewrite <- (op_lt_irrefl a). symmetry. eapply op_lt_trans; eauto.
Qed.

Lemma op_eq_refl {T} {E : Elem T} {L : ElemLaws T} (a : T) : op_eq a a = true.
Proof. now apply op_eq_spec. Qed.

Lemma op_eq_false {T} {E : Elem T} {L : ElemLaws T} (a b : T) :
  op_eq a b = false <-> a <> b.
Proof.
  split.
  - intros H ->. rewrite op_eq_refl in H. discriminate.
  - intros H. destruct (op_eq a b) eqn:E'; auto.
    apply op_eq_spec in E'. contradiction.
Qed.

Section Lex.

Context {A B : Type} {EA : Elem A} {EB : Elem B}.
Context {LA : ElemLaws A} {LB : ElemLaws B}.

Lemma lex_irrefl (a : A * B) : lex a a = false.
Proof. unfold lex. rewrite op_eq_refl. apply op_lt_irrefl. Qed.

Lemma lex_trans (a b c : A * B) :
  lex a b = true -> lex b c = true -> lex a c = true.
Proof.
  destruct a as [a1 a2], b as [b1 b2], c as [c1 c2]. unfold lex. simpl.
  destruct (op_eq a1 b1) eqn:E1, (op_eq b1 c1) eqn:E2; simpl; intros H1 H2.
  - apply op_eq_spec in E1, E2. subst. rewrite op_eq_refl. simpl.
    eapply op_lt_trans; eauto.
  - apply op_eq_spec in E1. subst. rewrite E2. exact H2.
  - apply op_eq_spec in E2. subst. rewrite E1. exact H1.
  - destruct (op_eq a1 c1) eqn:E3; simpl.
    + apply op_eq_spec in E3. subst.
      rewrite (op_lt_asym _ _ H1) in H2. discriminate.
    + eapply op_lt_trans; eauto.
Qed.

Lemma lex_connex (a b : A * B) : lex a b = false -> lex b a = false -> a = b.
Proof.
  destruct a as [a1 a2], b as [b1 b2]. unfold lex. simpl.
  destruct (op_eq a1 b1) eqn:E1.
  - apply op_eq_spec in E1; subst b1. rewrite op_eq_refl. simpl.
    intros H1 H2. f_equal. apply op_lt_connex; auto.
  - destruct (op_eq b1 a1) eqn:E2.
    + apply op_eq_spec in E2; subst b1. rewrite op_eq_refl in E1. discriminate.
    + simpl. intros H1 H2. apply op_eq_false in E1. exfalso. apply E1.
      apply op_lt_connex; auto.
Qed.

End Lex.

Section Ordered.

Context {LK : ElemLaws K} {LV : ElemLaws V}.

Lemma cmp_irrefl ix a : cmp ix a a = false.
Proof.
  destruct ix, a as [k v].
  - exact (lex_irrefl (k, v)).
  - exact (lex_irrefl (v, k)).
Qed.

Lemma cmp_trans ix a b c :
  cmp ix a b = true -> cmp ix b c = true -> cmp ix a c = true.
Proof.
  destruct ix, a as [k1 v1], b as [k2 v2], c as [k3 v3].
  - exact (lex_trans (k1, v1) (k2, v2) (k3, v3)).
  - exact (lex_trans (v1, k1) (v2, k2) (v3, k3)).
Qed.

Lemma cmp_connex ix a b : cmp ix a b = false -> cmp ix b a = false -> a = b.
Proof.
  destruct ix, a as [k1 v1], b as [k2 v2].
  - exact (lex_connex (k1, v1) (k2, v2)).
  - intros H1 H2.
    pose proof (lex_connex (v1, k1) (v2, k2) H1 H2) as E. congruence.
Qed.

Lemma cmp_asym ix a b : cmp ix a b = true -> cmp ix b a = false.
Proof.
  intros H. destruct (cmp ix b a) eqn:E; auto.
  rewrite <- (cmp_irrefl ix a). symmetry. eapply cmp_trans; eauto.
Qed.

(** "Not after" is transitive. *)
Lemma cmp_le_trans ix a b c :
  cmp ix b a = false -> cmp ix c b = false -> cmp ix c a = false.
Proof.
  intros H1 H2. destruct (cmp ix c a) eqn:E; auto.
  destruct (cmp ix a b) eqn:E'.
  - rewrite <- H2. symmetry. eapply cmp_trans; eauto.
  - assert (a = b) by (apply (cmp_connex ix); auto). subst b. congruence.
Qed.

(** [insert] stores the pair it was given: an equivalent pair is equal. *)
Lemma stored_pair_eq key value lk : stored_pair key value lk = (key, value).
Proof.
  unfold stored_pair.
  destruct (Nat.eq_dec (find_of cmp_fst (key, value) lk) (length lk)) as [E|E].
  - now rewrite (find_of_end _ _ _ E).
  - destruct (find_of_nth _ _ _ E) as (y & -> & H1 & H2).
    apply (cmp_connex ByK); auto.
Qed.

(** ** Sequences in order *)

Lemma inserted_cons ix x y l :
  inserted ix x (y :: l) =
  if cmp ix x y then x :: y :: l else y :: inserted ix x l.
Proof. unfold inserted. simpl. destruct (cmp ix x y); reflexivity. Qed.

Lemma sorted_inserted ix x l : sorted ix l -> sorted ix (inserted ix x l).
Proof.
  unfold sorted. induction 1 as [|y l Hs IH Hy].
  - repeat constructor.
  - rewrite inserted_cons. destruct (cmp ix x y) eqn:E.
    + constructor; [constructor; assumption|].
      constructor; [apply cmp_asym, E|].
      eapply Forall_impl; [|exact Hy]. intros z Hz. simpl in *.
      eapply cmp_le_trans; [|exact Hz]. apply cmp_asym, E.
    + constructor; [exact IH|].
      eapply Permutation_Forall; [apply Permutation_inserted|].
      constructor; assumption.
Qed.

Lemma sorted_inserted_all ix xs l : sorted ix l -> sorted ix (inserted_all ix xs l).
Proof.
  revert l. induction xs as [|x xs IH]; intros l H; simpl; auto.
  apply IH, sorted_inserted, H.
Qed.

Lemma In_erase_at i z l : In z (erase_at i l) -> In z l.
Proof.
  unfold erase_at. revert l.
  induction i as [|i IH]; intros [|y l]; simpl; auto.
  intros [H|H]; auto.
Qed.

Lemma sorted_erase_at ix i l : sorted ix l -> sorted ix (erase_at i l).
Proof.
  unfold sorted. intros H. revert i.
  induction H as [|y l Hs IH Hy]; intros [|i].
  - constructor.
  - constructor.
  - exact Hs.
  - change (erase_at (S i) (y :: l)) with (y :: erase_at i l).
    constructor; [apply IH|].
    rewrite Forall_forall in *. intros z Hz. eapply Hy, In_erase_at, Hz.
Qed.

Lemma find_of_skip c x y l :
  c y x = true -> find_of c x (y :: l) = S (find_of c x l).
Proof.
  intros H. unfold find_of. simpl. rewrite H. simpl.
  destruct (nth_error l _) as [z|]; [destruct (c x z)|]; reflexivity.
Qed.

(** [find] designates an element equal to the one looked for, when the
    sequence holds one. *)
Lemma find_of_In ix x l :
  sorted ix l -> In x l -> nth_error l (find_of (cmp ix) x l) = Some x.
Proof.
  unfold sorted. induction 1 as [|y l Hs IH Hy]; intros Hin.
  - destruct Hin.
  - destruct (cmp ix y x) eqn:E.
    + rewrite find_of_skip by exact E. simpl. apply IH.
      destruct Hin as [->|Hin]; auto.
      rewrite cmp_irrefl in E. discriminate.
    + assert (E' : cmp ix x y = false).
      { destruct Hin as [->|Hin]; [exact E|].
        rewrite Forall_forall in Hy. apply Hy, Hin. }
      assert (y = x) by (apply (cmp_connex ix); auto). subst y.
      unfold find_of. simpl. rewrite E. simpl. rewrite E. reflexivity.
Qed.

Lemma find_of_In_lt ix x l :
  sorted ix l -> In x l -> find_of (cmp ix) x l < length l.
Proof.
  intros Hs Hin. apply nth_error_Some. rewrite (find_of_In ix x l Hs Hin).
  discriminate.
Qed.

(** Two sequences in the same order with the same elements are equal. *)
Lemma sorted_unique ix l1 l2 :
  sorted ix l1 -> sorted ix l2 -> Permutation l1 l2 -> l1 = l2.
Proof.
  unfold sorted. intros H1. revert l2.
  induction H1 as [|x l1 Hs1 IH Hx]; intros l2 H2 P.
  - apply Permutation_nil in P. now subst.
  - destruct H2 as [|y l2 Hs2 Hy].
    + apply Permutation_sym, Permutation_nil in P. discriminate.
    + assert (x = y).
      { rewrite Forall_forall in Hx, Hy.
        assert (Hyx : In y (x :: l1))
          by (eapply Permutation_in; [symmetry; exact P|now left]).
        assert (Hxy : In x (y :: l2))
          by (eapply Permutation_in; [exact P|now left]).
        destruct Hyx as [E|Hyx]; auto.
        destruct Hxy as [E|Hxy]; auto.
        apply (cmp_connex ix); auto. }
      subst y. f_equal. apply IH; auto.
      eapply Permutation_cons_inv, P.
Qed.

(** The first element of a sequence in order is not after any other. *)
Lemma sorted_first ix x l y :
  sorted ix (x :: l) -> In y (x :: l) -> cmp ix y x = false.
Proof.
  unfold sorted. intros H Hin. inversion_clear H as [|? ? _ Hx].
  destruct Hin as [<-|Hin]; [apply cmp_irrefl|].
  rewrite Forall_forall in Hx. auto.
Qed.

Lemma sorted_nth_le ix l i j x y :
  sorted ix l -> i <= j -> nth_error l i = Some x -> nth_error l j = Some y ->
  cmp ix y x = false.
Proof.
  unfold sorted. intros H. revert i j.
  induction H as [|z l Hs IH Hz]; intros i j Hij Hi Hj.
  - destruct i; discriminate.
  - destruct i as [|i], j as [|j]; simpl in *; try lia.
    + injection Hi as ->. injection Hj as ->. apply cmp_irrefl.
    + injection Hi as ->. rewrite Forall_forall in Hz.
      eapply Hz, nth_error_In, Hj.
    + apply (IH i j); auto. lia.
Qed.

(** Order by value first: the values themselves are in order. *)
Lemma cmp_snd_value a b : cmp_snd b a = false -> op_lt (snd b) (snd a) = false.
Proof.
  unfold cmp_snd. destruct (op_eq (snd b) (snd a)) eqn:E; simpl; auto.
  apply op_eq_spec in E. rewrite E. intros _. apply op_lt_irrefl.
Qed.

(** Order by key first: among equal keys the values are in order. *)
Lemma cmp_fst_value k v v' : cmp_fst (k, v') (k, v) = false -> op_lt v' v = false.
Proof. unfold cmp_fst. simpl. rewrite op_eq_refl. auto. Qed.

(** ** deleteMin and deleteMax *)

Lemma holds_wf q lk lv :
  holds q lk lv -> wf q -> sorted ByK lk /\ sorted ByV lv /\ Permutation lk lv.
Proof. unfold wf. intros [-> ->]. auto. Qed.

Lemma wf_holds q lk lv :
  holds q lk lv -> sorted ByK lk -> sorted ByV lv -> Permutation lk lv -> wf q.
Proof. unfold wf. intros [-> ->]. auto. Qed.

(** The pair at position [p] of the value index is found in the key
    index, and erasing both leaves the same pairs in the two. *)
Lemma erase_both lk lv x p :
  sorted ByK lk -> Permutation lk lv -> nth_error lv p = Some x ->
  nth_error lk (find_of cmp_fst x lk) = Some x /\
  Permutation (erase_at (find_of cmp_fst x lk) lk) (erase_at p lv).
Proof.
  intros Hs P Hx.
  assert (Hin : In x lk).
  { eapply Permutation_in; [symmetry; exact P|]. eapply nth_error_In, Hx. }
  pose proof (find_of_In ByK x lk Hs Hin) as Hf. split; [exact Hf|].
  apply (Permutation_cons_inv (a := x)).
  rewrite <- (Permutation_erase_at _ _ _ Hf), <- (Permutation_erase_at _ _ _ Hx).
  exact P.
Qed.

Lemma wp_delete_at this p lk lv x h s Q :
  holds (h this) lk lv ->
  sorted ByK lk -> Permutation lk lv ->
  nth_error lv p = Some x ->
  (forall h' s',
      outlook s' = outlook s ->
      holds (h' this) (erase_at (find_of cmp_fst x lk) lk) (erase_at p lv) ->
      only this h h' ->
      Q (Ret tt) (mkWorld h' s')) ->
  (forall e s', raised s e -> Q (Throw e) (mkWorld h s')) ->
  wp (x <- ms_deref this ByV p ;;
      to_delete2 <- ms_find this ByK x ;;
      ms_erase this ByV p ;;
      ms_erase this ByK to_delete2) (mkWorld h s) Q.
Proof.
  intros [HK HV] Hs P Hx HR HT.
  destruct (erase_both lk lv x p Hs P Hx) as [Hf _].
  pose proof (only_refl this h) as Hfr.
  destruct (h this) as [pk pv ik iv] eqn:Hthis. cbn in HK, HV. subst pk pv.
  apply wp_bind, (wp_ms_deref this ByV p lv x); auto;
    [at_this Hthis; reflexivity|]. cbn beta iota.
  apply wp_bind, (wp_ms_find this ByK x lk); [at_this Hthis; reflexivity| |].
  2:{ intros e s' R. apply HT, R. }
  intros s' Hs'. cbn beta iota.
  apply wp_bind, (wp_ms_erase this ByV p lv); [at_this Hthis; reflexivity | |].
  { apply nth_error_Some. congruence. }
  new_heap Hthis Hfr. cbn beta iota.
  apply (wp_ms_erase this ByK _ lk); [at_this Hthis; reflexivity | |].
  { apply nth_error_Some. change (cmp ByK) with cmp_fst. congruence. }
  new_heap Hthis Hfr.
  apply HR; auto. split; at_this Hthis; reflexivity.
Qed.

Lemma wp_deleteMin this h s Q :
  wf (h this) ->
  (size_of (h this) = 0 -> Q (Ret tt) (mkWorld h s)) ->
  (forall lk lv x h' s',
      holds (h this) lk lv -> nth_error lv 0 = Some x ->
      outlook s' = outlook s ->
      holds (h' this) (erase_at (find_of cmp_fst x lk) lk) (erase_at 0 lv) ->
      only this h h' ->
      Q (Ret tt) (mkWorld h' s')) ->
  (forall e s', raised s e -> Q (Throw e) (mkWorld h s')) ->
  wp (deleteMin this) (mkWorld h s) Q.
Proof.
  intros Hwf HE HR HT. pose proof (wf_coherent _ Hwf) as Hc.
  unfold deleteMin. apply wp_bind, wp_empty; auto.
  destruct (Nat.eqb_spec (size_of (h this)) 0) as [E|E].
  - apply wp_ret, HE, E.
  - destruct (size_of_pos _ Hc E) as (lk & lv & Hh & _ & Hn).
    destruct (nth_error_first lv Hn) as [x Hx].
    destruct (holds_wf _ _ _ Hh Hwf) as (Hs & _ & P).
    apply (wp_delete_at this 0 lk lv x); eauto.
Qed.

Lemma wp_deleteMax this h s Q :
  wf (h this) ->
  (size_of (h this) = 0 -> Q (Ret tt) (mkWorld h s)) ->
  (forall lk lv x h' s',
      holds (h this) lk lv -> nth_error lv (length lv - 1) = Some x ->
      outlook s' = outlook s ->
      holds (h' this) (erase_at (find_of cmp_fst x lk) lk)
                      (erase_at (length lv - 1) lv) ->
      only this h h' ->
      Q (Ret tt) (mkWorld h' s')) ->
  (forall e s', raised s e -> Q (Throw e) (mkWorld h s')) ->
  wp (deleteMax this) (mkWorld h s) Q.
Proof.
  intros Hwf HE HR HT. pose proof (wf_coherent _ Hwf) as Hc.
  unfold deleteMax. apply wp_bind, wp_empty; auto.
  destruct (Nat.eqb_spec (size_of (h this)) 0) as [E|E].
  - apply wp_ret, HE, E.
  - destruct (size_of_pos _ Hc E) as (lk & lv & Hh & _ & Hn).
    destruct (nth_error_last lv Hn) as [x Hx].
    destruct (holds_wf _ _ _ Hh Hwf) as (Hs & _ & P).
    apply wp_bind, (wp_ms_end this ByV lv); [apply Hh|]. cbn beta iota.
    apply (wp_delete_at this (length lv - 1) lk lv x); eauto.
Qed.

(** ** changeValue *)

(** What the lower bound of [(key, m)] designates in the key index, when
    [m] is not above any value of the queue: the first pair whose key is
    not below [key].  If that pair has the key [key], it bears the least
    value among the pairs with this key; if not, no pair has this key. *)
Lemma lower_bound_key key m lk :
  sorted ByK lk ->
  (forall e, In e lk -> op_lt (snd e) m = false) ->
  match nth_error lk (lower_bound_of cmp_fst (key, m) lk) with
  | Some y =>
      if op_eq (fst y) key
      then forall v', In (key, v') lk -> op_lt v' (snd y) = false
      else forall v', ~ In (key, v') lk
  | None => forall v', ~ In (key, v') lk
  end.
Proof.
  unfold sorted. induction 1 as [|z l Hs IH Hz]; intros Hm.
  - simpl. auto.
  - assert (Hm' : forall e, In e l -> op_lt (snd e) m = false)
      by (intros e He; apply Hm; now right).
    specialize (IH Hm'). simpl.
    destruct (cmp_fst z (key, m)) eqn:E.
    + assert (Hzk : forall v', z <> (key, v')).
      { intros v' ->. unfold cmp_fst in E. simpl in E.
        rewrite op_eq_refl in E. simpl in E.
        pose proof (Hm (key, v') (or_introl eq_refl)) as Hb. simpl in Hb.
        congruence. }
      simpl. destruct (nth_error l _) as [y|].
      * destruct (op_eq (fst y) key).
        -- intros v' [Hv|Hv]; [now apply Hzk in Hv|auto].
        -- intros v' [Hv|Hv]; [now apply Hzk in Hv|now apply IH in Hv].
      * intros v' [Hv|Hv]; [now apply Hzk in Hv|now apply IH in Hv].
    + simpl. destruct (op_eq (fst z) key) eqn:Ek.
      * apply op_eq_spec in Ek. intros v' Hv.
        apply (cmp_fst_value key). rewrite <- Ek at 2. rewrite <- surjective_pairing.
        apply (sorted_first ByK z l); [constructor; assumption|exact Hv].
      * intros v' Hv. unfold cmp_fst in E. simpl in E. rewrite Ek in E. simpl in E.
        assert (E' : cmp_fst (key, v') z = false)
          by (apply (sorted_first ByK z l); [constructor; assumption|exact Hv]).
        unfold cmp_fst in E'. simpl in E'.
        destruct (op_eq key (fst z)) eqn:Ek'.
        -- apply op_eq_spec in Ek'. rewrite Ek', op_eq_refl in Ek. discriminate.
        -- simpl in E'. apply op_eq_false in Ek. apply Ek.
           apply op_lt_connex; auto.
Qed.

(** The least value of a queue is not above any of its values. *)
Lemma min_value_bound lk lv x :
  sorted ByV lv -> Permutation lk lv -> nth_error lv 0 = Some x ->
  forall e, In e lk -> op_lt (snd e) (snd x) = false.
Proof.
  intros Hs P Hx e He. destruct lv as [|x' lv]; [discriminate|].
  injection Hx as ->. apply cmp_snd_value.
  apply (sorted_first ByV x lv); auto.
  eapply Permutation_in; eauto.
Qed.

(** The handler of [changeValue]: erasing through the kept iterators
    undoes the insertion. *)
Lemma wp_rollback {A} this e x lk lv h s (Q : outcome A -> World -> Prop) :
  h this = mkPQ (Some (inserted ByK x lk)) (Some (inserted ByV x lv))
                (Some (upper_bound_of cmp_fst x lk))
                (Some (upper_bound_of cmp_snd x lv)) ->
  (forall h', holds (h' this) lk lv -> only this h h' ->
              Q (Throw e) (mkWorld h' s)) ->
  wp (iK <- get_it this ByK ;;
      ms_erase this ByK iK ;;
      iV <- get_it this ByV ;;
      ms_erase this ByV iV ;;
      throw e) (mkWorld h s) Q.
Proof.
  intros Hthis HQ. pose proof (only_refl this h) as Hfr.
  apply wp_bind. eapply wp_get_it; [at_this Hthis; reflexivity|]. cbn beta iota.
  apply wp_bind. eapply wp_ms_erase; [at_this Hthis; reflexivity | |].
  { rewrite length_inserted. pose proof (upper_bound_of_le cmp_fst x lk). lia. }
  new_heap Hthis Hfr. cbn beta iota.
  apply wp_bind. eapply wp_get_it; [at_this Hthis; reflexivity|]. cbn beta iota.
  apply wp_bind. eapply wp_ms_erase; [at_this Hthis; reflexivity | |].
  { rewrite length_inserted. pose proof (upper_bound_of_le cmp_snd x lv). lia. }
  new_heap Hthis Hfr. cbn beta iota.
  apply wp_throw, HQ; auto.
  unfold inserted in Hthis.
  rewrite !erase_insert_at in Hthis by apply upper_bound_of_le.
  split; at_this Hthis; reflexivity.
Qed.

Lemma In_inserted ix x y l : In y l -> In y (inserted ix x l).
Proof.
  intros H. eapply Permutation_in; [apply Permutation_inserted|]. now right.
Qed.

Lemma wp_changeValue this key value h s Q :
  wf (h this) ->
  (forall s', outlook s' = outlook s -> size_of (h this) = 0 ->
              Q (Throw PQEmptyEx) (mkWorld h s')) ->
  (forall lk lv s',
      outlook s' = outlook s -> holds (h this) lk lv -> lk <> [] ->
      (forall v, ~ In (key, v) lk) ->
      Q (Throw PQNotFoundEx) (mkWorld h s')) ->
  (forall lk lv old h' s',
      outlook s' = outlook s -> holds (h this) lk lv ->
      In (key, old) lk ->
      (forall v', In (key, v') lk -> op_lt v' old = false) ->
      holds (h' this) (changed ByK (key, old) (key, value) lk)
                      (changed ByV (key, old) (key, value) lv) ->
      only this h h' ->
      Q (Ret tt) (mkWorld h' s')) ->
  (forall e h' s', raised s e -> unchanged h h' -> Q (Throw e) (mkWorld h' s')) ->
  wp (changeValue this key value) (mkWorld h s) Q.
Proof.
  intros Hwf HE HA HR HT. pose proof (wf_coherent _ Hwf) as Hc.
  pose proof (eq_refl (outlook s)) as Hs.
  unfold changeValue.
  apply wp_bind, (wp_reads _ _ _ _ _ (reads_make_shared key)).
  2:{ thrown Hs. apply HT; auto using unchanged_refl. }
  new_sched Hs. cbn beta iota.
  apply wp_bind, wp_minValue; [exact Hc | intros E; apply HE; auto |].
  intros lk lv x0 Hh Hx0. cbn beta iota.
  destruct (holds_wf _ _ _ Hh Hwf) as (Hsk & Hsv & P).
  pose proof Hh as [HK HV].
  apply wp_bind, (wp_reads _ _ _ _ _ (reads_make_shared (snd x0))).
  2:{ thrown Hs. apply HT; auto using unchanged_refl. }
  new_sched Hs. cbn beta iota.
  apply wp_bind, (wp_ms_lower_bound this ByK (key, snd x0) lk); [exact HK | |].
  2:{ thrown Hs. apply HT; auto using unchanged_refl. }
  new_sched Hs. cbn beta iota.
  apply wp_bind, (wp_ms_end this ByK lk); [exact HK|]. cbn beta iota.
  change (cmp ByK) with cmp_fst.
  pose proof (lower_bound_key key (snd x0) lk Hsk
                (min_value_bound lk lv x0 Hsv P Hx0)) as Hlb.
  pose proof (lower_bound_of_le cmp_fst (key, snd x0) lk) as Hle.
  assert (Hne : lk <> []).
  { intros ->. apply Permutation_nil in P. subst lv. discriminate. }
  set (p := lower_bound_of cmp_fst (key, snd x0) lk) in *.
  apply wp_bind.
  destruct (Nat.eqb_spec p (length lk)) as [Ep|Ep].
  { assert (En : nth_error lk p = None) by (apply nth_error_None; lia).
    rewrite En in Hlb. apply wp_ret. cbn beta iota.
    apply wp_throw. eapply HA; eauto. }
  destruct (nth_error lk p) as [y|] eqn:Ey;
    [|apply nth_error_None in Ey; lia].
  apply wp_bind, (wp_ms_deref this ByK p lk y); auto. cbn beta iota.
  apply wp_bind, (wp_reads _ _ _ _ _ (reads_eq_op (fst y) key)).
  2:{ thrown Hs. apply HT; auto using unchanged_refl. }
  new_sched Hs. cbn beta iota. apply wp_ret. cbn beta iota.
  destruct (op_eq (fst y) key) eqn:Ek; cbn [negb].
  2:{ apply wp_throw. eapply HA; eauto. }
  apply op_eq_spec in Ek. destruct y as [yk old]. simpl in Ek, Hlb. subst yk.
  assert (Hin : In (key, old) lk) by (eapply nth_error_In, Ey).
  apply wp_bind, (wp_ms_deref this ByK p lk (key, old)); auto. cbn beta iota.
  apply wp_bind, (wp_insert this key value lk lv); auto.
  2:{ intros e h' s' R U. apply HT; auto. eapply raised_outlook; eauto. }
  rewrite stored_pair_eq.
  intros h1 sI E3 [HK1 HV1] HiK HiV Hfr. rewrite Hs in E3. clear Hs.
  rename E3 into Hs. cbn beta iota.
  destruct (h1 this) as [pk pv ik iv] eqn:Hthis.
  cbn in HK1, HV1, HiK, HiV. subst pk pv ik iv.
  assert (HinK : In (key, old) (inserted ByK (key, value) lk))
    by (apply In_inserted, Hin).
  assert (HinV : In (key, old) (inserted ByV (key, value) lv)).
  { apply In_inserted. eapply Permutation_in; eauto. }
  pose proof (find_of_In_lt ByK _ _ (sorted_inserted ByK (key, value) lk Hsk) HinK).
  pose proof (find_of_In_lt ByV _ _ (sorted_inserted ByV (key, value) lv Hsv) HinV).
  assert (Hback : forall e h' s',
             raised s e -> holds (h' this) lk lv -> only this h1 h' ->
             Q (Throw e) (mkWorld h' s')).
  { intros e h' s' R [HK' HV'] F. apply HT; auto.
    apply (unchanged_of_only this).
    - eapply only_trans; eauto.
    - unfold observable. congruence. }
  apply wp_bind, wp_try, wp_bind.
  apply (wp_ms_find this ByK (key, old) (inserted ByK (key, value) lk));
    [at_this Hthis; reflexivity | |].
  2:{ thrown Hs. cbn beta iota.
      apply (wp_rollback this e (key, value) lk lv); auto. }
  new_sched Hs. cbn beta iota. apply wp_bind.
  apply (wp_ms_find this ByV (key, old) (inserted ByV (key, value) lv));
    [at_this Hthis; reflexivity | |].
  2:{ thrown Hs. cbn beta iota.
      apply (wp_rollback this e (key, value) lk lv); auto. }
  new_sched Hs. cbn beta iota. apply wp_ret. cbn beta iota.
  cbn [fst snd].
  apply wp_bind. eapply wp_ms_erase; [at_this Hthis; reflexivity | assumption |].
  new_heap Hthis Hfr. cbn beta iota.
  eapply wp_ms_erase; [at_this Hthis; reflexivity | assumption |].
  new_heap Hthis Hfr.
  apply (HR lk lv old); auto.
  split; at_this Hthis; reflexivity.
Qed.

(** ** Copies, swap, clear and merge *)

Lemma wp_copy_ctor queue lk lv h s Q :
  holds (h queue) lk lv ->
  (forall s', outlook s' = outlook s ->
              Q (Ret (mkPQ (Some lk) (Some lv) None None)) (mkWorld h s')) ->
  (forall e s', raised s e -> Q (Throw e) (mkWorld h s')) ->
  wp (copy_ctor queue) (mkWorld h s) Q.
Proof.
  intros [HK HV] HR HT. unfold copy_ctor.
  pose proof (eq_refl (outlook s)) as Hs.
  apply wp_bind, (wp_load queue ByK lk); auto. cbn beta iota.
  apply wp_bind, (wp_reads _ _ _ _ _ (reads_ms_copy lk)).
  2:{ thrown Hs. apply HT; auto. }
  new_sched Hs. cbn beta iota.
  apply wp_bind, (wp_load queue ByV lv); auto. cbn beta iota.
  apply wp_bind, (wp_reads _ _ _ _ _ (reads_ms_copy lv)).
  2:{ thrown Hs. apply HT; auto. }
  new_sched Hs. cbn beta iota. apply wp_ret, HR, Hs.
Qed.

Lemma wp_swap_local this tmp h s Q :
  (forall h',
      h' this = mkPQ (pairs_by_K tmp) (pairs_by_V tmp)
                     (inserted_K (h this)) (inserted_V (h this)) ->
      only this h h' ->
      Q (Ret (mkPQ (pairs_by_K (h this)) (pairs_by_V (h this))
                   (inserted_K tmp) (inserted_V tmp))) (mkWorld h' s)) ->
  wp (swap_local this tmp) (mkWorld h s) Q.
Proof.
  intros HQ. unfold swap_local.
  apply wp_noexcept, wp_bind, wp_get. cbn beta iota.
  apply wp_bind, wp_put. intros h' H F. cbn beta iota.
  apply wp_ret. apply HQ; auto.
Qed.

(** An allocation throws nothing but the allocator's exception. *)
Lemma wp_tick_alloc h s Q :
  (forall s', outlook s' = outlook s -> Q (Ret tt) (mkWorld h s')) ->
  (forall n s', snd (outlook s) = Some n ->
                Q (Throw (Fault Alloc n)) (mkWorld h s')) ->
  wp (tick Alloc) (mkWorld h s) Q.
Proof.
  intros HR HT. unfold wp, tick. destruct s as [fk fa]. simpl.
  destruct fa as [|[n|] fa]; simpl.
  - apply HR. reflexivity.
  - apply HT. reflexivity.
  - apply HR. reflexivity.
Qed.

Lemma wp_default_ctor h s Q :
  (forall s', outlook s' = outlook s ->
              Q (Ret (mkPQ (Some []) (Some []) None None)) (mkWorld h s')) ->
  (forall n s', snd (outlook s) = Some n ->
                Q (Throw (Fault Alloc n)) (mkWorld h s')) ->
  wp default_ctor (mkWorld h s) Q.
Proof.
  intros HR HT. unfold default_ctor, ms_new.
  apply wp_bind, wp_bind, wp_tick_alloc; [|exact HT].
  intros s1 E1. apply wp_ret. cbn beta iota.
  apply wp_bind, wp_bind, wp_tick_alloc.
  - intros s2 E2. apply wp_ret. cbn beta iota. apply wp_ret, HR. congruence.
  - intros n s2 E2. apply HT. congruence.
Qed.

(** [clear] empties the queue, or terminates the program when the
    allocation of its temporary fails. *)
Lemma wp_clear this h s Q :
  (forall h' s', outlook s' = outlook s -> holds (h' this) [] [] ->
                 only this h h' -> Q (Ret tt) (mkWorld h' s')) ->
  (forall n s', snd (outlook s) = Some n ->
                Q (Abort Terminated) (mkWorld h s')) ->
  wp (clear this) (mkWorld h s) Q.
Proof.
  intros HR HT. unfold clear.
  apply wp_noexcept, wp_bind, wp_default_ctor.
  - intros s' E. apply wp_bind, wp_swap_local. intros h' H F.
    apply wp_ret, HR; auto. rewrite H. split; reflexivity.
  - intros n s' E. eapply HT, E.
Qed.

Lemma set_member_same ix l q : member ix q = Some l -> set_member ix (Some l) q = q.
Proof. destruct ix, q; simpl; intros ->; reflexivity. Qed.

Lemma set_member_twice ix p p' q :
  set_member ix p (set_member ix p' q) = set_member ix p q.
Proof. destruct ix; reflexivity. Qed.

Lemma member_set_member ix p q : member ix (set_member ix p q) = p.
Proof. destruct ix; reflexivity. Qed.

(** A range insertion that fails leaves the elements inserted so far. *)
Lemma wp_ms_insert_range this ix xs l h s Q :
  member ix (h this) = Some l ->
  (forall h' s',
      outlook s' = outlook s ->
      h' this = set_member ix (Some (inserted_all ix xs l)) (h this) ->
      only this h h' ->
      Q (Ret tt) (mkWorld h' s')) ->
  (forall e l' h' s',
      raised s e ->
      h' this = set_member ix (Some l') (h this) ->
      only this h h' ->
      Q (Throw e) (mkWorld h' s')) ->
  wp (ms_insert_range this ix xs) (mkWorld h s) Q.
Proof.
  revert l h s. induction xs as [|x xs IH]; intros l h s Hm HR HT; simpl.
  - apply wp_ret, HR; auto using only_refl.
    symmetry. apply set_member_same, Hm.
  - apply wp_bind, (wp_ms_insert this ix x l); auto.
    + intros h1 s1 E1 H1 F1. cbn beta iota.
      apply (IH (inserted ix x l)).
      * rewrite H1. apply member_set_member.
      * intros h2 s2 E2 H2 F2. apply HR.
        -- congruence.
        -- rewrite H2, H1. apply set_member_twice.
        -- eapply only_trans; eauto.
      * intros e l' h2 s2 R H2 F2. apply (HT e l').
        -- eapply raised_outlook; eauto.
        -- rewrite H2, H1. apply set_member_twice.
        -- eapply only_trans; eauto.
    + intros e s1 R. apply (HT e l); auto using only_refl.
      symmetry. apply set_member_same, Hm.
Qed.

Lemma wp_merge_self this w Q : Q (Ret tt) w -> wp (merge this this) w Q.
Proof. intros HQ. unfold merge. rewrite Nat.eqb_refl. apply wp_ret, HQ. Qed.

Lemma wp_merge this queue lk lv lk' lv' h s Q :
  this <> queue ->
  holds (h this) lk lv ->
  holds (h queue) lk' lv' ->
  (forall h' s',
      outlook s' = outlook s ->
      holds (h' this) (inserted_all ByK lk' lk) (inserted_all ByV lv' lv) ->
      holds (h' queue) [] [] ->
      (forall a, a <> this -> a <> queue -> h' a = h a) ->
      Q (Ret tt) (mkWorld h' s')) ->
  (forall e h' s', raised s e -> unchanged h h' -> Q (Throw e) (mkWorld h' s')) ->
  (forall n h' s', snd (outlook s) = Some n ->
                   Q (Abort Terminated) (mkWorld h' s')) ->
  wp (merge this queue) (mkWorld h s) Q.
Proof.
  intros Hne Hh [HK' HV'] HR HT HX. unfold merge.
  apply Nat.eqb_neq in Hne. rewrite Hne. cbn [negb]. apply Nat.eqb_neq in Hne.
  assert (Hne' : queue <> this) by congruence.
  pose proof (eq_refl (outlook s)) as Hs.
  pose proof (only_refl this h) as Hfr.
  apply wp_bind, (wp_copy_ctor this lk lv); auto.
  2:{ thrown Hs. apply HT; auto using unchanged_refl. }
  new_sched Hs. cbn beta iota.
  destruct Hh as [HK HV].
  destruct (h this) as [pk pv ik iv] eqn:Hinit. cbn in HK, HV. subst pk pv.
  pose proof Hinit as Hthis.
  assert (Hback : forall e l1 l2 h1 s',
             raised s e ->
             h1 this = mkPQ (Some l1) (Some l2) ik iv -> only this h h1 ->
             wp (swap_local this (mkPQ (Some lk) (Some lv) None None) ;; throw e)
                (mkWorld h1 s') Q).
  { intros e l1 l2 h1 s' R H1 F1.
    apply wp_bind, wp_swap_local. intros hB H2 F2. cbn beta iota.
    apply wp_throw, HT; auto. apply (unchanged_of_only this).
    - eapply only_trans; eauto.
    - rewrite H2, Hinit. reflexivity. }
  apply wp_bind, wp_try, wp_bind.
  apply (wp_load queue ByK lk'); [exact HK'|]. cbn beta iota.
  apply wp_bind, (wp_ms_insert_range this ByK lk' lk);
    [at_this Hthis; reflexivity | |].
  2:{ intros e l' h1 s' R H1 F1. cbn beta iota.
      apply (raised_outlook _ _ _ Hs) in R.
      rewrite Hinit in H1. apply (Hback e l' lv); auto. }
  new_world Hthis Hfr Hs. cbn beta iota.
  apply wp_bind, (wp_load queue ByV lv');
    [rewrite (Hfr queue Hne'); exact HV'|]. cbn beta iota.
  apply (wp_ms_insert_range this ByV lv' lv);
    [at_this Hthis; reflexivity | |].
  2:{ intros e l' h1 s' R H1 F1. cbn beta iota.
      apply (raised_outlook _ _ _ Hs) in R.
      rewrite Hthis in H1. apply (Hback e (inserted_all ByK lk' lk) l'); auto.
      eapply only_trans; eauto. }
  new_world Hthis Hfr Hs. cbn beta iota.
  apply wp_clear.
  - intros h2 sC E2 H2 F2. apply HR.
    + congruence.
    + rewrite (F2 this Hne). split; at_this Hthis; reflexivity.
    + exact H2.
    + intros a Ha Ha'. rewrite (F2 a Ha'). apply Hfr, Ha.
  - intros n sC E2. apply (HX n). rewrite <- Hs. exact E2.
Qed.

(** ** Comparison operators *)

Lemma reads_eq_loop l1 l2 :
  length l1 = length l2 -> reads (eq_loop l1 l2) (eqb_seq l1 l2).
Proof.
  revert l2. induction l1 as [|x l1 IH]; intros [|y l2] H; simpl in *;
    try discriminate; try apply reads_ret.
  eapply reads_bind; [apply reads_eq_op|].
  destruct (op_eq (fst x) (fst y)); simpl.
  - eapply reads_bind; [apply reads_eq_op|].
    destruct (op_eq (snd x) (snd y)); simpl; [apply IH; lia|apply reads_ret].
  - eapply reads_bind; apply reads_ret.
Qed.

Lemma reads_lt_loop l1 l2 : reads (lt_loop l1 l2) (ltb_seq l1 l2).
Proof.
  revert l2. induction l1 as [|x l1 IH]; intros [|y l2]; simpl;
    try apply reads_ret.
  eapply reads_bind; [apply reads_eq_op|].
  destruct (op_eq (fst x) (fst y)); simpl; [|apply reads_lt_op].
  eapply reads_bind; [apply reads_eq_op|].
  destruct (op_eq (snd x) (snd y)); simpl; [apply IH|apply reads_lt_op].
Qed.

Lemma holds_keys q lk lv : holds q lk lv -> keys q = lk.
Proof. unfold keys. now intros [-> _]. Qed.

Lemma wp_operator_eq lhs rhs h s Q :
  coherent (h lhs) -> coherent (h rhs) ->
  (forall s', outlook s' = outlook s ->
              Q (Ret (eq_result (h lhs) (h rhs))) (mkWorld h s')) ->
  (forall e s', raised s e -> Q (Throw e) (mkWorld h s')) ->
  wp (operator_eq lhs rhs) (mkWorld h s) Q.
Proof.
  intros Hc1 Hc2 HR HT. unfold operator_eq.
  apply wp_bind, wp_size; auto. cbn beta iota.
  apply wp_bind, wp_size; auto. cbn beta iota.
  unfold eq_result in HR.
  destruct (size_of (h lhs) =? size_of (h rhs)) eqn:E.
  2:{ apply wp_ret, HR. reflexivity. }
  apply wp_bind, wp_size; auto. cbn beta iota.
  destruct (size_of (h lhs) =? 0) eqn:E0.
  { apply wp_ret, HR. reflexivity. }
  apply Nat.eqb_eq in E. apply Nat.eqb_neq in E0.
  destruct (size_of_pos _ Hc1 E0) as (lk1 & lv1 & Hh1 & _ & _).
  assert (E0' : size_of (h rhs) <> 0) by congruence.
  destruct (size_of_pos _ Hc2 E0') as (lk2 & lv2 & Hh2 & _ & _).
  rewrite (holds_keys _ _ _ Hh1), (holds_keys _ _ _ Hh2) in HR.
  rewrite (holds_size_of _ _ _ Hh1), (holds_size_of _ _ _ Hh2) in E.
  apply wp_bind, (wp_load lhs ByK lk1); [apply Hh1|]. cbn beta iota.
  apply wp_bind, (wp_load rhs ByK lk2); [apply Hh2|]. cbn beta iota.
  apply (reads_eq_loop lk1 lk2 E); auto.
Qed.

Lemma wp_operator_lt lhs rhs h s Q :
  coherent (h lhs) -> coherent (h rhs) ->
  (forall s', outlook s' = outlook s ->
              Q (Ret (lt_result (h lhs) (h rhs))) (mkWorld h s')) ->
  (forall e s', raised s e -> Q (Throw e) (mkWorld h s')) ->
  wp (operator_lt lhs rhs) (mkWorld h s) Q.
Proof.
  intros Hc1 Hc2 HR HT. unfold operator_lt.
  unfold lt_result in HR.
  apply wp_bind, wp_size; auto. cbn beta iota.
  apply wp_bind.
  destruct (size_of (h lhs) =? 0) eqn:E1; cbn [andb orb] in HR.
  - apply wp_bind, wp_size; auto. cbn beta iota. apply wp_ret. cbn beta iota.
    destruct (size_of (h rhs) =? 0) eqn:E2.
    + apply wp_ret, HR. reflexivity.
    + apply wp_bind, wp_size; auto. cbn beta iota. rewrite E1.
      apply wp_bind, wp_ret. cbn beta iota.
      apply wp_bind, wp_size; auto. cbn beta iota. rewrite E1.
      apply wp_ret, HR. reflexivity.
  - apply wp_ret. cbn beta iota.
    apply wp_bind, wp_size; auto. cbn beta iota. rewrite E1.
    apply wp_bind, wp_bind, wp_size; auto. cbn beta iota.
    apply wp_ret. cbn beta iota.
    destruct (size_of (h rhs) =? 0) eqn:E2.
    + apply wp_bind, wp_size; auto. cbn beta iota.
      rewrite E1. apply wp_ret, HR. reflexivity.
    + apply Nat.eqb_neq in E1, E2.
      destruct (size_of_pos _ Hc1 E1) as (lk1 & lv1 & Hh1 & _ & _).
      destruct (size_of_pos _ Hc2 E2) as (lk2 & lv2 & Hh2 & _ & _).
      rewrite (holds_keys _ _ _ Hh1), (holds_keys _ _ _ Hh2) in HR.
      rewrite (holds_size_of _ _ _ Hh1) in E1.
      rewrite (holds_size_of _ _ _ Hh2) in E2.
      apply wp_bind, (wp_load lhs ByK lk1); [apply Hh1|]. cbn beta iota.
      apply wp_bind, (wp_load rhs ByK lk2); [apply Hh2|]. cbn beta iota.
      destruct lk1 as [|x1 lk1]; [simpl in E1; congruence|].
      destruct lk2 as [|x2 lk2]; [simpl in E2; congruence|].
      apply (reads_lt_loop (x1 :: lk1) (x2 :: lk2)); auto.
Qed.

(** ** Runs and judgements *)

Lemma run_of_wp {A} (m : M A) w r w0 :
  wp m w (fun r' w' => r' = r /\ w' = w0) -> m w = (r, w0).
Proof.
  unfold wp. destruct (m w) as [r' w']. simpl. now intros [-> ->].
Qed.

Lemma size_run this w :
  coherent (heap w this) -> size this w = (Ret (size_of (heap w this)), w).
Proof.
  destruct w as [h s]. intros Hc. apply run_of_wp, wp_size; auto.
Qed.

Lemma empty_run this w :
  coherent (heap w this) ->
  empty this w = (Ret (size_of (heap w this) =? 0), w).
Proof.
  destruct w as [h s]. intros Hc. apply run_of_wp, wp_empty; auto.
Qed.

(** The last element of a sequence in order is not before any other. *)
Lemma sorted_last ix l x y :
  sorted ix l -> nth_error l (length l - 1) = Some x -> In y l ->
  cmp ix x y = false.
Proof.
  intros Hs Hx Hy. apply In_nth_error in Hy. destruct Hy as [j Hj].
  assert (j < length l) by (apply nth_error_Some; congruence).
  eapply (sorted_nth_le ix l j (length l - 1)); eauto. lia.
Qed.

(** C7: each of minValue, maxValue, minKey and maxKey throws PQEmptyEx
    exactly on a queue without pairs (its indexes are empty, or it has
    none), where [empty()] returns true.  On a queue with pairs
    [empty()] returns false and they return the value or key of the
    first (min) or last (max) pair of the value index: no value of the
    queue is below minValue() or above maxValue().  They leave the world
    as it is.  Every queue that satisfies the invariant is in one of the
    two cases. *)
Theorem accessors_first_last this (w : World) :
  wf (heap w this) ->
  (holds (heap w this) [] [] \/ observable (heap w this) = (None, None) ->
     empty this w = (Ret true, w) /\
     minValue this w = (Throw PQEmptyEx, w) /\
     maxValue this w = (Throw PQEmptyEx, w) /\
     minKey this w = (Throw PQEmptyEx, w) /\
     maxKey this w = (Throw PQEmptyEx, w)) /\
  (forall lk lv,
     holds (heap w this) lk lv -> lv <> [] ->
     exists first last,
       nth_error lv 0 = Some first /\
       nth_error lv (length lv - 1) = Some last /\
       empty this w = (Ret false, w) /\
       minValue this w = (Ret (snd first), w) /\
       maxValue this w = (Ret (snd last), w) /\
       minKey this w = (Ret (fst first), w) /\
       maxKey this w = (Ret (fst last), w) /\
       forall e, In e lv ->
                 op_lt (snd e) (snd first) = false /\
                 op_lt (snd last) (snd e) = false) /\
  ((holds (heap w this) [] [] \/ observable (heap w this) = (None, None)) \/
   exists lk lv, holds (heap w this) lk lv /\ lv <> []).
Proof.
  intros Hwf. pose proof (wf_coherent _ Hwf) as Hc.
  destruct w as [h s]. cbn [heap] in *. split; [|split].
  - intros Hno.
    assert (E : size_of (h this) = 0).
    { destruct Hno as [Hh|Ho]; [exact (holds_size_of _ _ _ Hh)|].
      unfold observable in Ho. unfold size_of.
      injection Ho as HK _. rewrite HK. reflexivity. }
    assert (Hnone : forall lk lv (x : key_value_pair),
               holds (h this) lk lv -> nth_error lv 0 = Some x \/
                 nth_error lv (length lv - 1) = Some x -> False).
    { intros lk lv x Hh Hx. rewrite (holds_size_of _ _ _ Hh) in E.
      pose proof (holds_coherent _ _ _ Hh Hc).
      destruct lv; [destruct Hx; discriminate | simpl in *; lia]. }
    split; [|split; [|split; [|split]]]; apply run_of_wp.
    + apply wp_empty; auto. cbn [heap]. rewrite E. split; reflexivity.
    + apply wp_minValue; auto. intros lk lv x Hh Hx. exfalso. eauto.
    + apply wp_maxValue; auto. intros lk lv x Hh Hx. exfalso. eauto.
    + apply wp_minKey; auto. intros lk lv x Hh Hx. exfalso. eauto.
    + apply wp_maxKey; auto. intros lk lv x Hh Hx. exfalso. eauto.
  - intros lk lv Hh Hne.
    assert (Hn : length lv <> 0) by (destruct lv; [congruence|discriminate]).
    assert (E : size_of (h this) <> 0).
    { rewrite (holds_size_of _ _ _ Hh), (holds_coherent _ _ _ Hh Hc). exact Hn. }
    destruct (nth_error_first lv Hn) as [first Hf].
    destruct (nth_error_last lv Hn) as [last Hl].
    destruct (holds_wf _ _ _ Hh Hwf) as (_ & Hsv & _).
    assert (Huniq : forall lk' lv', holds (h this) lk' lv' -> lv' = lv).
    { intros lk' lv' [_ H']. destruct Hh as [_ H]. congruence. }
    exists first, last.
    split; [exact Hf|]. split; [exact Hl|].
    split; [|split; [|split; [|split; [|split]]]].
    + apply run_of_wp, wp_empty; auto. cbn [heap].
      apply Nat.eqb_neq in E. rewrite E. split; reflexivity.
    + apply run_of_wp, wp_minValue; auto; [contradiction|].
      intros lk' lv' x Hh' Hx. apply Huniq in Hh'. subst lv'.
      split; [congruence | reflexivity].
    + apply run_of_wp, wp_maxValue; auto; [contradiction|].
      intros lk' lv' x Hh' Hx. apply Huniq in Hh'. subst lv'.
      split; [congruence | reflexivity].
    + apply run_of_wp, wp_minKey; auto; [contradiction|].
      intros lk' lv' x Hh' Hx. apply Huniq in Hh'. subst lv'.
      split; [congruence | reflexivity].
    + apply run_of_wp, wp_maxKey; auto; [contradiction|].
      intros lk' lv' x Hh' Hx. apply Huniq in Hh'. subst lv'.
      split; [congruence | reflexivity].
    + intros e He. split.
      * apply cmp_snd_value. destruct lv as [|x lv]; [discriminate|].
        injection Hf as ->. apply (sorted_first ByV first lv); auto.
      * apply cmp_snd_value. apply (sorted_last ByV lv); auto.
  - unfold wf in Hwf. unfold holds, observable.
    destruct (pairs_by_K (h this)) as [lk|], (pairs_by_V (h this)) as [lv|];
      try contradiction; [|left; right; reflexivity].
    destruct Hwf as (_ & _ & P).
    destruct lv as [|x lv].
    + apply Permutation_sym, Permutation_nil in P. subst lk. left. left. auto.
    + right. exists lk, (x :: lv). repeat split; auto. discriminate.
Qed.

(** ** The effect of each call on the invariant and the sizes *)

Lemma wf_observable q q' : observable q' = observable q -> wf q -> wf q'.
Proof.
  unfold observable, wf. intros E. injection E as -> ->. auto.
Qed.

Lemma size_of_observable q q' : observable q' = observable q -> size_of q' = size_of q.
Proof.
  unfold observable, size_of. intros E. injection E as -> ->. auto.
Qed.

Lemma unchanged_wf h h' : unchanged h h' -> all_wf h -> all_wf h'.
Proof. intros U H a. eapply wf_observable; [apply U|apply H]. Qed.

Lemma wf_cases q :
  wf q ->
  (exists lk lv, holds q lk lv /\ sorted ByK lk /\ sorted ByV lv /\ Permutation lk lv)
  \/ (pairs_by_K q = None /\ pairs_by_V q = None).
Proof.
  unfold wf, holds. destruct (pairs_by_K q) as [lk|], (pairs_by_V q) as [lv|];
    intros H; try contradiction; [left|right]; auto.
  exists lk, lv. tauto.
Qed.

Lemma all_wf_only this h h' : only this h h' -> wf (h' this) -> all_wf h -> all_wf h'.
Proof.
  intros F Hw H a. destruct (Nat.eq_dec a this) as [->|Ha]; auto.
  rewrite F; auto.
Qed.

Lemma sizes_only this h h' v :
  only this h h' -> size_of (h' this) = v ->
  forall a, size_of (h' a) = upd (fun b => size_of (h b)) this v a.
Proof.
  intros F Hv a. destruct (Nat.eq_dec a this) as [->|Ha].
  - now rewrite upd_same.
  - rewrite upd_other by exact Ha. now rewrite F.
Qed.

Lemma sizes_same this h h' c :
  only this h h' -> size_of (h' this) = size_of (h this) ->
  count_step c (fun b => size_of (h b)) = (fun b => size_of (h b)) ->
  forall a, size_of (h' a) = count_step c (fun b => size_of (h b)) a.
Proof.
  intros F Hv -> a. destruct (Nat.eq_dec a this) as [->|Ha]; auto.
  now rewrite F.
Qed.

Lemma wf_inserted x lk lv q :
  holds q (inserted ByK x lk) (inserted ByV x lv) ->
  sorted ByK lk -> sorted ByV lv -> Permutation lk lv -> wf q.
Proof.
  intros Hh Hsk Hsv P. eapply wf_holds; eauto using sorted_inserted.
  rewrite <- !Permutation_inserted. now constructor.
Qed.

(** [insert] on a queue that was moved from dereferences a null pointer,
    unless an exception comes first. *)
Lemma wp_insert_null this key value h s Q :
  pairs_by_K (h this) = None ->
  (forall s', Q (Abort NullDeref) (mkWorld h s')) ->
  (forall e s', raised s e -> Q (Throw e) (mkWorld h s')) ->
  wp (insert this key value) (mkWorld h s) Q.
Proof.
  intros Hn HX HT. unfold insert.
  pose proof (eq_refl (outlook s)) as Hs.
  apply wp_bind, (wp_reads _ _ _ _ _ (reads_make_shared key)).
  2:{ thrown Hs. apply HT; auto. }
  new_sched Hs. cbn beta iota.
  apply wp_bind, (wp_reads _ _ _ _ _ (reads_make_shared value)).
  2:{ thrown Hs. apply HT; auto. }
  new_sched Hs. cbn beta iota.
  apply wp_bind. unfold ms_find. apply wp_bind, wp_load_null; [exact Hn | apply HX].
Qed.

Lemma effect_insert this key value h s :
  all_wf h -> wp (insert this key value) (mkWorld h s) (effect (Insert this key value) h).
Proof.
  intros Hwf. destruct (wf_cases _ (Hwf this))
    as [(lk & lv & Hh & Hsk & Hsv & P)|[HK HV]].
  - apply (wp_insert this key value lk lv); [exact Hh | |].
    + rewrite stored_pair_eq. intros h' s' _ Hh' _ _ F. split.
      * eapply all_wf_only; eauto. eapply wf_inserted; eauto.
      * simpl. apply sizes_only; auto.
        rewrite (holds_size_of _ _ _ Hh'), (holds_size_of _ _ _ Hh).
        apply length_inserted.
    + intros e h' s' _ U. exact U.
  - apply wp_insert_null; auto; [exact (fun _ => I)|].
    intros e s' _. apply unchanged_refl.
Qed.

Lemma wf_erased lk lv x p q :
  holds q (erase_at (find_of cmp_fst x lk) lk) (erase_at p lv) ->
  sorted ByK lk -> sorted ByV lv -> Permutation lk lv ->
  nth_error lv p = Some x -> wf q.
Proof.
  intros Hh Hsk Hsv P Hx. eapply wf_holds; eauto using sorted_erase_at.
  eapply erase_both; eauto.
Qed.

Lemma size_erased lk lv x p q q0 :
  holds q0 lk lv ->
  holds q (erase_at (find_of cmp_fst x lk) lk) (erase_at p lv) ->
  sorted ByK lk -> Permutation lk lv -> nth_error lv p = Some x ->
  size_of q = size_of q0 - 1.
Proof.
  intros Hh0 Hh Hsk P Hx.
  rewrite (holds_size_of _ _ _ Hh), (holds_size_of _ _ _ Hh0).
  apply length_erase_at, nth_error_Some.
  destruct (erase_both lk lv x p Hsk P Hx) as [Hf _]. congruence.
Qed.

Lemma effect_deleteMin this h s :
  all_wf h -> wp (deleteMin this) (mkWorld h s) (effect (DeleteMin this) h).
Proof.
  intros Hwf. apply wp_deleteMin; [exact (Hwf this) | | |].
  - intros E. split; [exact Hwf|]. simpl. intros a.
    destruct (Nat.eq_dec a this) as [->|Ha].
    + rewrite upd_same. lia.
    + now rewrite upd_other.
  - intros lk lv x h' s' Hh Hx _ Hh' F.
    destruct (holds_wf _ _ _ Hh (Hwf this)) as (Hsk & Hsv & P). split.
    + eapply all_wf_only; eauto. eapply wf_erased; eauto.
    + simpl. apply sizes_only; auto. eapply size_erased; eauto.
  - intros e s' _. apply unchanged_refl.
Qed.

Lemma effect_deleteMax this h s :
  all_wf h -> wp (deleteMax this) (mkWorld h s) (effect (DeleteMax this) h).
Proof.
  intros Hwf. apply wp_deleteMax; [exact (Hwf this) | | |].
  - intros E. split; [exact Hwf|]. simpl. intros a.
    destruct (Nat.eq_dec a this) as [->|Ha].
    + rewrite upd_same. lia.
    + now rewrite upd_other.
  - intros lk lv x h' s' Hh Hx _ Hh' F.
    destruct (holds_wf _ _ _ Hh (Hwf this)) as (Hsk & Hsv & P). split.
    + eapply all_wf_only; eauto. eapply wf_erased; eauto.
    + simpl. apply sizes_only; auto. eapply size_erased; eauto.
  - intros e s' _. apply unchanged_refl.
Qed.

(** The pair [changeValue] erases is found in both indexes, and the two
    hold the same pairs afterwards. *)
Lemma changed_both y x lk lv :
  sorted ByK lk -> sorted ByV lv -> Permutation lk lv -> In y lk ->
  Permutation (y :: changed ByK y x lk) (x :: lk) /\
  Permutation (y :: changed ByV y x lv) (x :: lv) /\
  Permutation (changed ByK y x lk) (changed ByV y x lv) /\
  sorted ByK (changed ByK y x lk) /\ sorted ByV (changed ByV y x lv).
Proof.
  intros Hsk Hsv P Hin. unfold changed.
  assert (HinV : In y lv) by (eapply Permutation_in; eauto).
  pose proof (find_of_In ByK y _ (sorted_inserted ByK x lk Hsk)
                (In_inserted ByK x y lk Hin)) as HfK.
  pose proof (find_of_In ByV y _ (sorted_inserted ByV x lv Hsv)
                (In_inserted ByV x y lv HinV)) as HfV.
  pose proof (Permutation_erase_at _ _ _ HfK) as PK.
  pose proof (Permutation_erase_at _ _ _ HfV) as PV.
  assert (P1 : Permutation (y :: erase_at (find_of (cmp ByK) y (inserted ByK x lk))
                                          (inserted ByK x lk)) (x :: lk)).
  { rewrite <- PK. symmetry. apply Permutation_inserted. }
  assert (P2 : Permutation (y :: erase_at (find_of (cmp ByV) y (inserted ByV x lv))
                                          (inserted ByV x lv)) (x :: lv)).
  { rewrite <- PV. symmetry. apply Permutation_inserted. }
  repeat split; auto using sorted_erase_at, sorted_inserted.
  apply (Permutation_cons_inv (a := y)). rewrite P1, P2. now constructor.
Qed.

Lemma effect_changeValue this key value h s :
  all_wf h ->
  wp (changeValue this key value) (mkWorld h s) (effect (ChangeValue this key value) h).
Proof.
  intros Hwf. apply wp_changeValue; [exact (Hwf this) | | | |].
  - intros s' _ _. apply unchanged_refl.
  - intros lk lv s' _ _ _ _. apply unchanged_refl.
  - intros lk lv old h' s' _ Hh Hin _ Hh' F.
    destruct (holds_wf _ _ _ Hh (Hwf this)) as (Hsk & Hsv & P).
    destruct (changed_both (key, old) (key, value) lk lv Hsk Hsv P Hin)
      as (P1 & _ & P3 & S1 & S2).
    split.
    + eapply all_wf_only; eauto. eapply wf_holds; eauto.
    + cbn [heap]. apply (sizes_same this); [exact F | | reflexivity].
      rewrite (holds_size_of _ _ _ Hh'), (holds_size_of _ _ _ Hh).
      apply Permutation_length in P1. simpl in P1. lia.
  - intros e h' s' _ U. exact U.
Qed.

Lemma length_inserted_all ix xs l :
  length (inserted_all ix xs l) = length xs + length l.
Proof.
  rewrite <- (Permutation_length (Permutation_inserted_all ix xs l)).
  apply length_app.
Qed.

Lemma wp_copy_ctor_null queue h s (Q : outcome PriorityQueue -> World -> Prop) :
  pairs_by_K (h queue) = None ->
  Q (Abort NullDeref) (mkWorld h s) ->
  wp (copy_ctor queue) (mkWorld h s) Q.
Proof.
  intros Hn HQ. unfold copy_ctor. apply wp_bind, wp_load_null; auto.
Qed.

(** [merge] with a queue that was moved from, on either side. *)
Lemma wp_merge_null this queue h s Q :
  this <> queue ->
  wf (h this) ->
  pairs_by_K (h this) = None \/ pairs_by_K (h queue) = None ->
  (forall s', Q (Abort NullDeref) (mkWorld h s')) ->
  (forall e s', raised s e -> Q (Throw e) (mkWorld h s')) ->
  wp (merge this queue) (mkWorld h s) Q.
Proof.
  intros Hne Hwf Hnull HX HT. unfold merge.
  apply Nat.eqb_neq in Hne. rewrite Hne. cbn [negb].
  destruct (wf_cases _ Hwf) as [(lk & lv & Hh & _)|[HK HV]].
  - destruct Hnull as [Hn|Hn]; [destruct Hh; congruence|].
    apply wp_bind, (wp_copy_ctor this lk lv); auto.
    intros s' _. cbn beta iota.
    apply wp_bind, wp_try, wp_bind, wp_load_null; [exact Hn | apply HX].
  - apply wp_bind, wp_copy_ctor_null; [exact HK | apply HX].
Qed.

Lemma effect_merge this queue h s :
  all_wf h ->
  wp (merge this queue) (mkWorld h s) (effect (Merge this queue) h).
Proof.
  intros Hwf. destruct (Nat.eq_dec this queue) as [<-|Hne].
  { apply wp_merge_self. split; [exact Hwf|]. simpl.
    now rewrite Nat.eqb_refl. }
  destruct (wf_cases _ (Hwf this)) as [(lk & lv & Hh & Hsk & Hsv & P)|[HK HV]].
  2:{ apply wp_merge_null; auto; [exact (fun _ => I)|].
      intros e s' _. apply unchanged_refl. }
  destruct (wf_cases _ (Hwf queue))
    as [(lk' & lv' & Hh' & Hsk' & Hsv' & P')|[HK' HV']].
  2:{ apply wp_merge_null; auto; [exact (fun _ => I)|].
      intros e s' _. apply unchanged_refl. }
  apply (wp_merge this queue lk lv lk' lv'); [exact Hne | exact Hh | exact Hh' | | |].
  - intros h' s' _ H1 H2 F. split.
    + intros a. destruct (Nat.eq_dec a this) as [->|Ha].
      * eapply wf_holds; eauto using sorted_inserted_all.
        rewrite <- !Permutation_inserted_all. now apply Permutation_app.
      * destruct (Nat.eq_dec a queue) as [->|Ha'].
        -- eapply wf_holds; eauto; constructor.
        -- rewrite F; auto.
    + simpl. apply Nat.eqb_neq in Hne. rewrite Hne. apply Nat.eqb_neq in Hne.
      intros a. destruct (Nat.eq_dec a queue) as [->|Ha'].
      * rewrite upd_same. now rewrite (holds_size_of _ _ _ H2).
      * rewrite upd_other by exact Ha'.
        destruct (Nat.eq_dec a this) as [->|Ha].
        -- rewrite upd_same, (holds_size_of _ _ _ H1), (holds_size_of _ _ _ Hh).
           rewrite (holds_size_of _ _ _ Hh'), length_inserted_all. lia.
        -- rewrite upd_other by exact Ha. now rewrite F.
  - intros e h' s' _ U. exact U.
  - intros n h' s' E. exact I.
Qed.

(** Calls that change no queue. *)
Lemma effect_discard {A} c (m : M A) h s :
  all_wf h ->
  count_step c (fun b => size_of (h b)) = (fun b => size_of (h b)) ->
  wp m (mkWorld h s) (keeps h) ->
  wp (discard m) (mkWorld h s) (effect c h).
Proof.
  intros Hwf Hc Hm. unfold discard. apply wp_bind.
  eapply wp_mono; [exact Hm|]. intros [a|e|x] [h1 s1]; simpl.
  - intros ->. apply wp_ret. simpl. rewrite Hc. auto.
  - intros ->. apply unchanged_refl.
  - contradiction.
Qed.

Lemma keeps_size this h s : coherent (h this) -> wp (size this) (mkWorld h s) (keeps h).
Proof. intros Hc. apply wp_size; auto. reflexivity. Qed.

Lemma keeps_empty this h s : coherent (h this) -> wp (empty this) (mkWorld h s) (keeps h).
Proof. intros Hc. apply wp_empty; auto. reflexivity. Qed.

Lemma keeps_minValue this h s :
  coherent (h this) -> wp (minValue this) (mkWorld h s) (keeps h).
Proof. intros Hc. apply wp_minValue; auto; intros; reflexivity. Qed.

Lemma keeps_maxValue this h s :
  coherent (h this) -> wp (maxValue this) (mkWorld h s) (keeps h).
Proof. intros Hc. apply wp_maxValue; auto; intros; reflexivity. Qed.

Lemma keeps_minKey this h s :
  coherent (h this) -> wp (minKey this) (mkWorld h s) (keeps h).
Proof. intros Hc. apply wp_minKey; auto; intros; reflexivity. Qed.

Lemma keeps_maxKey this h s :
  coherent (h this) -> wp (maxKey this) (mkWorld h s) (keeps h).
Proof. intros Hc. apply wp_maxKey; auto; intros; reflexivity. Qed.

Lemma keeps_operator_eq lhs rhs h s :
  coherent (h lhs) -> coherent (h rhs) ->
  wp (operator_eq lhs rhs) (mkWorld h s) (keeps h).
Proof. intros H1 H2. apply wp_operator_eq; auto; intros; reflexivity. Qed.

Lemma keeps_operator_lt lhs rhs h s :
  coherent (h lhs) -> coherent (h rhs) ->
  wp (operator_lt lhs rhs) (mkWorld h s) (keeps h).
Proof. intros H1 H2. apply wp_operator_lt; auto; intros; reflexivity. Qed.

Lemma keeps_operator_ne lhs rhs h s :
  coherent (h lhs) -> coherent (h rhs) ->
  wp (operator_ne lhs rhs) (mkWorld h s) (keeps h).
Proof.
  intros H1 H2. unfold operator_ne.
  apply wp_bind, wp_operator_eq; auto; intros; [apply wp_ret|]; reflexivity.
Qed.

Lemma keeps_operator_ge lhs rhs h s :
  coherent (h lhs) -> coherent (h rhs) ->
  wp (operator_ge lhs rhs) (mkWorld h s) (keeps h).
Proof.
  intros H1 H2. unfold operator_ge.
  apply wp_bind, wp_operator_lt; auto; intros; [apply wp_ret|]; reflexivity.
Qed.

Lemma keeps_operator_gt lhs rhs h s :
  coherent (h lhs) -> coherent (h rhs) ->
  wp (operator_gt lhs rhs) (mkWorld h s) (keeps h).
Proof.
  intros H1 H2. unfold operator_gt.
  apply wp_bind, wp_operator_eq; auto; intros; [|reflexivity].
  cbn beta iota. destruct (negb _); [|apply wp_ret; reflexivity].
  apply wp_bind, wp_operator_lt; auto; intros; [apply wp_ret|]; reflexivity.
Qed.

Lemma keeps_operator_le lhs rhs h s :
  coherent (h lhs) -> coherent (h rhs) ->
  wp (operator_le lhs rhs) (mkWorld h s) (keeps h).
Proof.
  intros H1 H2. unfold operator_le.
  apply wp_bind, wp_operator_eq; auto; intros; [|reflexivity].
  cbn beta iota. destruct (eq_result _ _); [apply wp_ret; reflexivity|].
  apply wp_operator_lt; auto; intros; reflexivity.
Qed.

(** Construction, assignment and swap. *)
Lemma wf_fresh lk lv ik iv :
  sorted ByK lk -> sorted ByV lv -> Permutation lk lv ->
  wf (mkPQ (Some lk) (Some lv) ik iv).
Proof. unfold wf. simpl. auto. Qed.

Lemma wf_members q ik iv : wf q -> wf (mkPQ (pairs_by_K q) (pairs_by_V q) ik iv).
Proof. apply wf_observable. reflexivity. Qed.

Lemma effect_default_ctor this h s :
  all_wf h ->
  wp (q <- default_ctor ;; put this q) (mkWorld h s) (effect (DefaultCtor this) h).
Proof.
  intros Hwf. apply wp_bind, (wp_reads _ _ _ _ _ reads_default_ctor).
  - intros s' _. cbn beta iota. apply wp_put. intros h' H F. split.
    + apply (all_wf_only this h h' F); [|exact Hwf]. rewrite H.
      apply wf_fresh; constructor.
    + simpl. apply sizes_only; auto. now rewrite H.
  - intros e s' _. apply unchanged_refl.
Qed.

Lemma effect_copy_ctor this queue h s :
  all_wf h ->
  wp (q <- copy_ctor queue ;; put this q) (mkWorld h s)
     (effect (CopyCtor this queue) h).
Proof.
  intros Hwf.
  destruct (wf_cases _ (Hwf queue)) as [(lk & lv & Hh & Hsk & Hsv & P)|[HK HV]].
  - apply wp_bind, (wp_copy_ctor queue lk lv); [exact Hh | |].
    + intros s' _. cbn beta iota. apply wp_put. intros h' H F. split.
      * apply (all_wf_only this h h' F); [|exact Hwf]. rewrite H. now apply wf_fresh.
      * simpl. apply sizes_only; auto. rewrite H.
        now rewrite (holds_size_of _ _ _ Hh).
    + intros e s' _. apply unchanged_refl.
  - apply wp_bind, wp_copy_ctor_null; [exact HK | exact I].
Qed.

Lemma effect_copy_assign this queue h s :
  all_wf h ->
  wp (copy_assign this queue) (mkWorld h s) (effect (CopyAssign this queue) h).
Proof.
  intros Hwf. unfold copy_assign.
  destruct (Nat.eqb_spec this queue) as [<-|Hne]; cbn [negb].
  { apply wp_ret. split; [exact Hwf|]. simpl. intros a.
    destruct (Nat.eq_dec a this) as [->|Ha];
      [now rewrite upd_same | now rewrite upd_other]. }
  destruct (wf_cases _ (Hwf queue)) as [(lk & lv & Hh & Hsk & Hsv & P)|[HK HV]].
  - apply wp_bind, (wp_copy_ctor queue lk lv); [exact Hh | |].
    + intros s' _. cbn beta iota. apply wp_bind, wp_swap_local.
      intros h' H F. cbn beta iota. apply wp_ret. split.
      * apply (all_wf_only this h h' F); [|exact Hwf]. rewrite H. now apply wf_fresh.
      * simpl. apply sizes_only; auto. rewrite H.
        now rewrite (holds_size_of _ _ _ Hh).
    + intros e s' _. apply unchanged_refl.
  - apply wp_bind, wp_copy_ctor_null; [exact HK | exact I].
Qed.

Lemma effect_swap this queue h s :
  all_wf h -> wp (swap this queue) (mkWorld h s) (effect (Swap this queue) h).
Proof.
  intros Hwf. unfold swap. apply wp_noexcept.
  destruct (Nat.eqb_spec this queue) as [<-|Hne]; cbn [negb].
  { apply wp_ret. split; [exact Hwf|]. simpl. intros a.
    destruct (Nat.eq_dec a this) as [->|Ha];
      [now rewrite upd_same | now rewrite !upd_other]. }
  apply wp_bind, wp_get. cbn beta iota. apply wp_bind, wp_get. cbn beta iota.
  apply wp_bind, wp_put. intros h1 H1 F1. cbn beta iota.
  apply wp_put. intros h2 H2 F2.
  assert (Hne' : queue <> this) by congruence.
  assert (E2 : h2 this = h1 this) by (apply F2; congruence).
  split; cbn [heap].
  - intros a. destruct (Nat.eq_dec a queue) as [->|Ha'].
    + rewrite H2. apply wf_members, Hwf.
    + rewrite (F2 a Ha'). destruct (Nat.eq_dec a this) as [->|Ha].
      * rewrite H1. apply wf_members, Hwf.
      * rewrite (F1 a Ha). apply Hwf.
  - simpl. intros a. destruct (Nat.eq_dec a queue) as [->|Ha'].
    + rewrite upd_same, H2. reflexivity.
    + rewrite upd_other by exact Ha'. rewrite (F2 a Ha').
      destruct (Nat.eq_dec a this) as [->|Ha].
      * rewrite upd_same, H1. reflexivity.
      * rewrite upd_other by exact Ha. now rewrite (F1 a Ha).
Qed.

Lemma wp_move_assign this queue h s Q :
  (forall h',
      observable (h' this) = observable (h queue) ->
      (this <> queue -> observable (h' queue) = (None, None)) ->
      (forall a, a <> this -> a <> queue -> h' a = h a) ->
      Q (Ret tt) (mkWorld h' s)) ->
  wp (move_assign this queue) (mkWorld h s) Q.
Proof.
  intros HQ. unfold wp, move_assign, noexcept, bind, get, put. simpl.
  apply HQ.
  - unfold upd. rewrite !Nat.eqb_refl.
    destruct (Nat.eqb_spec this queue) as [->|Hne]; simpl.
    + rewrite !Nat.eqb_refl. destruct (h queue); reflexivity.
    + destruct (Nat.eqb_spec queue this) as [E|_]; [congruence|].
      simpl. rewrite ?Nat.eqb_refl. simpl. destruct (h queue); reflexivity.
  - intros Hne. unfold upd.
    destruct (Nat.eqb_spec queue this) as [E|_]; [congruence|].
    rewrite !Nat.eqb_refl. simpl.
    destruct (Nat.eqb_spec queue this) as [E|_]; [congruence|].
    rewrite ?Nat.eqb_refl. reflexivity.
  - intros a Ha Ha'. unfold upd.
    destruct (Nat.eqb_spec a this) as [E|_]; [congruence|].
    destruct (Nat.eqb_spec a queue) as [E|_]; [congruence|]. reflexivity.
Qed.

Lemma effect_move_assign this queue h s :
  all_wf h ->
  wp (move_assign this queue) (mkWorld h s) (effect (MoveAssign this queue) h).
Proof.
  intros Hwf. apply wp_move_assign. intros h' H1 H2 F. split; cbn [heap].
  - intros a. destruct (Nat.eq_dec a this) as [->|Ha].
    + eapply wf_observable; [exact H1|apply Hwf].
    + destruct (Nat.eq_dec a queue) as [->|Ha'].
      * eapply (wf_observable (mkPQ None None None None)); [|exact I].
        rewrite H2 by congruence. reflexivity.
      * rewrite F; auto.
  - simpl. intros a. destruct (Nat.eq_dec a this) as [->|Ha].
    + rewrite upd_same. apply size_of_observable, H1.
    + rewrite upd_other by exact Ha. destruct (Nat.eq_dec a queue) as [->|Ha'].
      * rewrite upd_same.
        rewrite (size_of_observable (mkPQ None None None None)); [reflexivity|].
        rewrite H2 by congruence. reflexivity.
      * rewrite upd_other by exact Ha'. now rewrite F.
Qed.

Lemma effect_move_ctor this queue h s :
  all_wf h ->
  wp (move_ctor this queue) (mkWorld h s) (effect (MoveCtor this queue) h).
Proof.
  intros Hwf. unfold move_ctor.
  apply wp_noexcept, wp_bind, wp_put. intros h1 H1 F1. cbn beta iota.
  apply wp_move_assign. intros h' H2 H3 F. simpl.
  destruct (Nat.eqb_spec this queue) as [<-|Hne].
  - split.
    + intros a. destruct (Nat.eq_dec a this) as [->|Ha].
      * eapply wf_observable; [exact H2|]. rewrite H1. exact I.
      * rewrite F, F1; auto.
    + intros a. destruct (Nat.eq_dec a this) as [->|Ha].
      * rewrite upd_same. rewrite (size_of_observable _ _ H2), H1. reflexivity.
      * rewrite upd_other by exact Ha. now rewrite F, F1.
  - assert (Hq : h1 queue = h queue) by (apply F1; congruence).
    rewrite Hq in H2. split.
    + intros a. destruct (Nat.eq_dec a this) as [->|Ha].
      * eapply wf_observable; [exact H2|apply Hwf].
      * destruct (Nat.eq_dec a queue) as [->|Ha'].
        -- eapply (wf_observable (mkPQ None None None None)); [|exact I].
           rewrite H3 by congruence. reflexivity.
        -- rewrite F, F1; auto.
    + intros a. destruct (Nat.eq_dec a this) as [->|Ha].
      * rewrite upd_same. apply size_of_observable, H2.
      * rewrite upd_other by exact Ha. destruct (Nat.eq_dec a queue) as [->|Ha'].
        -- rewrite upd_same.
           rewrite (size_of_observable (mkPQ None None None None)); [reflexivity|].
           rewrite H3 by congruence. reflexivity.
        -- rewrite upd_other by exact Ha'. now rewrite F, F1.
Qed.

(** Every call keeps the invariant and counts as [count_step] says. *)
Lemma exec_effect c h s : all_wf h -> wp (exec c) (mkWorld h s) (effect c h).
Proof.
  intros Hwf.
  assert (Hc : forall a, coherent (h a)) by (intros a; apply wf_coherent, Hwf).
  destruct c; simpl exec.
  - apply effect_default_ctor, Hwf.
  - apply effect_copy_ctor, Hwf.
  - apply effect_move_ctor, Hwf.
  - apply effect_copy_assign, Hwf.
  - apply effect_move_assign, Hwf.
  - apply effect_discard; auto using keeps_size.
  - apply effect_discard; auto using keeps_empty.
  - apply effect_insert, Hwf.
  - apply effect_discard; auto using keeps_minValue.
  - apply effect_discard; auto using keeps_maxValue.
  - apply effect_discard; auto using keeps_minKey.
  - apply effect_discard; auto using keeps_maxKey.
  - apply effect_deleteMin, Hwf.
  - apply effect_deleteMax, Hwf.
  - apply effect_changeValue, Hwf.
  - apply effect_merge, Hwf.
  - apply effect_swap, Hwf.
  - apply effect_discard; auto using keeps_operator_eq.
  - apply effect_discard; auto using keeps_operator_ne.
  - apply effect_discard; auto using keeps_operator_lt.
  - apply effect_discard; auto using keeps_operator_gt.
  - apply effect_discard; auto using keeps_operator_le.
  - apply effect_discard; auto using keeps_operator_ge.
Qed.

Lemma unchanged_sizes h h' a : unchanged h h' -> size_of (h' a) = size_of (h a).
Proof. intros U. apply size_of_observable, U. Qed.

Lemma expected_sizes_ext cs rs n n' :
  (forall a, n a = n' a) ->
  forall a, expected_sizes cs rs n a = expected_sizes cs rs n' a.
Proof.
  revert rs n n'. induction cs as [|c cs IH]; intros [|r rs] n n' E a; simpl; auto.
  destruct r; [|now apply IH..].
  apply IH. intros b.
  destruct c; simpl; unfold upd; rewrite ?E; auto;
    repeat match goal with |- context [if ?b then _ else _] => destruct b end;
    rewrite ?E; auto.
Qed.

(** Runs of calls keep the invariant of every queue, and the sizes are
    the expected ones. *)
Lemma run_calls_effect cs w rs w' :
  all_wf (heap w) ->
  run_calls cs w = (rs, w') ->
  completes rs ->
  all_wf (heap w') /\
  forall a, size_of (heap w' a)
            = expected_sizes cs rs (fun b => size_of (heap w b)) a.
Proof.
  revert w rs w'. induction cs as [|c cs IH]; intros [h s] rs w' Hwf Hrun Hok.
  - simpl in Hrun. injection Hrun as <- <-. simpl. auto.
  - simpl in Hrun, Hwf.
    pose proof (exec_effect c h s Hwf) as He. unfold wp in He.
    destruct (exec c (mkWorld h s)) as [[[]|e|x] w1]; simpl in He.
    + injection Hrun as <- <-. inversion_clear Hok as [|? ? _ Hok'].
      destruct He as [Hwf1 Hsz].
      destruct (IH w1 _ _ Hwf1 (surjective_pairing _) Hok') as [Hwf2 Hsz2].
      split; [exact Hwf2|]. intros a. simpl. rewrite Hsz2.
      apply expected_sizes_ext. exact Hsz.
    + injection Hrun as <- <-. inversion_clear Hok as [|? ? _ Hok'].
      pose proof (unchanged_wf _ _ He Hwf) as Hwf1.
      destruct (IH w1 _ _ Hwf1 (surjective_pairing _) Hok') as [Hwf2 Hsz2].
      split; [exact Hwf2|]. intros a. simpl. rewrite Hsz2.
      apply expected_sizes_ext. intros b. apply unchanged_sizes, He.
    + injection Hrun as <- <-. inversion_clear Hok as [|? ? Hx _]. contradiction.
Qed.

(** * Main theorems *)

Lemma wp_all {A} (m : M A) w (Q : outcome A -> World -> Prop) :
  wp m w Q -> forall r w', m w = (r, w') -> Q r w'.
Proof. intros H r w' E. eapply wp_run; eauto. Qed.

Lemma holds_size_run this w lk lv :
  holds (heap w this) lk lv -> length lk = length lv ->
  size this w = (Ret (length lk), w).
Proof.
  intros Hh Hl. rewrite <- (holds_size_of _ _ _ Hh). apply size_run.
  unfold coherent. destruct Hh as [-> ->]. exact Hl.
Qed.

(** What one [insert] does to a valid queue, whatever the schedule: it
    returns with one more [(key, value)] in both indexes and [size()]
    one higher, or throws the scheduled exception and leaves every
    queue as it was. *)
Lemma insert_outcome this key value (w : World) lk lv :
  holds (heap w this) lk lv -> length lk = length lv ->
  forall r w', insert this key value w = (r, w') ->
  match r with
  | Ret _ =>
      exists lk' lv',
        holds (heap w' this) lk' lv' /\
        Permutation lk' ((key, value) :: lk) /\
        Permutation lv' ((key, value) :: lv) /\
        size this w' = (Ret (S (length lk)), w') /\
        frame this (heap w) (heap w')
  | Throw e => raised (faults w) e /\ unchanged (heap w) (heap w')
  | Abort _ => False
  end.
Proof.
  destruct w as [h s]. cbn [heap faults]. intros Hh Hl.
  apply wp_all, (wp_insert this key value lk lv); [exact Hh | |].
  - rewrite stored_pair_eq. intros h' s' _ Hh' _ _ F.
    exists (inserted ByK (key, value) lk), (inserted ByV (key, value) lv).
    cbn [heap]. split; [exact Hh'|].
    split; [symmetry; apply Permutation_inserted|].
    split; [symmetry; apply Permutation_inserted|].
    split; [|apply frame_of_only, F].
    rewrite <- (length_inserted ByK (key, value) lk).
    apply (holds_size_run this _ _ (inserted ByV (key, value) lv)); [exact Hh'|].
    rewrite !length_inserted. congruence.
  - intros e h' s' R U. split; assumption.
Qed.

Lemma not_raised s e : outlook s = (None, None) -> ~ raised s e.
Proof.
  unfold raised. intros ->. destruct e as [| |[] n]; simpl; auto; discriminate.
Qed.

(** C4: a successful insert(key, value) on a valid queue adds exactly
    one (key, value) to the pairs of both indexes, whatever pairs are
    there already, leaves the other queues alone and makes size() one
    higher; without faults the insert does succeed; and after any run
    of calls size() is the count that adds one for each insert that
    returned and takes away the pairs removed by deleteMin, deleteMax
    and merge. *)
Theorem insert_adds_one_pair :
  (forall this key value (w : World) lk lv w',
      holds (heap w this) lk lv -> length lk = length lv ->
      insert this key value w = (Ret tt, w') ->
      exists lk' lv',
        holds (heap w' this) lk' lv' /\
        Permutation lk' ((key, value) :: lk) /\
        Permutation lv' ((key, value) :: lv) /\
        size this w = (Ret (length lk), w) /\
        size this w' = (Ret (S (length lk)), w') /\
        frame this (heap w) (heap w')) /\
  (forall this key value (w : World) lk lv,
      holds (heap w this) lk lv -> length lk = length lv ->
      outlook (faults w) = (None, None) ->
      exists w', insert this key value w = (Ret tt, w')) /\
  (forall cs (w : World) rs w',
      all_wf (heap w) -> run_calls cs w = (rs, w') -> completes rs ->
      forall a,
        size a w'
        = (Ret (expected_sizes cs rs (fun b => size_of (heap w b)) a), w')).
Proof.
  split; [|split].
  - intros this key value w lk lv w' Hh Hl Hrun.
    destruct (insert_outcome this key value w lk lv Hh Hl _ _ Hrun)
      as (lk' & lv' & H1 & H2 & H3 & H4 & H5).
    exists lk', lv'. repeat split; auto; try apply H1.
    apply (holds_size_run this w lk lv); assumption.
  - intros this key value w lk lv Hh Hl Hq.
    destruct (insert this key value w) as [r w'] eqn:Hrun.
    pose proof (insert_outcome this key value w lk lv Hh Hl _ _ Hrun) as H.
    destruct r as [[]|e|x].
    + now exists w'.
    + destruct H as [R _]. now apply not_raised in R.
    + contradiction.
  - intros cs w rs w' Hwf Hrun Hok a.
    destruct (run_calls_effect cs w rs w' Hwf Hrun Hok) as [Hwf' Hsz].
    rewrite <- Hsz. apply size_run, wf_coherent, Hwf'.
Qed.

(** C2: after every run of public calls, each of which returned or
    threw, every queue satisfies the invariant: the key index and the
    value index of a queue have the same length and hold the same
    pairs. *)
Theorem indexes_stay_in_sync cs (w : World) rs w' :
  all_wf (heap w) -> run_calls cs w = (rs, w') -> completes rs ->
  all_wf (heap w') /\
  forall a lk lv,
    holds (heap w' a) lk lv -> length lk = length lv /\ Permutation lk lv.
Proof.
  intros Hwf Hrun Hok.
  destruct (run_calls_effect cs w rs w' Hwf Hrun Hok) as [Hwf' _].
  split; [exact Hwf'|]. intros a lk lv Hh.
  destruct (holds_wf _ _ _ Hh (Hwf' a)) as (_ & _ & P).
  split; [apply Permutation_length|]; exact P.
Qed.

(** C10: on a queue with a pair of key [key], changeValue(key, value)
    either returns, having removed the pair [(key, old)] whose value is
    least among the pairs of that key and added [(key, value)], every
    other pair staying as it was, or throws a scheduled exception and
    leaves every queue as it was. *)
Theorem changeValue_replaces_least this key value (w : World) lk lv v0 :
  wf (heap w this) -> holds (heap w this) lk lv -> In (key, v0) lk ->
  forall r w', changeValue this key value w = (r, w') ->
  match r with
  | Ret _ =>
      exists old lk' lv',
        In (key, old) lk /\
        (forall v', In (key, v') lk -> op_lt v' old = false) /\
        holds (heap w' this) lk' lv' /\
        Permutation ((key, old) :: lk') ((key, value) :: lk) /\
        Permutation ((key, old) :: lv') ((key, value) :: lv) /\
        frame this (heap w) (heap w')
  | Throw e => raised (faults w) e /\ unchanged (heap w) (heap w')
  | Abort _ => False
  end.
Proof.
  destruct w as [h s]. cbn [heap faults]. intros Hwf Hh Hin.
  assert (Huniq : forall lk' lv', holds (h this) lk' lv' -> lk' = lk /\ lv' = lv).
  { intros lk' lv' [H1 H2]. destruct Hh as [H3 H4]. split; congruence. }
  apply wp_all, wp_changeValue; [exact Hwf | | | |].
  - intros s' _ E. rewrite (holds_size_of _ _ _ Hh) in E.
    destruct lk; [destruct Hin | discriminate].
  - intros lk' lv' s' _ Hh' _ Habs. apply Huniq in Hh'. destruct Hh' as [-> ->].
    exfalso. eapply Habs, Hin.
  - intros lk' lv' old h' s' _ Hh0 Hin' Hmin Hh' F.
    apply Huniq in Hh0. destruct Hh0 as [-> ->].
    destruct (holds_wf _ _ _ Hh Hwf) as (Hsk & Hsv & P).
    destruct (changed_both (key, old) (key, value) lk lv Hsk Hsv P Hin')
      as (P1 & P2 & _).
    exists old, (changed ByK (key, old) (key, value) lk),
      (changed ByV (key, old) (key, value) lv).
    cbn [heap]. repeat split; auto; try apply Hh'. apply frame_of_only, F.
  - intros e h' s' R U. split; assumption.
Qed.

(** C5: merge of two distinct valid queues either returns, with the
    pairs of both in [this], [queue] empty and size() of [this] the sum
    of the two sizes, or throws a scheduled exception with every queue
    as it was, or ends in std::terminate when an allocation fails;
    without faults it returns.  A queue merged with itself stays as it
    is. *)
Theorem merge_moves_all_pairs :
  (forall this queue (w : World) lk lv lk' lv' r w',
      this <> queue ->
      holds (heap w this) lk lv -> length lk = length lv ->
      holds (heap w queue) lk' lv' -> length lk' = length lv' ->
      merge this queue w = (r, w') ->
      match r with
      | Ret _ =>
          exists lk2 lv2,
            holds (heap w' this) lk2 lv2 /\
            Permutation lk2 (lk ++ lk') /\ Permutation lv2 (lv ++ lv') /\
            holds (heap w' queue) [] [] /\
            empty queue w' = (Ret true, w') /\
            size this w' = (Ret (length lk + length lk'), w') /\
            (forall a, a <> this -> a <> queue -> heap w' a = heap w a)
      | Throw e => raised (faults w) e /\ unchanged (heap w) (heap w')
      | Abort x => x = Terminated /\ ~ alloc_quiet (faults w)
      end) /\
  (forall this queue (w : World) lk lv lk' lv',
      this <> queue ->
      holds (heap w this) lk lv -> holds (heap w queue) lk' lv' ->
      outlook (faults w) = (None, None) ->
      exists w', merge this queue w = (Ret tt, w')) /\
  (forall this (w : World), merge this this w = (Ret tt, w)).
Proof.
  assert (Hmain : forall this queue (w : World) lk lv lk' lv' r w',
      this <> queue ->
      holds (heap w this) lk lv -> holds (heap w queue) lk' lv' ->
      merge this queue w = (r, w') ->
      match r with
      | Ret _ =>
          holds (heap w' this) (inserted_all ByK lk' lk) (inserted_all ByV lv' lv) /\
          holds (heap w' queue) [] [] /\
          (forall a, a <> this -> a <> queue -> heap w' a = heap w a)
      | Throw e => raised (faults w) e /\ unchanged (heap w) (heap w')
      | Abort x => x = Terminated /\ ~ alloc_quiet (faults w)
      end).
  { intros this queue [h s] lk lv lk' lv' r w' Hne Hh Hh'. cbn [heap faults].
    revert r w'. apply wp_all, (wp_merge this queue lk lv lk' lv'); auto.
    intros n h' s' E. split; [reflexivity|]. unfold alloc_quiet. congruence. }
  split; [|split].
  - intros this queue w lk lv lk' lv' r w' Hne Hh Hl Hh' Hl' Hrun.
    pose proof (Hmain _ _ _ _ _ _ _ _ _ Hne Hh Hh' Hrun) as H.
    destruct r as [[]|e|x]; auto.
    destruct H as (H1 & H2 & H3).
    exists (inserted_all ByK lk' lk), (inserted_all ByV lv' lv).
    split; [exact H1|].
    split; [rewrite <- Permutation_inserted_all; apply Permutation_app_comm|].
    split; [rewrite <- Permutation_inserted_all; apply Permutation_app_comm|].
    split; [exact H2|]. split; [|split; [|exact H3]].
    + rewrite empty_run; [now rewrite (holds_size_of _ _ _ H2)|].
      unfold coherent. destruct H2 as [-> ->]. reflexivity.
    + replace (length lk + length lk') with (length (inserted_all ByK lk' lk))
        by (rewrite length_inserted_all; lia).
      apply (holds_size_run this w' _ (inserted_all ByV lv' lv)); [exact H1|].
      rewrite !length_inserted_all. congruence.
  - intros this queue w lk lv lk' lv' Hne Hh Hh' Hq.
    destruct (merge this queue w) as [r w'] eqn:Hrun.
    pose proof (Hmain _ _ _ _ _ _ _ _ _ Hne Hh Hh' Hrun) as H.
    destruct r as [[]|e|x].
    + now exists w'.
    + destruct H as [R _]. now apply not_raised in R.
    + destruct H as [_ H]. exfalso. apply H. unfold alloc_quiet.
      now rewrite Hq.
  - intros this w. unfold merge. now rewrite Nat.eqb_refl.
Qed.

(** The state after the pair at position [p] of the value index was
    erased from both indexes. *)
Lemma erased_state this h h' s' lk lv x p :
  sorted ByK lk -> Permutation lk lv -> nth_error lv p = Some x ->
  holds (h' this) (erase_at (find_of cmp_fst x lk) lk) (erase_at p lv) ->
  only this h h' ->
  exists lk' lv',
    holds (h' this) lk' lv' /\
    Permutation lk (x :: lk') /\ Permutation lv (x :: lv') /\
    lv' = erase_at p lv /\
    size this (mkWorld h' s') = (Ret (length lk - 1), mkWorld h' s') /\
    frame this h h'.
Proof.
  intros Hsk P Hp Hh' F.
  destruct (erase_both lk lv x p Hsk P Hp) as [Hf P'].
  exists (erase_at (find_of cmp_fst x lk) lk), (erase_at p lv).
  split; [exact Hh'|].
  split; [apply Permutation_erase_at, Hf|].
  split; [apply Permutation_erase_at, Hp|].
  split; [reflexivity|]. split; [|apply frame_of_only, F].
  assert (Hlt : find_of cmp_fst x lk < length lk)
    by (apply nth_error_Some; congruence).
  rewrite <- (length_erase_at _ _ Hlt).
  apply (holds_size_run this (mkWorld h' s') _ (erase_at p lv)); [exact Hh'|].
  apply Permutation_length, P'.
Qed.

Lemma holds_unique q lk lv lk' lv' :
  holds q lk lv -> holds q lk' lv' -> lk' = lk /\ lv' = lv.
Proof. intros [H1 H2] [H3 H4]. split; congruence. Qed.

Lemma holds_nonempty q lk lv p (x : key_value_pair) :
  holds q lk lv -> Permutation lk lv -> nth_error lv p = Some x -> size_of q <> 0.
Proof.
  intros Hh P Hx. rewrite (holds_size_of _ _ _ Hh), (Permutation_length P).
  destruct lv; [destruct p; discriminate | discriminate].
Qed.

(** deleteMin on a queue that is not empty: the first pair of the value
    index leaves both indexes, unless a comparison throws. *)
Lemma deleteMin_outcome this (w : World) lk lv x :
  wf (heap w this) -> holds (heap w this) lk lv -> nth_error lv 0 = Some x ->
  forall r w', deleteMin this w = (r, w') ->
  match r with
  | Ret _ =>
      exists lk' lv',
        holds (heap w' this) lk' lv' /\
        Permutation lk (x :: lk') /\ Permutation lv (x :: lv') /\
        lv' = erase_at 0 lv /\
        size this w' = (Ret (length lk - 1), w') /\
        frame this (heap w) (heap w')
  | Throw e => raised (faults w) e /\ heap w' = heap w
  | Abort _ => False
  end.
Proof.
  destruct w as [h s]. cbn [heap faults]. intros Hwf Hh Hx.
  destruct (holds_wf _ _ _ Hh Hwf) as (Hsk & Hsv & P).
  pose proof (holds_nonempty _ _ _ _ _ Hh P Hx) as Hne.
  apply wp_all, wp_deleteMin; [exact Hwf | contradiction | |].
  - intros lk0 lv0 x0 h' s' Hh0 Hx0 _ Hh' F.
    destruct (holds_unique _ _ _ _ _ Hh Hh0) as [-> ->].
    assert (x0 = x) by congruence. subst x0. cbn [heap].
    eapply erased_state; eauto.
  - intros e s' R. auto.
Qed.

Lemma deleteMax_outcome this (w : World) lk lv x :
  wf (heap w this) -> holds (heap w this) lk lv ->
  nth_error lv (length lv - 1) = Some x ->
  forall r w', deleteMax this w = (r, w') ->
  match r with
  | Ret _ =>
      exists lk' lv',
        holds (heap w' this) lk' lv' /\
        Permutation lk (x :: lk') /\ Permutation lv (x :: lv') /\
        lv' = erase_at (length lv - 1) lv /\
        size this w' = (Ret (length lk - 1), w') /\
        frame this (heap w) (heap w')
  | Throw e => raised (faults w) e /\ heap w' = heap w
  | Abort _ => False
  end.
Proof.
  destruct w as [h s]. cbn [heap faults]. intros Hwf Hh Hx.
  destruct (holds_wf _ _ _ Hh Hwf) as (Hsk & Hsv & P).
  pose proof (holds_nonempty _ _ _ _ _ Hh P Hx) as Hne.
  apply wp_all, wp_deleteMax; [exact Hwf | contradiction | |].
  - intros lk0 lv0 x0 h' s' Hh0 Hx0 _ Hh' F.
    destruct (holds_unique _ _ _ _ _ Hh Hh0) as [-> ->].
    assert (x0 = x) by congruence. subst x0. cbn [heap].
    eapply erased_state; eauto.
  - intros e s' R. auto.
Qed.

Lemma delete_empty this (w : World) :
  wf (heap w this) -> size_of (heap w this) = 0 ->
  deleteMin this w = (Ret tt, w) /\ deleteMax this w = (Ret tt, w).
Proof.
  intros Hwf E. unfold deleteMin, deleteMax, bind.
  rewrite (empty_run this w (wf_coherent _ Hwf)), E. split; reflexivity.
Qed.

Lemma minValue_run this (w : World) lk lv x :
  holds (heap w this) lk lv -> length lk = length lv ->
  nth_error lv 0 = Some x -> minValue this w = (Ret (snd x), w).
Proof.
  destruct w as [h s]. cbn [heap]. intros Hh Hl Hx.
  assert (Hc : coherent (h this))
    by (unfold coherent; destruct Hh as [-> ->]; exact Hl).
  apply run_of_wp, wp_minValue; [exact Hc | |].
  - intros E. rewrite (holds_size_of _ _ _ Hh), Hl in E.
    destruct lv; discriminate.
  - intros lk' lv' x' Hh' Hx'.
    destruct (holds_unique _ _ _ _ _ Hh Hh') as [-> ->].
    split; [congruence|reflexivity].
Qed.

Lemma maxValue_run this (w : World) lk lv x :
  holds (heap w this) lk lv -> length lk = length lv ->
  nth_error lv (length lv - 1) = Some x -> maxValue this w = (Ret (snd x), w).
Proof.
  destruct w as [h s]. cbn [heap]. intros Hh Hl Hx.
  assert (Hc : coherent (h this))
    by (unfold coherent; destruct Hh as [-> ->]; exact Hl).
  apply run_of_wp, wp_maxValue; [exact Hc | |].
  - intros E. rewrite (holds_size_of _ _ _ Hh), Hl in E.
    destruct lv; [destruct x; discriminate | discriminate].
  - intros lk' lv' x' Hh' Hx'.
    destruct (holds_unique _ _ _ _ _ Hh Hh') as [-> ->].
    split; [congruence|reflexivity].
Qed.

Lemma minKey_run this (w : World) lk lv x :
  holds (heap w this) lk lv -> length lk = length lv ->
  nth_error lv 0 = Some x -> minKey this w = (Ret (fst x), w).
Proof.
  destruct w as [h s]. cbn [heap]. intros Hh Hl Hx.
  assert (Hc : coherent (h this))
    by (unfold coherent; destruct Hh as [-> ->]; exact Hl).
  apply run_of_wp, wp_minKey; [exact Hc | |].
  - intros E. rewrite (holds_size_of _ _ _ Hh), Hl in E.
    destruct lv; discriminate.
  - intros lk' lv' x' Hh' Hx'.
    destruct (holds_unique _ _ _ _ _ Hh Hh') as [-> ->].
    split; [congruence|reflexivity].
Qed.

Lemma minValue_empty this (w : World) :
  holds (heap w this) [] [] -> minValue this w = (Throw PQEmptyEx, w).
Proof.
  intros Hh. unfold minValue, bind.
  rewrite empty_run by (unfold coherent; destruct Hh as [-> ->]; reflexivity).
  now rewrite (holds_size_of _ _ _ Hh).
Qed.

(** C6: deleteMin and deleteMax on a queue without pairs (its indexes
    are empty, or it has none), where [empty()] returns true, return and
    change nothing.  On a queue with pairs, where [empty()] returns
    false, minValue() is not above maxValue(); deleteMin (deleteMax)
    returns with one pair removed from both indexes, the first (last)
    pair of the value index, whose value is minValue() (maxValue()),
    with every other pair in place and size() one lower, unless a
    scheduled exception is thrown, which leaves the store as it was, and
    it returns when none is scheduled; and minValue() after deleteMin
    is not below minValue() before.  Every queue that satisfies the
    invariant is in one of the two cases. *)
Theorem delete_removes_extreme this (w : World) :
  wf (heap w this) ->
  (holds (heap w this) [] [] \/ observable (heap w this) = (None, None) ->
     empty this w = (Ret true, w) /\
     deleteMin this w = (Ret tt, w) /\ deleteMax this w = (Ret tt, w)) /\
  (forall lk lv,
     holds (heap w this) lk lv -> lv <> [] ->
     exists first last,
       nth_error lv 0 = Some first /\
       nth_error lv (length lv - 1) = Some last /\
       empty this w = (Ret false, w) /\
       size this w = (Ret (length lk), w) /\
       minValue this w = (Ret (snd first), w) /\
       maxValue this w = (Ret (snd last), w) /\
       op_lt (snd last) (snd first) = false /\
       (forall r w', deleteMin this w = (r, w') ->
          match r with
          | Ret _ =>
              exists lk' lv',
                holds (heap w' this) lk' lv' /\
                Permutation lk (first :: lk') /\
                Permutation lv (first :: lv') /\
                size this w' = (Ret (length lk - 1), w') /\
                frame this (heap w) (heap w') /\
                (forall m w'', minValue this w' = (Ret m, w'') ->
                               op_lt m (snd first) = false)
          | Throw e => raised (faults w) e /\ heap w' = heap w
          | Abort _ => False
          end) /\
       (forall r w', deleteMax this w = (r, w') ->
          match r with
          | Ret _ =>
              exists lk' lv',
                holds (heap w' this) lk' lv' /\
                Permutation lk (last :: lk') /\
                Permutation lv (last :: lv') /\
                size this w' = (Ret (length lk - 1), w') /\
                frame this (heap w) (heap w')
          | Throw e => raised (faults w) e /\ heap w' = heap w
          | Abort _ => False
          end) /\
       (outlook (faults w) = (None, None) ->
        fst (deleteMin this w) = Ret tt /\ fst (deleteMax this w) = Ret tt)) /\
  ((holds (heap w this) [] [] \/ observable (heap w this) = (None, None)) \/
   exists lk lv, holds (heap w this) lk lv /\ lv <> []).
Proof.
  intros Hwf. pose proof (wf_coherent _ Hwf) as Hc. split; [|split].
  - intros Hno.
    assert (E : size_of (heap w this) = 0).
    { destruct Hno as [Hh|Ho]; [exact (holds_size_of _ _ _ Hh)|].
      unfold observable in Ho. unfold size_of.
      injection Ho as HK _. rewrite HK. reflexivity. }
    split; [rewrite (empty_run this w Hc), E; reflexivity|].
    apply delete_empty; assumption.
  - intros lk lv Hh Hne.
    assert (Hn : length lv <> 0) by (destruct lv; [congruence|discriminate]).
    pose proof (holds_coherent _ _ _ Hh Hc) as Hl.
    assert (E : size_of (heap w this) <> 0).
    { rewrite (holds_size_of _ _ _ Hh), Hl. exact Hn. }
    destruct (nth_error_first lv Hn) as [first Hf].
    destruct (nth_error_last lv Hn) as [last Hla].
    destruct (holds_wf _ _ _ Hh Hwf) as (Hsk & Hsv & P).
    pose proof (deleteMin_outcome this w lk lv first Hwf Hh Hf) as Hmin.
    pose proof (deleteMax_outcome this w lk lv last Hwf Hh Hla) as Hmax.
    exists first, last.
    split; [exact Hf|]. split; [exact Hla|].
    split; [rewrite (empty_run this w Hc); apply Nat.eqb_neq in E;
            rewrite E; reflexivity|].
    split; [apply (holds_size_run this w lk lv); assumption|].
    split; [apply (minValue_run this w lk lv); assumption|].
    split; [apply (maxValue_run this w lk lv); assumption|].
    split; [|split; [|split]].
    + apply cmp_snd_value. apply (sorted_last ByV lv); auto.
      eapply nth_error_In, Hf.
    + intros r w' Hrun. pose proof (Hmin r w' Hrun) as H.
      destruct r as [[]|e|x]; auto.
      destruct H as (lk' & lv' & Hh' & P1 & P2 & Elv & Hsz & F).
      exists lk', lv'. repeat split; auto; try apply Hh'.
      intros m w'' Hm.
      assert (Hl' : length lk' = length lv').
      { apply Permutation_length in P1, P2. simpl in *. lia. }
      destruct lv' as [|second lv'].
      { destruct lk'; [|discriminate].
        rewrite (minValue_empty this w' Hh') in Hm. discriminate. }
      rewrite (minValue_run this w' lk' (second :: lv') second Hh' Hl' eq_refl) in Hm.
      injection Hm as <- _. apply cmp_snd_value.
      apply (sorted_nth_le ByV lv 0 1); auto.
      destruct lv as [|z lv]; [discriminate|].
      unfold erase_at in Elv. simpl in Elv. rewrite <- Elv. reflexivity.
    + intros r w' Hrun. pose proof (Hmax r w' Hrun) as H.
      destruct r as [[]|e|x]; auto.
      destruct H as (lk' & lv' & Hh' & P1 & P2 & Elv & Hsz & F).
      exists lk', lv'. repeat split; auto; apply Hh'.
    + intros Hq. split.
      * specialize (Hmin _ _ (surjective_pairing _)).
        destruct (fst (deleteMin this w)) as [[]|e|x]; [reflexivity | |contradiction].
        destruct Hmin as [R _]. destruct (not_raised _ _ Hq R).
      * specialize (Hmax _ _ (surjective_pairing _)).
        destruct (fst (deleteMax this w)) as [[]|e|x]; [reflexivity | |contradiction].
        destruct Hmax as [R _]. destruct (not_raised _ _ Hq R).
  - unfold wf in Hwf. unfold holds, observable.
    destruct (pairs_by_K (heap w this)) as [lk|], (pairs_by_V (heap w this)) as [lv|];
      try contradiction; [|left; right; reflexivity].
    destruct Hwf as (_ & _ & P).
    destruct lv as [|x lv].
    + apply Permutation_sym, Permutation_nil in P. subst lk. left. left. auto.
    + right. exists lk, (x :: lv). repeat split; auto. discriminate.
Qed.

Lemma wf_nil q : holds q [] [] -> wf q.
Proof. intros Hh. eapply wf_holds; eauto; constructor. Qed.

(** C3: on an empty queue, and with no fault scheduled, changeValue
    throws PQEmptyEx, the exception of [minValue], not PQNotFoundEx;
    the store stays as it is. *)
Theorem changeValue_on_empty_queue this key value (w : World) :
  holds (heap w this) [] [] -> outlook (faults w) = (None, None) ->
  exists w', changeValue this key value w = (Throw PQEmptyEx, w') /\
             heap w' = heap w.
Proof.
  destruct w as [h s]. cbn [heap faults]. intros Hh Hq.
  destruct (changeValue this key value (mkWorld h s)) as [r w'] eqn:Hrun.
  revert r w' Hrun.
  apply (wp_all _ _ (fun r w' =>
           exists w'', (r, w') = (Throw PQEmptyEx, w'') /\ heap w'' = h)).
  apply wp_changeValue; [apply wf_nil, Hh | | | |].
  - intros s' _ _. eexists. split; reflexivity.
  - intros lk lv s' _ Hh' Hne. exfalso.
    destruct (holds_unique _ _ _ _ _ Hh Hh') as [-> _]. now apply Hne.
  - intros lk lv old h' s' _ Hh' Hin. exfalso.
    destruct (holds_unique _ _ _ _ _ Hh Hh') as [-> _]. destruct Hin.
  - intros e h' s' R. exfalso. eapply not_raised; eauto.
Qed.

(** X2: on a queue that is not empty and has no pair of key [key],
    changeValue throws PQNotFoundEx when no fault is scheduled, and
    leaves the store as it is. *)
Lemma changeValue_absent_key this key value (w : World) lk lv :
  wf (heap w this) -> holds (heap w this) lk lv -> lk <> [] ->
  (forall v, ~ In (key, v) lk) ->
  outlook (faults w) = (None, None) ->
  exists w', changeValue this key value w = (Throw PQNotFoundEx, w') /\
             heap w' = heap w.
Proof.
  destruct w as [h s]. cbn [heap faults]. intros Hwf Hh Hne Habs Hq.
  destruct (changeValue this key value (mkWorld h s)) as [r w'] eqn:Hrun.
  revert r w' Hrun.
  apply (wp_all _ _ (fun r w' =>
           exists w'', (r, w') = (Throw PQNotFoundEx, w'') /\ heap w'' = h)).
  apply wp_changeValue; [exact Hwf | | | |].
  - intros s' _ E. exfalso. rewrite (holds_size_of _ _ _ Hh) in E.
    destruct lk; [now apply Hne | discriminate].
  - intros lk' lv' s' _ _ _ _. eexists. split; reflexivity.
  - intros lk' lv' old h' s' _ Hh' Hin. exfalso.
    destruct (holds_unique _ _ _ _ _ Hh Hh') as [-> _]. eapply Habs, Hin.
  - intros e h' s' R. exfalso. eapply not_raised; eauto.
Qed.

(** C9, as the code has it: when the queue holds no pair of key [k]
    with a value below [v], insert(k, v) followed by changeValue(k, v2)
    leaves the former pairs and one more pair, (k, v2): the pair
    replaced is the one inserted.  So a pair of key [k] in the queue is
    (k, v2) or a former pair, and (k, v) is there only if it was before
    or [v2] is [v]; and minKey() is [k] when no former pair goes before
    (k, v2) in the order of the value index.  A run that throws throws a
    scheduled exception. *)
Theorem insert_then_changeValue this k v v2 (w : World) lk lv :
  wf (heap w this) -> holds (heap w this) lk lv ->
  (forall v', In (k, v') lk -> op_lt v' v = false) ->
  forall r w', (insert this k v ;; changeValue this k v2) w = (r, w') ->
  match r with
  | Ret _ =>
      exists lk' lv',
        holds (heap w' this) lk' lv' /\
        Permutation lk' ((k, v2) :: lk) /\
        Permutation lv' ((k, v2) :: lv) /\
        (forall v', In (k, v') lk' -> v' = v2 \/ In (k, v') lk) /\
        ((forall e, In e lk -> cmp_snd e (k, v2) = false) ->
         minKey this w' = (Ret k, w'))
  | Throw e => raised (faults w) e
  | Abort _ => False
  end.
Proof.
  destruct w as [h s]. cbn [heap faults]. intros Hwf Hh Hleast.
  destruct (holds_wf _ _ _ Hh Hwf) as (Hsk & Hsv & P).
  apply wp_all, wp_bind, (wp_insert this k v lk lv); [exact Hh | |].
  2:{ intros e h' s' R _. exact R. }
  rewrite stored_pair_eq. intros h1 s1 E1 Hh1 _ _ F1. cbn beta iota.
  set (lk1 := inserted ByK (k, v) lk) in *.
  set (lv1 := inserted ByV (k, v) lv) in *.
  assert (Hwf1 : wf (h1 this)) by (eapply wf_inserted; eauto).
  assert (P1 : Permutation ((k, v) :: lk) lk1) by apply Permutation_inserted.
  assert (PV1 : Permutation ((k, v) :: lv) lv1) by apply Permutation_inserted.
  assert (Hin1 : In (k, v) lk1) by (eapply Permutation_in; [exact P1|now left]).
  apply wp_changeValue; [exact Hwf1 | | | |].
  - intros s' _ E. rewrite (holds_size_of _ _ _ Hh1) in E.
    destruct lk1; [destruct Hin1 | discriminate].
  - intros lk' lv' s' _ Hh' _ Habs'.
    destruct (holds_unique _ _ _ _ _ Hh1 Hh') as [-> _]. eapply Habs', Hin1.
  - intros lk' lv' old h' s' _ Hh0 Hin' Hold Hh' F.
    destruct (holds_unique _ _ _ _ _ Hh1 Hh0) as [-> ->].
    assert (old = v).
    { apply op_lt_connex; [|apply Hold, Hin1].
      eapply Permutation_in in Hin'; [|symmetry; exact P1].
      destruct Hin' as [Hv|Hv]; [|apply Hleast, Hv].
      injection Hv as <-. apply op_lt_irrefl. }
    subst old.
    destruct (holds_wf _ _ _ Hh1 Hwf1) as (Hsk1 & Hsv1 & PP).
    destruct (changed_both (k, v) (k, v2) lk1 lv1 Hsk1 Hsv1 PP Hin')
      as (Q1 & Q2 & Q3 & S1 & S2).
    set (lk2 := changed ByK (k, v) (k, v2) lk1) in *.
    set (lv2 := changed ByV (k, v) (k, v2) lv1) in *.
    assert (R1 : Permutation lk2 ((k, v2) :: lk)).
    { apply (Permutation_cons_inv (a := (k, v))). rewrite Q1, <- P1.
      apply perm_swap. }
    assert (R2 : Permutation lv2 ((k, v2) :: lv)).
    { apply (Permutation_cons_inv (a := (k, v))). rewrite Q2, <- PV1.
      apply perm_swap. }
    exists lk2, lv2. cbn [heap].
    split; [exact Hh'|]. split; [exact R1|]. split; [exact R2|]. split.
    + intros v' Hv. eapply Permutation_in in Hv; [|exact R1].
      destruct Hv as [Hv|Hv]; [left; congruence | right; exact Hv].
    + intros Hmin.
      assert (Hl2 : length lk2 = length lv2) by apply Permutation_length, Q3.
      clearbody lv2. destruct lv2 as [|f lt].
      { apply Permutation_nil in R2. discriminate. }
      rewrite (minKey_run this (mkWorld h' s') lk2 (f :: lt) f Hh' Hl2 eq_refl).
      assert (Hf : f = (k, v2)).
      { apply (cmp_connex ByV).
        - assert (Hfin : In f ((k, v2) :: lv))
            by (eapply Permutation_in; [exact R2|now left]).
          destruct Hfin as [<-|Hfin]; [apply cmp_irrefl|].
          apply Hmin. eapply Permutation_in; [symmetry; exact P|exact Hfin].
        - apply (sorted_first ByV f lt); [exact S2|].
          eapply Permutation_in; [symmetry; exact R2|now left]. }
      now rewrite Hf.
  - intros e h' s' R _. eapply raised_outlook; eauto.
Qed.

(** ** Equality of queues *)

Lemma eqb_seq_Forall2 l1 l2 :
  length l1 = length l2 ->
  (eqb_seq l1 l2 = true <->
   Forall2 (fun x y : key_value_pair => fst x = fst y /\ snd x = snd y) l1 l2).
Proof.
  revert l2. induction l1 as [|x l1 IH]; intros [|y l2] Hl; simpl in *;
    try discriminate.
  - split; [constructor | reflexivity].
  - injection Hl as Hl. rewrite !andb_true_iff, !op_eq_spec, (IH l2 Hl).
    split.
    + intros [[H1 H2] H3]. constructor; auto.
    + intros H. inversion_clear H as [|? ? ? ? [H1 H2] H3]. auto.
Qed.

Lemma eqb_seq_refl l : eqb_seq l l = true.
Proof.
  induction l as [|x l IH]; simpl; auto.
  now rewrite !op_eq_refl, IH.
Qed.

Lemma wf_keys_length q : wf q -> length (keys q) = size_of q.
Proof.
  unfold wf, keys, size_of.
  destruct (pairs_by_K q), (pairs_by_V q); simpl; tauto.
Qed.

Lemma wp_insert_list this l lk lv h s Q :
  holds (h this) lk lv -> sorted ByK lk -> sorted ByV lv -> Permutation lk lv ->
  (forall h' s' lk' lv',
      outlook s' = outlook s ->
      holds (h' this) lk' lv' ->
      sorted ByK lk' -> sorted ByV lv' -> Permutation lk' lv' ->
      Permutation lk' (l ++ lk) ->
      only this h h' ->
      Q (Ret tt) (mkWorld h' s')) ->
  (forall e h' s', raised s e -> Q (Throw e) (mkWorld h' s')) ->
  wp (insert_list this l) (mkWorld h s) Q.
Proof.
  revert lk lv h s. induction l as [|[k v] l IH];
    intros lk lv h s Hh Hsk Hsv P HR HT; simpl.
  - apply wp_ret. eapply HR; eauto using only_refl.
  - apply wp_bind, (wp_insert this k v lk lv); [exact Hh | |].
    + rewrite stored_pair_eq. intros h1 s1 E1 Hh1 _ _ F1. cbn beta iota.
      apply (IH (inserted ByK (k, v) lk) (inserted ByV (k, v) lv));
        auto using sorted_inserted.
      * rewrite <- !Permutation_inserted. now constructor.
      * intros h2 s2 lk' lv' E2 Hh2 S1 S2 P2 P3 F2.
        apply (HR h2 s2 lk' lv'); auto; [congruence| |eapply only_trans; eauto].
        rewrite P3, <- Permutation_inserted. symmetry.
        apply Permutation_middle.
      * intros e h2 s2 R. apply HT. eapply raised_outlook; eauto.
    + intros e h1 s1 R _. apply HT, R.
Qed.

(** C8: [lhs == rhs] changes no queue and, unless a comparison throws,
    returns true exactly when the two sizes are equal and the pairs of
    the two key indexes, taken in order, have equal keys and equal
    values; two queues filled without faults by inserting the same
    pairs in different orders compare equal. *)
Theorem operator_eq_compares_in_key_order :
  (forall lhs rhs (w : World) r w',
      wf (heap w lhs) -> wf (heap w rhs) ->
      operator_eq lhs rhs w = (r, w') ->
      match r with
      | Ret b =>
          heap w' = heap w /\
          exists n1 n2,
            size lhs w = (Ret n1, w) /\ size rhs w = (Ret n2, w) /\
            (b = true <->
             n1 = n2 /\
             Forall2 (fun x y => fst x = fst y /\ snd x = snd y)
                     (keys (heap w lhs)) (keys (heap w rhs)))
      | Throw e => raised (faults w) e /\ heap w' = heap w
      | Abort _ => False
      end) /\
  (forall a b l1 l2 (w : World),
      a <> b -> holds (heap w a) [] [] -> holds (heap w b) [] [] ->
      outlook (faults w) = (None, None) -> Permutation l1 l2 ->
      exists w',
        (insert_list a l1 ;; insert_list b l2 ;; operator_eq a b) w
        = (Ret true, w')).
Proof.
  split.
  - intros lhs rhs [h s] r w' Hw1 Hw2. cbn [heap faults] in *. revert r w'.
    pose proof (wf_coherent _ Hw1) as Hc1. pose proof (wf_coherent _ Hw2) as Hc2.
    apply wp_all, wp_operator_eq; auto.
    intros s' _. cbn [heap]. split; [reflexivity|].
    exists (size_of (h lhs)), (size_of (h rhs)).
    split; [apply (size_run lhs (mkWorld h s)), Hc1|].
    split; [apply (size_run rhs (mkWorld h s)), Hc2|].
    unfold eq_result.
    pose proof (wf_keys_length _ Hw1) as L1.
    pose proof (wf_keys_length _ Hw2) as L2.
    destruct (Nat.eqb_spec (size_of (h lhs)) (size_of (h rhs))) as [E|E].
    + destruct (Nat.eqb_spec (size_of (h lhs)) 0) as [E0|E0].
      * split; [|reflexivity]. intros _. split; [exact E|].
        rewrite E0 in L1. rewrite <- E, E0 in L2.
        destruct (keys (h lhs)), (keys (h rhs)); try discriminate. constructor.
      * rewrite eqb_seq_Forall2 by congruence. tauto.
    + split; [discriminate | tauto].
  - intros a b l1 l2 [h s] Hne Ha Hb Hq P. cbn [heap faults] in *.
    destruct ((insert_list a l1 ;; insert_list b l2 ;; operator_eq a b)
                (mkWorld h s)) as [r w'] eqn:Hrun.
    revert r w' Hrun.
    apply (wp_all _ _ (fun r w' => exists w'', (r, w') = (Ret true, w''))).
    assert (Hnr : forall e, ~ raised s e) by (intros e; now apply not_raised).
    apply wp_bind, (wp_insert_list a l1 [] [] h s); auto; try constructor.
    2:{ intros e h' s' R. now apply Hnr in R. }
    intros h1 s1 lk1 lv1 E1 Hh1 S1 S1' P1 P1' F1. cbn beta iota.
    assert (Hb1 : holds (h1 b) [] []) by (rewrite F1; auto).
    apply wp_bind, (wp_insert_list b l2 [] [] h1 s1); auto; try constructor.
    2:{ intros e h' s' R. exfalso. apply (Hnr e). eapply raised_outlook; eauto. }
    intros h2 s2 lk2 lv2 E2 Hh2 S2 S2' P2 P2' F2. cbn beta iota.
    assert (Ha2 : holds (h2 a) lk1 lv1) by (rewrite F2; auto).
    assert (Hwa : wf (h2 a)) by (eapply wf_holds; eauto).
    assert (Hwb : wf (h2 b)) by (eapply wf_holds; eauto).
    apply wp_operator_eq; auto using wf_coherent.
    2:{ intros e s' R. exfalso. apply (Hnr e).
        eapply raised_outlook; [|eapply raised_outlook; eauto]. exact E1. }
    intros s' _. unfold eq_result.
    rewrite (holds_keys _ _ _ Ha2), (holds_keys _ _ _ Hh2).
    rewrite (holds_size_of _ _ _ Ha2), (holds_size_of _ _ _ Hh2).
    rewrite app_nil_r in P1', P2'.
    assert (lk1 = lk2).
    { apply (sorted_unique ByK); auto. rewrite P1', P2'. exact P. }
    subst lk2. rewrite Nat.eqb_refl, eqb_seq_refl.
    destruct (length lk1 =? 0); eauto.
Qed.

(** ** The strong exception guarantee *)

(** X1: an exception thrown by insert, changeValue or merge on valid queues
    leaves every queue observably as it was; it is the exception the
    schedule raises, or for changeValue one of the queue's own two.
    merge can also end in std::terminate, and does so only when an
    allocation fails. *)
Theorem strong_exception_guarantee :
  (forall this key value (w : World) lk lv e w',
      holds (heap w this) lk lv ->
      insert this key value w = (Throw e, w') ->
      raised (faults w) e /\ unchanged (heap w) (heap w')) /\
  (forall this key value (w : World) e w',
      wf (heap w this) ->
      changeValue this key value w = (Throw e, w') ->
      (e = PQEmptyEx \/ e = PQNotFoundEx \/ raised (faults w) e) /\
      unchanged (heap w) (heap w')) /\
  (forall this queue (w : World) lk lv lk' lv' r w',
      this <> queue ->
      holds (heap w this) lk lv -> holds (heap w queue) lk' lv' ->
      merge this queue w = (r, w') ->
      match r with
      | Ret _ => True
      | Throw e => raised (faults w) e /\ unchanged (heap w) (heap w')
      | Abort x => x = Terminated /\ ~ alloc_quiet (faults w)
      end).
Proof.
  split; [|split].
  - intros this key value [h s] lk lv e w' Hh. cbn [heap faults].
    revert w'.
    assert (H : wp (insert this key value) (mkWorld h s)
                  (fun r w' => match r with
                               | Throw e => raised s e /\ unchanged h (heap w')
                               | _ => True
                               end)).
    { apply (wp_insert this key value lk lv); auto. }
    intros w' Hrun. exact (wp_run _ _ _ _ _ H Hrun).
  - intros this key value [h s] e w' Hwf. cbn [heap faults] in *.
    assert (H : wp (changeValue this key value) (mkWorld h s)
                  (fun r w' => match r with
                               | Throw e =>
                                   (e = PQEmptyEx \/ e = PQNotFoundEx \/ raised s e)
                                   /\ unchanged h (heap w')
                               | _ => True
                               end)).
    { apply wp_changeValue; auto using unchanged_refl. }
    intros Hrun. exact (wp_run _ _ _ _ _ H Hrun).
  - intros this queue [h s] lk lv lk' lv' r w' Hne Hh Hh'. cbn [heap faults].
    revert r w'. apply wp_all, (wp_merge this queue lk lv lk' lv'); auto.
    intros n h' s' E. split; [reflexivity|]. unfold alloc_quiet. congruence.
Qed.

(** * Further properties *)

(** ** The order on queues *)

Lemma pair_eqb_spec x y : pair_eqb x y = true <-> x = y.
Proof.
  unfold pair_eqb. rewrite andb_true_iff, !op_eq_spec.
  destruct x, y; simpl. split; [intros [-> ->]; reflexivity|].
  intros E. injection E as -> ->. auto.
Qed.

Lemma ltb_seq_cons x y l1 l2 :
  ltb_seq (x :: l1) (y :: l2)
  = if pair_eqb x y then ltb_seq l1 l2 else cmp_fst x y.
Proof.
  simpl. unfold pair_eqb, cmp_fst.
  destruct (op_eq (fst x) (fst y)); simpl; auto.
  destruct (op_eq (snd x) (snd y)) eqn:E; simpl; auto.
Qed.

Lemma pair_eqb_refl x : pair_eqb x x = true.
Proof. now apply pair_eqb_spec. Qed.

Lemma ltb_seq_irrefl l : ltb_seq l l = false.
Proof.
  induction l as [|x l IH]; [reflexivity|].
  now rewrite ltb_seq_cons, pair_eqb_refl.
Qed.

Lemma ltb_seq_trans l1 l2 l3 :
  ltb_seq l1 l2 = true -> ltb_seq l2 l3 = true -> ltb_seq l1 l3 = true.
Proof.
  revert l2 l3. induction l1 as [|x l1 IH]; intros [|y l2] [|z l3];
    try discriminate; auto.
  rewrite !ltb_seq_cons.
  destruct (pair_eqb x y) eqn:Exy.
  - apply pair_eqb_spec in Exy. subst y.
    destruct (pair_eqb x z); auto. apply IH.
  - destruct (pair_eqb y z) eqn:Eyz.
    + apply pair_eqb_spec in Eyz. subst z. rewrite Exy. auto.
    + intros H1 H2. pose proof (cmp_trans ByK x y z H1 H2) as H3.
      destruct (pair_eqb x z) eqn:Exz; auto.
      apply pair_eqb_spec in Exz. subst z.
      pose proof (cmp_asym ByK _ _ H1) as H4. simpl in H4. congruence.
Qed.

(** Of [l1 < l2], [l1 = l2] and [l2 < l1] one holds. *)
Lemma ltb_seq_total l1 l2 :
  ltb_seq l1 l2 = false -> ltb_seq l2 l1 = false -> l1 = l2.
Proof.
  revert l2. induction l1 as [|x l1 IH]; intros [|y l2]; try discriminate; auto.
  rewrite !ltb_seq_cons.
  destruct (pair_eqb x y) eqn:Exy.
  - apply pair_eqb_spec in Exy. subst y. rewrite pair_eqb_refl.
    intros H1 H2. f_equal. now apply IH.
  - destruct (pair_eqb y x) eqn:Eyx.
    + apply pair_eqb_spec in Eyx. subst y. rewrite pair_eqb_refl in Exy.
      discriminate.
    + intros H1 H2. assert (x = y) by (apply (cmp_connex ByK); auto).
      subst y. rewrite pair_eqb_refl in Exy. discriminate.
Qed.

Lemma ltb_seq_asym l1 l2 : ltb_seq l1 l2 = true -> ltb_seq l2 l1 = false.
Proof.
  intros H. destruct (ltb_seq l2 l1) eqn:E; auto.
  rewrite <- (ltb_seq_irrefl l1). symmetry. eapply ltb_seq_trans; eauto.
Qed.

Lemma eqb_seq_eq l1 l2 :
  length l1 = length l2 -> (eqb_seq l1 l2 = true <-> l1 = l2).
Proof.
  revert l2. induction l1 as [|x l1 IH]; intros [|y l2] Hl; simpl in *;
    try discriminate.
  - tauto.
  - injection Hl as Hl. fold (pair_eqb x y).
    rewrite andb_true_iff, pair_eqb_spec, (IH l2 Hl).
    split; [intros [-> ->]; reflexivity|]. intros E. injection E as -> ->. auto.
Qed.

(** On queues that satisfy the invariant, [==] is equality of the key
    sequences and [<] their lexicographic order. *)
Lemma eq_result_keys q1 q2 :
  wf q1 -> wf q2 -> (eq_result q1 q2 = true <-> keys q1 = keys q2).
Proof.
  intros H1 H2. unfold eq_result.
  pose proof (wf_keys_length _ H1) as L1. pose proof (wf_keys_length _ H2) as L2.
  destruct (Nat.eqb_spec (size_of q1) (size_of q2)) as [E|E].
  - destruct (Nat.eqb_spec (size_of q1) 0) as [E0|E0].
    + rewrite E0 in L1. rewrite <- E, E0 in L2.
      destruct (keys q1), (keys q2); try discriminate. tauto.
    + apply eqb_seq_eq. congruence.
  - split; [discriminate|]. intros Ek. rewrite Ek in L1. congruence.
Qed.

Lemma lt_result_keys q1 q2 :
  wf q1 -> wf q2 -> lt_result q1 q2 = ltb_seq (keys q1) (keys q2).
Proof.
  intros H1 H2. unfold lt_result.
  pose proof (wf_keys_length _ H1) as L1. pose proof (wf_keys_length _ H2) as L2.
  destruct (keys q1) as [|x l1], (keys q2) as [|y l2]; simpl in L1, L2;
    rewrite <- L1, <- L2; reflexivity.
Qed.

Lemma returns_of_wp {A} (m : M A) h s v :
  outlook s = (None, None) ->
  wp m (mkWorld h s)
     (fun r w' => match r with
                  | Ret a => a = v /\ heap w' = h
                  | Throw e => raised s e
                  | Abort _ => False
                  end) ->
  returns m (mkWorld h s) v.
Proof.
  unfold wp, returns. intros Hq.
  destruct (m (mkWorld h s)) as [[a|e|x] w']; simpl.
  - intros [-> ->]. auto.
  - intros R. now apply not_raised in R.
  - contradiction.
Qed.

Lemma returns_unique {A} (m : M A) w v v' :
  returns m w v -> returns m w v' -> v = v'.
Proof. intros [H1 _] [H2 _]. congruence. Qed.

Lemma operator_eq_returns lhs rhs (w : World) :
  wf (heap w lhs) -> wf (heap w rhs) -> outlook (faults w) = (None, None) ->
  returns (operator_eq lhs rhs) w (eq_result (heap w lhs) (heap w rhs)).
Proof.
  destruct w as [h s]. cbn [heap faults]. intros H1 H2 Hq.
  apply returns_of_wp; auto.
  apply wp_operator_eq; auto using wf_coherent.
Qed.

Lemma operator_lt_returns lhs rhs (w : World) :
  wf (heap w lhs) -> wf (heap w rhs) -> outlook (faults w) = (None, None) ->
  returns (operator_lt lhs rhs) w (lt_result (heap w lhs) (heap w rhs)).
Proof.
  destruct w as [h s]. cbn [heap faults]. intros H1 H2 Hq.
  apply returns_of_wp; auto.
  apply wp_operator_lt; auto using wf_coherent.
Qed.

(** Of [q1 < q2], [q1 == q2] and [q2 < q1] exactly one is true. *)
Lemma results_trichotomy q1 q2 :
  wf q1 -> wf q2 ->
  lt_result q1 q2 = true /\ eq_result q1 q2 = false /\ lt_result q2 q1 = false \/
  lt_result q1 q2 = false /\ eq_result q1 q2 = true /\ lt_result q2 q1 = false \/
  lt_result q1 q2 = false /\ eq_result q1 q2 = false /\ lt_result q2 q1 = true.
Proof.
  intros H1 H2. rewrite !lt_result_keys by assumption.
  pose proof (eq_result_keys _ _ H1 H2) as Hk.
  destruct (ltb_seq (keys q1) (keys q2)) eqn:E1.
  - left. rewrite (ltb_seq_asym _ _ E1). repeat split.
    destruct (eq_result q1 q2); auto.
    rewrite (proj1 Hk eq_refl), ltb_seq_irrefl in E1. discriminate.
  - destruct (ltb_seq (keys q2) (keys q1)) eqn:E2.
    + right. right. repeat split.
      destruct (eq_result q1 q2); auto.
      rewrite (proj1 Hk eq_refl), ltb_seq_irrefl in E2. discriminate.
    + right. left. repeat split. apply Hk. now apply ltb_seq_total.
Qed.

(** X3: [operator<] is a strict total order on queues, the lexicographic
    order of their key sequences: with no fault scheduled it returns
    false for a queue and itself, exactly one of [a < b], [a == b] and
    [b < a] is true, and [a < b] and [b < c] give [a < c].  No queue is
    changed. *)
Theorem operator_lt_strict_total_order a b c (w : World) :
  wf (heap w a) -> wf (heap w b) -> wf (heap w c) ->
  outlook (faults w) = (None, None) ->
  returns (operator_lt a a) w false /\
  (exists ab e ba,
      returns (operator_lt a b) w ab /\
      returns (operator_eq a b) w e /\
      returns (operator_lt b a) w ba /\
      ab = ltb_seq (keys (heap w a)) (keys (heap w b)) /\
      (ab = true /\ e = false /\ ba = false \/
       ab = false /\ e = true /\ ba = false \/
       ab = false /\ e = false /\ ba = true)) /\
  (returns (operator_lt a b) w true -> returns (operator_lt b c) w true ->
   returns (operator_lt a c) w true).
Proof.
  intros Ha Hb Hc Hq.
  pose proof (operator_lt_returns a a w Ha Ha Hq) as Raa.
  pose proof (operator_lt_returns a b w Ha Hb Hq) as Rab.
  pose proof (operator_lt_returns b a w Hb Ha Hq) as Rba.
  pose proof (operator_lt_returns b c w Hb Hc Hq) as Rbc.
  pose proof (operator_lt_returns a c w Ha Hc Hq) as Rac.
  pose proof (operator_eq_returns a b w Ha Hb Hq) as Eab.
  split; [|split].
  - rewrite lt_result_keys, ltb_seq_irrefl in Raa by assumption. exact Raa.
  - exists (lt_result (heap w a) (heap w b)), (eq_result (heap w a) (heap w b)),
      (lt_result (heap w b) (heap w a)).
    split; [exact Rab|]. split; [exact Eab|]. split; [exact Rba|].
    split; [now apply lt_result_keys|]. now apply results_trichotomy.
  - intros R1 R2.
    pose proof (returns_unique _ _ _ _ Rab R1) as E1.
    pose proof (returns_unique _ _ _ _ Rbc R2) as E2.
    rewrite lt_result_keys in E1, E2, Rac by assumption.
    rewrite (ltb_seq_trans _ _ _ E1 E2) in Rac. exact Rac.
Qed.

Lemma operator_ne_returns lhs rhs (w : World) :
  wf (heap w lhs) -> wf (heap w rhs) -> outlook (faults w) = (None, None) ->
  returns (operator_ne lhs rhs) w (negb (eq_result (heap w lhs) (heap w rhs))).
Proof.
  destruct w as [h s]. cbn [heap faults]. intros H1 H2 Hq.
  apply returns_of_wp; auto. unfold operator_ne.
  apply wp_bind, wp_operator_eq; auto using wf_coherent.
  intros s' _. apply wp_ret. auto.
Qed.

Lemma operator_ge_returns lhs rhs (w : World) :
  wf (heap w lhs) -> wf (heap w rhs) -> outlook (faults w) = (None, None) ->
  returns (operator_ge lhs rhs) w (negb (lt_result (heap w lhs) (heap w rhs))).
Proof.
  destruct w as [h s]. cbn [heap faults]. intros H1 H2 Hq.
  apply returns_of_wp; auto. unfold operator_ge.
  apply wp_bind, wp_operator_lt; auto using wf_coherent.
  intros s' _. apply wp_ret. auto.
Qed.

Lemma operator_gt_returns lhs rhs (w : World) :
  wf (heap w lhs) -> wf (heap w rhs) -> outlook (faults w) = (None, None) ->
  returns (operator_gt lhs rhs) w
          (negb (eq_result (heap w lhs) (heap w rhs))
           && negb (lt_result (heap w lhs) (heap w rhs))).
Proof.
  destruct w as [h s]. cbn [heap faults]. intros H1 H2 Hq.
  apply returns_of_wp; auto. unfold operator_gt.
  apply wp_bind, wp_operator_eq; auto using wf_coherent.
  intros s' E. cbn beta iota.
  destruct (eq_result (h lhs) (h rhs)); cbn [negb andb].
  - apply wp_ret. auto.
  - apply wp_bind, wp_operator_lt; auto using wf_coherent.
    + intros s'' _. apply wp_ret. auto.
    + intros e s'' R. eapply raised_outlook; eauto.
Qed.

Lemma operator_le_returns lhs rhs (w : World) :
  wf (heap w lhs) -> wf (heap w rhs) -> outlook (faults w) = (None, None) ->
  returns (operator_le lhs rhs) w
          (eq_result (heap w lhs) (heap w rhs)
           || lt_result (heap w lhs) (heap w rhs)).
Proof.
  destruct w as [h s]. cbn [heap faults]. intros H1 H2 Hq.
  apply returns_of_wp; auto. unfold operator_le.
  apply wp_bind, wp_operator_eq; auto using wf_coherent.
  intros s' E. cbn beta iota.
  destruct (eq_result (h lhs) (h rhs)); cbn [orb].
  - apply wp_ret. auto.
  - apply wp_operator_lt; auto using wf_coherent.
    intros e s'' R. eapply raised_outlook; eauto.
Qed.

(** X4: the derived operators agree with [<] read the other way round: with
    no fault scheduled, [a > b] returns what [b < a] returns, [a <= b]
    its negation, [a >= b] the negation of [a < b] and [a != b] the
    negation of [a == b]; no queue is changed. *)
Theorem derived_operators_mirror a b (w : World) :
  wf (heap w a) -> wf (heap w b) -> outlook (faults w) = (None, None) ->
  exists ab ba e,
    returns (operator_lt a b) w ab /\
    returns (operator_lt b a) w ba /\
    returns (operator_eq a b) w e /\
    returns (operator_gt a b) w ba /\
    returns (operator_le a b) w (negb ba) /\
    returns (operator_ge a b) w (negb ab) /\
    returns (operator_ne a b) w (negb e).
Proof.
  intros Ha Hb Hq.
  pose proof (operator_lt_returns a b w Ha Hb Hq) as Rab.
  pose proof (operator_lt_returns b a w Hb Ha Hq) as Rba.
  pose proof (operator_eq_returns a b w Ha Hb Hq) as Re.
  pose proof (operator_gt_returns a b w Ha Hb Hq) as Rgt.
  pose proof (operator_le_returns a b w Ha Hb Hq) as Rle.
  pose proof (operator_ge_returns a b w Ha Hb Hq) as Rge.
  pose proof (operator_ne_returns a b w Ha Hb Hq) as Rne.
  exists (lt_result (heap w a) (heap w b)), (lt_result (heap w b) (heap w a)),
    (eq_result (heap w a) (heap w b)).
  destruct (results_trichotomy _ _ Ha Hb) as [(E1 & E2 & E3)|[(E1 & E2 & E3)|(E1 & E2 & E3)]];
    rewrite E1, E2, E3 in *; repeat split; try apply Rab; try apply Rba;
    try apply Re; try apply Rgt; try apply Rle; try apply Rge; try apply Rne.
Qed.

(** ** Construction and copies *)

Lemma allocates_ret {A} (a : A) : allocates (ret a) a.
Proof. intros h s Q H _. apply wp_ret, H; reflexivity. Qed.

Lemma allocates_bind {A B} (m : M A) (k : A -> M B) a b :
  allocates m a -> allocates (k a) b -> allocates (bind m k) b.
Proof.
  intros Hm Hk h s Q HR HT. apply wp_bind, Hm.
  - intros s' Ek E. apply Hk.
    + intros s'' Ek' E'. apply HR; congruence.
    + intros n s'' Ek' E'. apply HT; congruence.
  - intros n s' Ek E. apply HT; assumption.
Qed.

Lemma allocates_tick : allocates (tick Alloc) tt.
Proof.
  intros h s Q HR HT. unfold wp, tick. destruct s as [fk fa]. simpl.
  destruct fa as [|[n|] fa]; simpl.
  - apply HR; reflexivity.
  - apply HT; reflexivity.
  - apply HR; reflexivity.
Qed.

Lemma allocates_ms_copy l : allocates (ms_copy l) l.
Proof.
  eapply allocates_bind; [apply allocates_tick|].
  induction l as [|x l IH]; simpl.
  - apply allocates_ret.
  - eapply allocates_bind; [apply allocates_tick|].
    eapply allocates_bind; [apply IH | apply allocates_ret].
Qed.

Lemma allocates_default_ctor :
  allocates default_ctor (mkPQ (Some []) (Some []) None None).
Proof.
  unfold default_ctor, ms_new.
  eapply allocates_bind;
    [eapply allocates_bind; [apply allocates_tick | apply allocates_ret]|].
  eapply allocates_bind;
    [eapply allocates_bind; [apply allocates_tick | apply allocates_ret]|].
  apply allocates_ret.
Qed.

Lemma wp_copy_ctor_alloc queue lk lv h s Q :
  holds (h queue) lk lv ->
  (forall s', kv_faults s' = kv_faults s -> outlook s' = outlook s ->
              Q (Ret (mkPQ (Some lk) (Some lv) None None)) (mkWorld h s')) ->
  (forall n s', kv_faults s' = kv_faults s -> snd (outlook s) = Some n ->
                Q (Throw (Fault Alloc n)) (mkWorld h s')) ->
  wp (copy_ctor queue) (mkWorld h s) Q.
Proof.
  intros [HK HV] HR HT. unfold copy_ctor.
  apply wp_bind, (wp_load queue ByK lk); auto. cbn beta iota.
  apply wp_bind, (allocates_ms_copy lk); [|exact HT].
  intros s1 Ek1 E1. cbn beta iota.
  apply wp_bind, (wp_load queue ByV lv); auto. cbn beta iota.
  apply wp_bind, (allocates_ms_copy lv).
  - intros s2 Ek2 E2. apply wp_ret, HR; congruence.
  - intros n s2 Ek2 E2. apply HT; congruence.
Qed.

(** X5: the copy constructor and copy assignment give [this] the pairs of
    [queue] and touch no other queue; they throw only when an allocation
    fails, and then change nothing; they never copy or compare a K or a
    V.  The copy compares equal to the original. *)
Theorem copy_gives_equal_queue :
  (forall this queue (w : World) lk lv r w',
      holds (heap w queue) lk lv ->
      exec (CopyCtor this queue) w = (r, w') -> copied this queue w r w') /\
  (forall this queue (w : World) lk lv r w',
      holds (heap w queue) lk lv ->
      copy_assign this queue w = (r, w') -> copied this queue w r w') /\
  (forall this queue (w : World),
      wf (heap w queue) -> pairs_by_K (heap w queue) <> None ->
      outlook (faults w) = (None, None) ->
      exists w', (copy_assign this queue ;; operator_eq this queue) w
                 = (Ret true, w')).
Proof.
  split; [|split].
  - intros this queue [h s] lk lv r w' Hh. revert r w'. unfold copied.
    cbn [heap faults] in *. apply wp_all. simpl exec.
    apply wp_bind, (wp_copy_ctor_alloc queue lk lv); [exact Hh | |].
    + intros s' Ek _. cbn beta iota. apply wp_put. intros h' H F.
      cbn [heap faults]. split; [exact Ek|]. split; [|exact F].
      rewrite H. destruct Hh as [HK HV]. unfold observable. simpl. congruence.
    + intros n s' Ek E. cbn [heap faults]. split; [exact Ek|]. eauto.
  - intros this queue [h s] lk lv r w' Hh. revert r w'. unfold copied.
    cbn [heap faults] in *. apply wp_all. unfold copy_assign.
    destruct (Nat.eqb_spec this queue) as [<-|Hne]; cbn [negb].
    { apply wp_ret. cbn [heap faults]. auto. }
    apply wp_bind, (wp_copy_ctor_alloc queue lk lv); [exact Hh | |].
    + intros s' Ek _. cbn beta iota. apply wp_bind, wp_swap_local.
      intros h' H F. cbn beta iota. apply wp_ret.
      cbn [heap faults]. split; [exact Ek|]. split; [|exact F].
      rewrite H. destruct Hh as [HK HV]. unfold observable. simpl. congruence.
    + intros n s' Ek E. cbn [heap faults]. split; [exact Ek|]. eauto.
  - intros this queue [h s] Hwf Hv Hq. cbn [heap faults] in *.
    destruct (wf_cases _ Hwf) as [(lk & lv & Hh & Hsk & Hsv & P)|[HK _]];
      [|contradiction].
    destruct ((copy_assign this queue ;; operator_eq this queue) (mkWorld h s))
      as [r w'] eqn:Hrun.
    revert r w' Hrun.
    apply (wp_all _ _ (fun r w' => exists w'', (r, w') = (Ret true, w''))).
    assert (Htrue : forall q, wf q -> eq_result q q = true)
      by (intros q Hw; now apply eq_result_keys).
    apply wp_bind. unfold copy_assign.
    destruct (Nat.eqb_spec this queue) as [<-|Hne]; cbn [negb].
    { apply wp_ret. cbn beta iota.
      apply wp_operator_eq; auto using wf_coherent.
      - intros s' _. rewrite Htrue by assumption. eauto.
      - intros e s' R. now apply not_raised in R. }
    apply wp_bind, (wp_copy_ctor queue lk lv); [exact Hh | |].
    2:{ intros e s' R. now apply not_raised in R. }
    intros s1 E1. cbn beta iota. apply wp_bind, wp_swap_local.
    intros h' H F. cbn beta iota. apply wp_ret. cbn beta iota.
    assert (Hq' : h' queue = h queue) by (apply F; congruence).
    assert (Hw' : wf (h' this)) by (rewrite H; now apply wf_fresh).
    apply wp_operator_eq.
    + apply wf_coherent, Hw'.
    + rewrite Hq'. apply wf_coherent, Hwf.
    + intros s' _. assert (E : eq_result (h' this) (h' queue) = true).
      { apply eq_result_keys; [exact Hw' | rewrite Hq'; exact Hwf |].
        rewrite Hq'. unfold keys. rewrite H. simpl.
        destruct Hh as [-> _]. reflexivity. }
      rewrite E. eauto.
    + intros e s' R. exfalso. eapply not_raised; [exact Hq|].
      eapply raised_outlook; eauto.
Qed.

(** ** Moves and swap *)

Lemma size_moved_from this (w : World) :
  observable (heap w this) = (None, None) ->
  size this w = (Ret 0, w) /\ empty this w = (Ret true, w).
Proof.
  intros E. unfold observable in E. injection E as HK HV.
  assert (Hc : coherent (heap w this)) by (unfold coherent; now rewrite HK).
  rewrite (size_run _ _ Hc), (empty_run _ _ Hc). unfold size_of. rewrite HK.
  auto.
Qed.

Lemma moved_of_wp this queue h s h' :
  observable (h' this) = observable (h queue) ->
  (this <> queue -> observable (h' queue) = (None, None)) ->
  (forall a, a <> this -> a <> queue -> h' a = h a) ->
  moved this queue (mkWorld h s) (mkWorld h' s).
Proof.
  intros H1 H2 H3. unfold moved. cbn [heap faults].
  split; [reflexivity|]. split; [exact H1|]. split; [|exact H3].
  intros Hne. split; [auto|].
  apply (size_moved_from queue (mkWorld h' s)). cbn [heap]. auto.
Qed.

(** X6: move assignment and move construction always return, whatever the
    schedule and the queues: [this] receives the indexes of [queue],
    which is left without indexes and reports size 0; a queue
    move-assigned to itself keeps its indexes. *)
Theorem move_empties_the_source :
  (forall this queue (w : World),
      exists w', move_assign this queue w = (Ret tt, w') /\
                 moved this queue w w') /\
  (forall this queue (w : World),
      this <> queue ->
      exists w', move_ctor this queue w = (Ret tt, w') /\
                 moved this queue w w').
Proof.
  split.
  - intros this queue [h s].
    destruct (move_assign this queue (mkWorld h s)) as [r w'] eqn:Hrun.
    revert r w' Hrun.
    apply (wp_all _ _ (fun r w' =>
             exists w'', (r, w') = (Ret tt, w'') /\
                         moved this queue (mkWorld h s) w'')).
    apply wp_move_assign. intros h' H1 H2 H3.
    eexists. split; [reflexivity|]. now apply moved_of_wp.
  - intros this queue [h s] Hne.
    destruct (move_ctor this queue (mkWorld h s)) as [r w'] eqn:Hrun.
    revert r w' Hrun.
    apply (wp_all _ _ (fun r w' =>
             exists w'', (r, w') = (Ret tt, w'') /\
                         moved this queue (mkWorld h s) w'')).
    unfold move_ctor. apply wp_noexcept, wp_bind, wp_put.
    intros h1 E1 F1. cbn beta iota. apply wp_move_assign. intros h' H1 H2 H3.
    eexists. split; [reflexivity|].
    assert (Hq : h1 queue = h queue) by (apply F1; congruence).
    apply moved_of_wp; auto.
    + now rewrite <- Hq.
    + intros a Ha Ha'. rewrite H3, F1; auto.
Qed.

(** What a swap leaves behind. *)
Lemma wp_swap this queue h s Q :
  (forall h',
      observable (h' this) = observable (h queue) ->
      observable (h' queue) = observable (h this) ->
      (forall a, a <> this -> a <> queue -> h' a = h a) ->
      Q (Ret tt) (mkWorld h' s)) ->
  wp (swap this queue) (mkWorld h s) Q.
Proof.
  intros HQ. unfold swap. apply wp_noexcept.
  destruct (Nat.eqb_spec this queue) as [<-|Hne]; cbn [negb].
  { apply wp_ret, HQ; auto. }
  apply wp_bind, wp_get. cbn beta iota. apply wp_bind, wp_get. cbn beta iota.
  apply wp_bind, wp_put. intros h1 H1 F1. cbn beta iota.
  apply wp_put. intros h2 H2 F2. apply HQ.
  - rewrite F2, H1 by congruence. reflexivity.
  - rewrite H2. reflexivity.
  - intros a Ha Ha'. rewrite F2, F1; auto.
Qed.

(** X7: [swap], as a member and as a free function, always returns and
    exchanges the indexes of the two queues, touching no other queue and
    no schedule; swapping twice gives back the queues one started with. *)
Theorem swap_exchanges_indexes :
  (forall this queue (w : World),
      exists w',
        swap this queue w = (Ret tt, w') /\
        swap_free this queue w = (Ret tt, w') /\
        faults w' = faults w /\
        observable (heap w' this) = observable (heap w queue) /\
        observable (heap w' queue) = observable (heap w this) /\
        (forall a, a <> this -> a <> queue -> heap w' a = heap w a)) /\
  (forall this queue (w : World),
      exists w',
        (swap this queue ;; swap this queue) w = (Ret tt, w') /\
        unchanged (heap w) (heap w')).
Proof.
  split.
  - intros this queue [h s].
    assert (H : wp (swap this queue) (mkWorld h s)
                  (fun r w' =>
                     r = Ret tt /\ faults w' = s /\
                     observable (heap w' this) = observable (h queue) /\
                     observable (heap w' queue) = observable (h this) /\
                     (forall a, a <> this -> a <> queue -> heap w' a = h a))).
    { apply wp_swap. intros h' H1 H2 H3. cbn [heap faults]. auto. }
    unfold wp in H. unfold swap_free, noexcept.
    destruct (swap this queue (mkWorld h s)) as [r w']. simpl in H.
    destruct H as (-> & H). exists w'. cbn [heap faults]. auto.
  - intros this queue [h s].
    destruct ((swap this queue ;; swap this queue) (mkWorld h s))
      as [r w'] eqn:Hrun.
    revert r w' Hrun.
    apply (wp_all _ _ (fun r w' =>
             exists w'', (r, w') = (Ret tt, w'') /\ unchanged h (heap w''))).
    apply wp_bind, wp_swap. intros h1 A1 A2 A3. cbn beta iota.
    apply wp_swap. intros h2 B1 B2 B3.
    eexists. split; [reflexivity|]. cbn [heap]. intros a.
    destruct (Nat.eq_dec a this) as [->|Ha]; [congruence|].
    destruct (Nat.eq_dec a queue) as [->|Ha']; [congruence|].
    rewrite B3, A3; auto.
Qed.

(** ** A queue that was moved from *)

Lemma accessors_throw_on_empty this (w : World) :
  coherent (heap w this) -> size_of (heap w this) = 0 ->
  minValue this w = (Throw PQEmptyEx, w) /\
  maxValue this w = (Throw PQEmptyEx, w) /\
  minKey this w = (Throw PQEmptyEx, w) /\
  maxKey this w = (Throw PQEmptyEx, w).
Proof.
  intros Hc E. unfold minValue, maxValue, minKey, maxKey, bind.
  rewrite (empty_run this w Hc), E. repeat split.
Qed.

(** X8: a queue without indexes behaves as an empty one where the code
    tests [empty()] first: size() is 0, deleteMin and deleteMax do
    nothing, the accessors and changeValue throw PQEmptyEx, and it
    compares equal to an empty queue.  insert dereferences the null
    pointer. *)
Theorem moved_from_queue_acts_empty this (w : World) :
  observable (heap w this) = (None, None) ->
  size this w = (Ret 0, w) /\
  empty this w = (Ret true, w) /\
  deleteMin this w = (Ret tt, w) /\
  deleteMax this w = (Ret tt, w) /\
  minValue this w = (Throw PQEmptyEx, w) /\
  maxValue this w = (Throw PQEmptyEx, w) /\
  minKey this w = (Throw PQEmptyEx, w) /\
  maxKey this w = (Throw PQEmptyEx, w) /\
  (outlook (faults w) = (None, None) ->
   (forall key value,
       exists w', changeValue this key value w = (Throw PQEmptyEx, w') /\
                  heap w' = heap w) /\
   (forall key value,
       exists w', insert this key value w = (Abort NullDeref, w')) /\
   (forall other,
       holds (heap w other) [] [] ->
       returns (operator_eq this other) w true /\
       returns (operator_lt this other) w false /\
       returns (operator_lt other this) w false)).
Proof.
  intros E. pose proof E as E'. unfold observable in E'. injection E' as HK HV.
  assert (Hwf : wf (heap w this)) by (unfold wf; now rewrite HK, HV).
  pose proof (wf_coherent _ Hwf) as Hc.
  assert (Hz : size_of (heap w this) = 0) by (unfold size_of; now rewrite HK).
  destruct (size_moved_from this w E) as [H1 H2].
  destruct (delete_empty this w Hwf Hz) as [H3 H4].
  destruct (accessors_throw_on_empty this w Hc Hz) as (H5 & H6 & H7 & H8).
  repeat (split; [assumption|]).
  intros Hq. split; [|split].
  - intros key value. destruct w as [h s]. cbn [heap faults] in *.
    destruct (changeValue this key value (mkWorld h s)) as [r w'] eqn:Hrun.
    revert r w' Hrun.
    apply (wp_all _ _ (fun r w' =>
             exists w'', (r, w') = (Throw PQEmptyEx, w'') /\ heap w'' = h)).
    apply wp_changeValue; [exact Hwf | | | |].
    + intros s' _ _. eexists. split; reflexivity.
    + intros lk lv s' _ [Hh _]. congruence.
    + intros lk lv old h' s' _ [Hh _]. congruence.
    + intros e h' s' R. now apply not_raised in R.
  - intros key value. destruct w as [h s]. cbn [heap faults] in *.
    destruct (insert this key value (mkWorld h s)) as [r w'] eqn:Hrun.
    revert r w' Hrun.
    apply (wp_all _ _ (fun r w' => exists w'', (r, w') = (Abort NullDeref, w''))).
    apply wp_insert_null; [exact HK | eauto |].
    intros e s' R. now apply not_raised in R.
  - intros other Hh.
    assert (Hwo : wf (heap w other)) by apply wf_nil, Hh.
    pose proof (operator_eq_returns this other w Hwf Hwo Hq) as R1.
    pose proof (operator_lt_returns this other w Hwf Hwo Hq) as R2.
    pose proof (operator_lt_returns other this w Hwo Hwf Hq) as R3.
    unfold eq_result, lt_result in *.
    rewrite Hz, (holds_size_of _ _ _ Hh) in *. simpl in *. auto.
Qed.

(** ** Iterators and assertions in reachable states *)

Lemma harmless_discard {A} (m : M A) h s :
  wp m (mkWorld h s) (keeps h) -> wp (discard m) (mkWorld h s) (harmless h s).
Proof.
  intros Hm. unfold discard. apply wp_bind.
  eapply wp_mono; [exact Hm|]. intros [a|e|x] w1; simpl; intros H;
    [apply wp_ret; exact I | exact I | contradiction].
Qed.

Ltac trivially := intros; exact I.

Lemma exec_harmless c h s : all_wf h -> wp (exec c) (mkWorld h s) (harmless h s).
Proof.
  intros Hwf.
  assert (Hc : forall a, coherent (h a)) by (intros a; apply wf_coherent, Hwf).
  assert (Hnull : forall a (w' : World),
             pairs_by_K (h a) = None -> harmless h s (@Abort unit NullDeref) w').
  { intros a w' Ha. left. eauto. }
  destruct c; simpl exec.
  - apply wp_bind, (wp_reads _ _ _ _ _ reads_default_ctor); [|trivially].
    intros s' _. apply wp_put. trivially.
  - destruct (wf_cases _ (Hwf queue)) as [(lk & lv & Hh & _)|[HK _]].
    + apply wp_bind, (wp_copy_ctor queue lk lv); [exact Hh | | trivially].
      intros s' _. apply wp_put. trivially.
    + apply wp_bind, wp_copy_ctor_null; [exact HK | eapply Hnull, HK].
  - unfold move_ctor. apply wp_noexcept, wp_bind, wp_put. intros h1 _ _.
    apply wp_move_assign. trivially.
  - unfold copy_assign. destruct (negb (this =? queue)); [|apply wp_ret; exact I].
    destruct (wf_cases _ (Hwf queue)) as [(lk & lv & Hh & _)|[HK _]].
    + apply wp_bind, (wp_copy_ctor queue lk lv); [exact Hh | | trivially].
      intros s' _. apply wp_bind, wp_swap_local. intros h' _ _.
      apply wp_ret. exact I.
    + apply wp_bind, wp_copy_ctor_null; [exact HK | eapply Hnull, HK].
  - apply wp_move_assign. trivially.
  - apply harmless_discard, keeps_size, Hc.
  - apply harmless_discard, keeps_empty, Hc.
  - destruct (wf_cases _ (Hwf this)) as [(lk & lv & Hh & _)|[HK _]].
    + apply (wp_insert this key value lk lv); [exact Hh | trivially | trivially].
    + apply wp_insert_null; [exact HK | | trivially].
      intros s'. eapply Hnull, HK.
  - apply harmless_discard, keeps_minValue, Hc.
  - apply harmless_discard, keeps_maxValue, Hc.
  - apply harmless_discard, keeps_minKey, Hc.
  - apply harmless_discard, keeps_maxKey, Hc.
  - apply wp_deleteMin; [apply Hwf | trivially..].
  - apply wp_deleteMax; [apply Hwf | trivially..].
  - apply wp_changeValue; [apply Hwf | trivially..].
  - destruct (Nat.eq_dec this queue) as [<-|Hne]; [apply wp_merge_self; exact I|].
    destruct (wf_cases _ (Hwf this)) as [(lk & lv & Hh & _)|[HK _]].
    2:{ apply wp_merge_null; auto; [|trivially]. intros s'. eapply Hnull, HK. }
    destruct (wf_cases _ (Hwf queue)) as [(lk' & lv' & Hh' & _)|[HK' _]].
    2:{ apply wp_merge_null; auto; [|trivially]. intros s'. eapply Hnull, HK'. }
    apply (wp_merge this queue lk lv lk' lv'); auto; [trivially..|].
    intros n h' s' E. right. split; [reflexivity|]. unfold alloc_quiet. congruence.
  - apply wp_swap. trivially.
  - apply harmless_discard, keeps_operator_eq; apply Hc.
  - apply harmless_discard, keeps_operator_ne; apply Hc.
  - apply harmless_discard, keeps_operator_lt; apply Hc.
  - apply harmless_discard, keeps_operator_gt; apply Hc.
  - apply harmless_discard, keeps_operator_le; apply Hc.
  - apply harmless_discard, keeps_operator_ge; apply Hc.
Qed.

(** X9: in every run of public calls from a store that satisfies the
    invariant, no call erases through an iterator that designates no
    element or reads one, and the [assert] of size() and of operator<
    never fails.  A call aborts only by dereferencing the null pointer of
    a queue that was moved from, or by std::terminate when an
    allocation fails. *)
Theorem iterators_and_assertions_hold (w : World) :
  all_wf (heap w) ->
  (forall cs, well_behaved (fst (run_calls cs w))) /\
  (forall c, harmless (heap w) (faults w) (fst (exec c w)) (snd (exec c w))).
Proof.
  intros Hwf. split.
  - intros cs. revert w Hwf. induction cs as [|c cs IH]; intros [h s] Hwf.
    + constructor.
    + simpl run_calls. cbn [heap] in Hwf.
      pose proof (exec_effect c h s Hwf) as He.
      pose proof (exec_harmless c h s Hwf) as Hh.
      unfold wp in He, Hh.
      destruct (exec c (mkWorld h s)) as [[[]|e|x] w1]; simpl in He, Hh |- *.
      * constructor; [split; discriminate|]. apply IH, He.
      * constructor; [split; discriminate|]. apply IH.
        eapply unchanged_wf; eauto.
      * constructor; [|constructor].
        destruct Hh as [[-> _]|[-> _]]; split; discriminate.
  - intros c. destruct w as [h s]. apply (exec_harmless c h s Hwf).
Qed.

(** ** Emptying a queue from the least value *)

Lemma sorted_values lv :
  sorted ByV lv -> StronglySorted (fun a b => op_lt b a = false) (map snd lv).
Proof.
  unfold sorted. induction 1 as [|x l Hs IH Hx]; simpl; constructor; auto.
  rewrite Forall_forall in *. intros v Hv.
  apply in_map_iff in Hv. destruct Hv as (y & <- & Hy).
  specialize (Hx y Hy). simpl in Hx. unfold cmp_snd in Hx.
  destruct (op_eq (snd y) (snd x)) eqn:E; simpl in Hx; auto.
  apply op_eq_spec in E. rewrite E. apply op_lt_irrefl.
Qed.

Lemma wp_drain this lv : forall lk h s Q,
  holds (h this) lk lv ->
  sorted ByK lk -> sorted ByV lv -> Permutation lk lv ->
  outlook s = (None, None) ->
  (forall h' s', outlook s' = outlook s -> holds (h' this) [] [] ->
                 only this h h' -> Q (Ret (map snd lv)) (mkWorld h' s')) ->
  wp (drain this (length lv)) (mkWorld h s) Q.
Proof.
  induction lv as [|x lv IH]; intros lk h s Q Hh Hsk Hsv P Hs HQ.
  - simpl. apply wp_ret. apply Permutation_sym, Permutation_nil in P. subst lk.
    apply HQ; auto using only_refl.
  - assert (Hwf : wf (h this)) by (eapply wf_holds; eauto).
    pose proof (wf_coherent _ Hwf) as Hc.
    assert (Hsz : size_of (h this) = S (length lv)).
    { unfold size_of. destruct Hh as [-> ->].
      apply Permutation_length in P. exact P. }
    simpl drain. apply wp_bind, wp_minValue; [exact Hc | lia |].
    intros lk0 lv0 x0 [HK0 HV0] Hx0.
    destruct Hh as [HK HV]. rewrite HV in HV0. injection HV0 as <-.
    simpl in Hx0. injection Hx0 as <-.
    apply wp_bind, wp_deleteMin; [exact Hwf | lia | |].
    + intros lk1 lv1 x1 h' s' [HK1 HV1] Hx1 Hs' Hh' F.
      rewrite HV in HV1. injection HV1 as <-. rewrite HK in HK1. injection HK1 as <-.
      simpl in Hx1. injection Hx1 as <-.
      change (erase_at 0 (x :: lv)) with lv in Hh'.
      assert (Hwf' : wf (h' this)).
      { eapply (wf_erased lk (x :: lv) x 0); eauto. }
      destruct (holds_wf _ _ _ Hh' Hwf') as (Hsk' & Hsv' & P').
      apply wp_bind, (IH _ h' s' _ Hh' Hsk' Hsv' P'); [congruence|].
      intros h'' s'' Hs'' Hh'' F'. apply wp_ret. simpl map.
      apply HQ; [congruence | exact Hh'' | eapply only_trans; eauto].
    + intros e s' R. destruct (not_raised _ _ Hs R).
Qed.

(** X10: with no fault scheduled, reading minValue() and calling deleteMin()
    as many times as the queue has pairs returns the values of the
    queue in nondecreasing order, each as often as it is stored, empties
    the queue and leaves every other queue as it is. *)
Theorem drain_returns_values_in_order this (w : World) lk lv :
  wf (heap w this) -> holds (heap w this) lk lv ->
  outlook (faults w) = (None, None) ->
  exists w',
    drain this (size_of (heap w this)) w = (Ret (map snd lv), w') /\
    StronglySorted (fun a b => op_lt b a = false) (map snd lv) /\
    Permutation (map snd lk) (map snd lv) /\
    holds (heap w' this) [] [] /\
    size this w' = (Ret 0, w') /\
    (forall a, a <> this -> heap w' a = heap w a).
Proof.
  destruct w as [h s]. cbn [heap faults]. intros Hwf Hh Hs.
  destruct (holds_wf _ _ _ Hh Hwf) as (Hsk & Hsv & P).
  assert (Hsz : size_of (h this) = length lv).
  { unfold size_of. destruct Hh as [-> ->]. apply Permutation_length, P. }
  rewrite Hsz.
  assert (H : wp (drain this (length lv)) (mkWorld h s)
                (fun r w' => r = Ret (map snd lv) /\ holds (heap w' this) [] [] /\
                             only this h (heap w'))).
  { apply (wp_drain this lv lk); auto. }
  unfold wp in H. destruct (drain this (length lv) (mkWorld h s)) as [r w'].
  simpl in H. destruct H as (-> & Hh' & F).
  exists w'. repeat split; auto.
  - apply sorted_values, Hsv.
  - apply Permutation_map, P.
  - apply Hh'.
  - apply Hh'.
  - apply (holds_size_run this w' [] []); auto.
Qed.

(** ** Inserting an extreme pair and deleting it again *)

Lemma erase_inserted key value lk lv p q :
  sorted ByK lk -> sorted ByV lv -> Permutation lk lv ->
  nth_error (inserted ByV (key, value) lv) p = Some (key, value) ->
  holds q (erase_at (find_of cmp_fst (key, value) (inserted ByK (key, value) lk))
                    (inserted ByK (key, value) lk))
          (erase_at p (inserted ByV (key, value) lv)) ->
  holds q lk lv.
Proof.
  intros Hsk Hsv P Hp Hh.
  set (x := (key, value)) in *.
  assert (Hwf : wf q).
  { eapply (wf_erased (inserted ByK x lk) (inserted ByV x lv) x p); eauto.
    - apply sorted_inserted, Hsk.
    - apply sorted_inserted, Hsv.
    - rewrite <- !Permutation_inserted. now constructor. }
  destruct (holds_wf _ _ _ Hh Hwf) as (Hsk' & Hsv' & P').
  assert (Pv : Permutation lv (erase_at p (inserted ByV x lv))).
  { apply (Permutation_cons_inv (a := x)).
    rewrite <- (Permutation_erase_at p x _ Hp). apply Permutation_inserted. }
  assert (Ev : erase_at p (inserted ByV x lv) = lv).
  { symmetry. apply (sorted_unique ByV); auto. }
  rewrite Ev in *.
  assert (Ek : erase_at (find_of cmp_fst x (inserted ByK x lk)) (inserted ByK x lk) = lk).
  { symmetry. apply (sorted_unique ByK); auto.
    eapply Permutation_trans; [exact P|]. symmetry. exact P'. }
  rewrite Ek in Hh. exact Hh.
Qed.

Lemma first_inserted x y lv :
  sorted ByV lv -> (forall z, In z lv -> cmp_snd x z = true) ->
  nth_error (inserted ByV x lv) 0 = Some y -> y = x.
Proof.
  intros Hsv Hlow Hy.
  assert (Hin : In y (x :: lv)).
  { eapply Permutation_in; [symmetry; apply (Permutation_inserted ByV)|].
    eapply nth_error_In, Hy. }
  destruct Hin as [<-|Hin]; [reflexivity|].
  assert (Hx : In x (inserted ByV x lv)).
  { eapply Permutation_in; [apply Permutation_inserted|]. now left. }
  apply In_nth_error in Hx. destruct Hx as [j Hj].
  pose proof (sorted_nth_le ByV _ 0 j y x (sorted_inserted ByV x lv Hsv)
                (Nat.le_0_l j) Hy Hj) as H.
  simpl in H. rewrite (Hlow y Hin) in H. discriminate.
Qed.

Lemma last_inserted x y lv :
  sorted ByV lv -> (forall z, In z lv -> cmp_snd z x = true) ->
  nth_error (inserted ByV x lv) (length (inserted ByV x lv) - 1) = Some y -> y = x.
Proof.
  intros Hsv Hhigh Hy.
  assert (Hin : In y (x :: lv)).
  { eapply Permutation_in; [symmetry; apply (Permutation_inserted ByV)|].
    eapply nth_error_In, Hy. }
  destruct Hin as [<-|Hin]; [reflexivity|].
  assert (Hx : In x (inserted ByV x lv)).
  { eapply Permutation_in; [apply Permutation_inserted|]. now left. }
  pose proof (sorted_last ByV _ y x (sorted_inserted ByV x lv Hsv) Hy Hx) as H.
  simpl in H. rewrite (Hhigh y Hin) in H. discriminate.
Qed.

(** X11: with no fault scheduled, insert(key, value) followed by deleteMin()
    gives the queue back when the new pair goes before every stored pair
    in the value index (a smaller value, or the same value and a smaller
    key), and so does insert followed by deleteMax() when it goes after
    every stored pair; no other queue changes. *)
Theorem insert_then_delete_restores this key value (w : World) lk lv :
  wf (heap w this) -> holds (heap w this) lk lv ->
  outlook (faults w) = (None, None) ->
  ((forall z, In z lv -> cmp_snd (key, value) z = true) ->
   exists w', bind (insert this key value) (fun _ => deleteMin this) w = (Ret tt, w') /\
              holds (heap w' this) lk lv /\
              forall a, a <> this -> heap w' a = heap w a) /\
  ((forall z, In z lv -> cmp_snd z (key, value) = true) ->
   exists w', bind (insert this key value) (fun _ => deleteMax this) w = (Ret tt, w') /\
              holds (heap w' this) lk lv /\
              forall a, a <> this -> heap w' a = heap w a).
Proof.
  destruct w as [h s]. cbn [heap faults]. intros Hwf Hh Hs.
  destruct (holds_wf _ _ _ Hh Hwf) as (Hsk & Hsv & P).
  split; intros Hext.
  - assert (H : wp (bind (insert this key value) (fun _ => deleteMin this)) (mkWorld h s)
                  (fun r w' => r = Ret tt /\ holds (heap w' this) lk lv /\
                               only this h (heap w'))).
    { apply wp_bind, (wp_insert this key value lk lv); [exact Hh | |].
      - intros h1 s1 E1 Hh1 _ _ F1. rewrite stored_pair_eq in Hh1.
        assert (Hwf1 : wf (h1 this)) by (eapply wf_inserted; eauto).
        apply wp_deleteMin; [exact Hwf1 | | |].
        + unfold size_of. destruct Hh1 as [-> ->]. rewrite length_inserted. discriminate.
        + intros lk1 lv1 x h2 s2 [HK1 HV1] Hx E2 Hh2 F2.
          destruct Hh1 as [HK HV]. rewrite HK in HK1. rewrite HV in HV1.
          injection HK1 as <-. injection HV1 as <-.
          pose proof (first_inserted _ _ _ Hsv Hext Hx) as ->.
          cbn [heap]. repeat split.
          * eapply erase_inserted; eauto.
          * eapply erase_inserted; eauto.
          * eapply only_trans; eauto.
        + intros e s' R. destruct (not_raised s1 e); [congruence | exact R].
      - intros e h' s' R _. destruct (not_raised _ _ Hs R). }
    unfold wp in H. destruct (bind _ _ _) as [r w']. simpl in H.
    destruct H as (-> & Hh' & F). eauto.
  - assert (H : wp (bind (insert this key value) (fun _ => deleteMax this)) (mkWorld h s)
                  (fun r w' => r = Ret tt /\ holds (heap w' this) lk lv /\
                               only this h (heap w'))).
    { apply wp_bind, (wp_insert this key value lk lv); [exact Hh | |].
      - intros h1 s1 E1 Hh1 _ _ F1. rewrite stored_pair_eq in Hh1.
        assert (Hwf1 : wf (h1 this)) by (eapply wf_inserted; eauto).
        apply wp_deleteMax; [exact Hwf1 | | |].
        + unfold size_of. destruct Hh1 as [-> ->]. rewrite length_inserted. discriminate.
        + intros lk1 lv1 x h2 s2 [HK1 HV1] Hx E2 Hh2 F2.
          destruct Hh1 as [HK HV]. rewrite HK in HK1. rewrite HV in HV1.
          injection HK1 as <-. injection HV1 as <-.
          pose proof (last_inserted _ _ _ Hsv Hext Hx) as ->.
          cbn [heap]. repeat split.
          * eapply erase_inserted; eauto.
          * eapply erase_inserted; eauto.
          * eapply only_trans; eauto.
        + intros e s' R. destruct (not_raised s1 e); [congruence | exact R].
      - intros e h' s' R _. destruct (not_raised _ _ Hs R). }
    unfold wp in H. destruct (bind _ _ _) as [r w']. simpl in H.
    destruct H as (-> & Hh' & F). eauto.
Qed.

(** ** A newly constructed queue *)

(** X12: the default constructor gives an empty queue: size() is 0, empty()
    holds and the four accessors throw PQEmptyEx.  It throws only when
    one of its two allocations fails, the exception of the allocator,
    and then the store is as before; it never aborts, runs no operation
    of K or V, and touches no other queue.  It returns when no
    allocation fails. *)
Theorem default_ctor_gives_empty_queue this (w : World) r w' :
  exec (DefaultCtor this) w = (r, w') ->
  kv_faults (faults w') = kv_faults (faults w) /\
  (alloc_quiet (faults w) -> r = Ret tt) /\
  match r with
  | Ret _ =>
      holds (heap w' this) [] [] /\
      size this w' = (Ret 0, w') /\ empty this w' = (Ret true, w') /\
      minValue this w' = (Throw PQEmptyEx, w') /\
      maxValue this w' = (Throw PQEmptyEx, w') /\
      minKey this w' = (Throw PQEmptyEx, w') /\
      maxKey this w' = (Throw PQEmptyEx, w') /\
      (forall a, a <> this -> heap w' a = heap w a)
  | Throw e =>
      (exists n, e = Fault Alloc n /\ snd (outlook (faults w)) = Some n) /\
      heap w' = heap w
  | Abort _ => False
  end.
Proof.
  destruct w as [h s]. revert r w'. cbn [heap faults]. apply wp_all.
  simpl exec. apply wp_bind, allocates_default_ctor.
  - intros s' Ek E. apply wp_put. intros h' H F. cbn [heap faults].
    assert (Hh : holds (h' this) [] []) by (rewrite H; split; reflexivity).
    assert (Hc : coherent (h' this)) by (rewrite H; reflexivity).
    assert (Hz : size_of (h' this) = 0) by (rewrite H; reflexivity).
    split; [exact Ek|]. split; [reflexivity|].
    split; [exact Hh|].
    split; [apply (holds_size_run this (mkWorld h' s') [] []); auto|].
    split; [rewrite (empty_run this (mkWorld h' s')) by exact Hc;
            cbn [heap]; now rewrite Hz|].
    destruct (accessors_throw_on_empty this (mkWorld h' s') Hc Hz)
      as (H1 & H2 & H3 & H4).
    auto 10.
  - intros n s' Ek E. cbn [heap faults]. split; [exact Ek|]. split.
    + unfold alloc_quiet. intros Hq. congruence.
    + split; eauto.
Qed.

End Ordered.

End Queue.

(** * The queue of integers: concrete runs *)

#[export] Instance ElemLaws_Z : ElemLaws Z.
Proof.
  split; simpl.
  - intros a b. apply Z.eqb_eq.
  - intros a. apply Z.ltb_irrefl.
  - intros a b c H1 H2. apply Z.ltb_lt in H1, H2. apply Z.ltb_lt. lia.
  - intros a b H1 H2. apply Z.ltb_ge in H1, H2. lia.
Qed.

(** A queue of integers with the given indexes. *)
Definition queue_of (lk lv : list (Z * Z)) : @PriorityQueue Z Z :=
  mkPQ (Some lk) (Some lv) None None.

(** A schedule without faults. *)
Definition no_faults : schedule := mkSched [] [].

(** A world whose queues are all empty. *)
Definition empty_world : @World Z Z := mkWorld (fun _ => queue_of [] []) no_faults.

(** The queue that holds (1, 10) and (2, 5). *)
Definition two_pairs : @PriorityQueue Z Z :=
  queue_of [(1, 10); (2, 5)]%Z [(2, 5); (1, 10)]%Z.

(** A store with [two_pairs] at address 0, the queue of (3, 1) at
    address 1 and empty queues elsewhere. *)
Definition sample_heap : addr -> @PriorityQueue Z Z :=
  upd (upd (fun _ => queue_of [] []) 1 (queue_of [(3, 1)]%Z [(3, 1)]%Z)) 0 two_pairs.

Definition sample_world : @World Z Z := mkWorld sample_heap no_faults.

(** The same store, with the first operation of K or V set to throw. *)
Definition faulty_world : @World Z Z := mkWorld sample_heap (mkSched [Some 7] []).

Lemma run_fst {A} (m : @M Z Z A) w r : fst (m w) = r -> m w = (r, snd (m w)).
Proof. intros <-. apply surjective_pairing. Defined.

Lemma wf_two_pairs : wf two_pairs.
Proof.
  unfold wf, two_pairs, queue_of, sorted. simpl.
  repeat split; repeat constructor.
Defined.

Lemma all_wf_sample : all_wf sample_heap.
Proof.
  intros [|[|a]]; [exact wf_two_pairs | |];
    unfold wf, sorted; simpl; repeat split; repeat constructor.
Defined.

Lemma holds_sample : holds (sample_heap 0) [(1, 10); (2, 5)]%Z [(2, 5); (1, 10)]%Z.
Proof. split; reflexivity. Defined.

Lemma value_index_sample : [(2, 5); (1, 10)]%Z <> @nil (Z * Z).
Proof. discriminate. Defined.

Lemma accessors_first_last_witness :
  wf (heap sample_world 0) /\
  holds (heap sample_world 0) [(1, 10); (2, 5)]%Z [(2, 5); (1, 10)]%Z /\
  [(2, 5); (1, 10)]%Z <> @nil (Z * Z) /\
  empty 0 sample_world = (Ret false, sample_world) /\
  minValue 0 sample_world = (Ret 5%Z, sample_world) /\
  maxValue 0 sample_world = (Ret 10%Z, sample_world) /\
  minKey 0 sample_world = (Ret 2%Z, sample_world) /\
  maxKey 0 sample_world = (Ret 1%Z, sample_world).
Proof.
  split; [exact wf_two_pairs|]. split; [exact holds_sample|].
  split; [exact value_index_sample|].
  destruct (proj1 (proj2 (accessors_first_last 0 sample_world wf_two_pairs))
              _ _ holds_sample value_index_sample)
    as (first & last & Hf & Hl & He & H1 & H2 & H3 & H4 & _).
  injection Hf as <-. injection Hl as <-.
  split; [exact He|]. split; [exact H1|]. split; [exact H2|].
  split; [exact H3|exact H4].
Defined.

(** Four calls, the first of which throws. *)
Definition sample_calls : list (@call Z Z) :=
  [Insert 0 3%Z 1%Z; DeleteMin 0; ChangeValue 0 9%Z 9%Z; Merge 1 0].

Lemma completes_sample : completes (fst (run_calls sample_calls faulty_world)).
Proof. vm_compute. repeat constructor. Defined.

Lemma indexes_stay_in_sync_witness :
  all_wf (heap faulty_world) /\
  completes (fst (run_calls sample_calls faulty_world)) /\
  forall a lk lv,
    holds (heap (snd (run_calls sample_calls faulty_world)) a) lk lv ->
    length lk = length lv /\ Permutation lk lv.
Proof.
  split; [exact all_wf_sample|]. split; [exact completes_sample|].
  exact (proj2 (indexes_stay_in_sync sample_calls faulty_world _ _
                  all_wf_sample (surjective_pairing _) completes_sample)).
Defined.

Lemma changeValue_on_empty_queue_witness :
  holds (heap empty_world 0) [] [] /\
  outlook (faults empty_world) = (None, None) /\
  exists w', changeValue 0 1%Z 20%Z empty_world = (Throw PQEmptyEx, w') /\
             heap w' = heap empty_world.
Proof.
  assert (H1 : holds (heap empty_world 0) [] []) by (split; reflexivity).
  assert (H2 : outlook (faults empty_world) = (None, None)) by reflexivity.
  split; [exact H1|]. split; [exact H2|].
  exact (changeValue_on_empty_queue 0 1%Z 20%Z empty_world H1 H2).
Defined.

Lemma insert_adds_one_pair_witness :
  holds (heap sample_world 0) [(1, 10); (2, 5)]%Z [(2, 5); (1, 10)]%Z /\
  fst (insert 0 1%Z 20%Z sample_world) = Ret tt /\
  size 0 (snd (insert 0 1%Z 20%Z sample_world))
  = (Ret 3, snd (insert 0 1%Z 20%Z sample_world)).
Proof.
  assert (Hrun : fst (insert 0 1%Z 20%Z sample_world) = Ret tt) by reflexivity.
  split; [exact holds_sample|]. split; [exact Hrun|].
  destruct (proj1 insert_adds_one_pair 0 1%Z 20%Z sample_world _ _ _
              holds_sample eq_refl (run_fst _ _ _ Hrun))
    as (lk' & lv' & _ & _ & _ & _ & H & _).
  exact H.
Defined.

Lemma holds_sample_1 : holds (sample_heap 1) [(3, 1)]%Z [(3, 1)]%Z.
Proof. split; reflexivity. Defined.

Lemma merge_moves_all_pairs_witness :
  0 <> 1 /\
  fst (merge 0 1 sample_world) = Ret tt /\
  exists lk2 lv2,
    holds (heap (snd (merge 0 1 sample_world)) 0) lk2 lv2 /\
    Permutation lk2 ([(1, 10); (2, 5)] ++ [(3, 1)])%Z /\
    empty 1 (snd (merge 0 1 sample_world))
    = (Ret true, snd (merge 0 1 sample_world)).
Proof.
  assert (Hne : 0 <> 1) by discriminate.
  assert (Hrun : fst (merge 0 1 sample_world) = Ret tt) by reflexivity.
  split; [exact Hne|]. split; [exact Hrun|].
  pose proof (proj1 merge_moves_all_pairs 0 1 sample_world _ _ _ _ _ _
                Hne holds_sample eq_refl holds_sample_1 eq_refl
                (run_fst _ _ _ Hrun)) as H.
  cbv beta iota in H.
  destruct H as (lk2 & lv2 & H1 & H2 & _ & _ & H5 & _).
  exists lk2, lv2. split; [exact H1|]. split; [exact H2|exact H5].
Defined.

Lemma delete_removes_extreme_witness :
  wf (heap sample_world 0) /\
  holds (heap sample_world 0) [(1, 10); (2, 5)]%Z [(2, 5); (1, 10)]%Z /\
  [(2, 5); (1, 10)]%Z <> @nil (Z * Z) /\
  fst (deleteMin 0 sample_world) = Ret tt /\
  exists lk' lv',
    holds (heap (snd (deleteMin 0 sample_world)) 0) lk' lv' /\
    Permutation [(1, 10); (2, 5)]%Z ((2, 5)%Z :: lk') /\
    size 0 (snd (deleteMin 0 sample_world))
    = (Ret 1, snd (deleteMin 0 sample_world)).
Proof.
  assert (Hrun : fst (deleteMin 0 sample_world) = Ret tt) by reflexivity.
  split; [exact wf_two_pairs|]. split; [exact holds_sample|].
  split; [exact value_index_sample|]. split; [exact Hrun|].
  destruct (proj1 (proj2 (delete_removes_extreme 0 sample_world wf_two_pairs))
              _ _ holds_sample value_index_sample)
    as (first & last & Hf & _ & _ & _ & _ & _ & _ & Hmin & _).
  injection Hf as <-.
  pose proof (Hmin _ _ (run_fst _ _ _ Hrun)) as H. cbv beta iota in H.
  destruct H as (lk' & lv' & H1 & H2 & _ & H4 & _).
  exists lk', lv'. split; [exact H1|]. split; [exact H2|exact H4].
Defined.

Lemma operator_eq_compares_in_key_order_witness :
  0 <> 1 /\
  Permutation [(1, 10); (2, 5)]%Z [(2, 5); (1, 10)]%Z /\
  exists w',
    bind (insert_list 0 [(1, 10); (2, 5)]%Z)
         (fun _ => bind (insert_list 1 [(2, 5); (1, 10)]%Z)
                        (fun _ => operator_eq 0 1)) empty_world
    = (Ret true, w').
Proof.
  assert (Hne : 0 <> 1) by discriminate.
  assert (P : Permutation [(1, 10); (2, 5)]%Z [(2, 5); (1, 10)]%Z)
    by apply perm_swap.
  split; [exact Hne|]. split; [exact P|].
  exact (proj2 operator_eq_compares_in_key_order 0 1 _ _ empty_world Hne
           (conj eq_refl eq_refl) (conj eq_refl eq_refl) eq_refl P).
Defined.

Lemma no_key_3 : forall v' : Z, ~ In (3, v')%Z [(1, 10); (2, 5)]%Z.
Proof. intros v' [H|[H|[]]]; discriminate H. Defined.

Lemma none_below_7 :
  forall v' : Z, In (1, v')%Z [(1, 10); (2, 5)]%Z -> op_lt v' 7%Z = false.
Proof.
  intros v' [H|[H|[]]]; [injection H as <-; reflexivity | discriminate H].
Defined.

Lemma insert_then_changeValue_witness :
  wf (heap sample_world 0) /\
  (forall v' : Z, In (1, v')%Z [(1, 10); (2, 5)]%Z -> op_lt v' 7%Z = false) /\
  fst (bind (insert 0 1%Z 7%Z) (fun _ => changeValue 0 1%Z 3%Z) sample_world)
  = Ret tt /\
  exists lk' lv',
    holds (heap (snd (bind (insert 0 1%Z 7%Z)
                           (fun _ => changeValue 0 1%Z 3%Z) sample_world)) 0)
          lk' lv' /\
    Permutation lk' ((1, 3) :: [(1, 10); (2, 5)])%Z.
Proof.
  assert (Hrun : fst (bind (insert 0 1%Z 7%Z)
                           (fun _ => changeValue 0 1%Z 3%Z) sample_world)
                 = Ret tt) by reflexivity.
  split; [exact wf_two_pairs|]. split; [exact none_below_7|]. split; [exact Hrun|].
  pose proof (insert_then_changeValue 0 1%Z 7%Z 3%Z sample_world _ _
                wf_two_pairs holds_sample none_below_7 _ _ (run_fst _ _ _ Hrun)) as H.
  cbv beta iota in H.
  destruct H as (lk' & lv' & H1 & H2 & _).
  exists lk', lv'. split; [exact H1|exact H2].
Defined.

Lemma changeValue_replaces_least_witness :
  wf (heap sample_world 0) /\
  In (1, 10)%Z [(1, 10); (2, 5)]%Z /\
  fst (changeValue 0 1%Z 3%Z sample_world) = Ret tt /\
  exists old lk' lv',
    holds (heap (snd (changeValue 0 1%Z 3%Z sample_world)) 0) lk' lv' /\
    Permutation ((1, old) :: lk')%Z ((1, 3) :: [(1, 10); (2, 5)])%Z.
Proof.
  assert (Hin : In (1, 10)%Z [(1, 10); (2, 5)]%Z) by (left; reflexivity).
  assert (Hrun : fst (changeValue 0 1%Z 3%Z sample_world) = Ret tt)
    by reflexivity.
  split; [exact wf_two_pairs|]. split; [exact Hin|]. split; [exact Hrun|].
  pose proof (changeValue_replaces_least 0 1%Z 3%Z sample_world _ _ _
                wf_two_pairs holds_sample Hin _ _ (run_fst _ _ _ Hrun)) as H.
  cbv beta iota in H.
  destruct H as (old & lk' & lv' & _ & _ & H1 & H2 & _).
  exists old, lk', lv'. split; [exact H1|exact H2].
Defined.

(** The queue that holds (1, 5), and the queue that holds (0, 3), each
    at address 0 of a store of empty queues. *)
Definition world_1_5 : @World Z Z :=
  mkWorld (upd (fun _ => queue_of [] []) 0 (queue_of [(1, 5)]%Z [(1, 5)]%Z))
          no_faults.

Definition world_0_3 : @World Z Z :=
  mkWorld (upd (fun _ => queue_of [] []) 0 (queue_of [(0, 3)]%Z [(0, 3)]%Z))
          no_faults.

(** Two runs of insert(k, v) followed by changeValue(k, v2).  On the
    queue of (1, 5), insert(1, 10) and changeValue(1, 20) leave the pair
    (1, 10) in the queue: the pair replaced is (1, 5).  On the queue of
    (0, 3), insert(1, 10) and changeValue(1, 3) make 3 the least value,
    and minKey() is 0, not 1. *)
Lemma insert_then_changeValue_counterexample :
  (fst (bind (insert 0 1%Z 10%Z) (fun _ => changeValue 0 1%Z 20%Z) world_1_5)
   = Ret tt /\
   pairs_by_K (heap (snd (bind (insert 0 1%Z 10%Z)
                               (fun _ => changeValue 0 1%Z 20%Z) world_1_5)) 0)
   = Some [(1, 10); (1, 20)]%Z /\
   In (1, 10)%Z [(1, 10); (1, 20)]%Z) /\
  fst (bind (insert 0 1%Z 10%Z)
            (fun _ => bind (changeValue 0 1%Z 3%Z)
                           (fun _ => bind (minValue 0)
                                          (fun m => bind (minKey 0)
                                                         (fun k => ret (m, k)))))
            world_0_3)
  = Ret (3, 0)%Z.
Proof.
  split; [split; [reflexivity | split; [reflexivity | left; reflexivity]]|].
  reflexivity.
Qed.

(** The world of [sample_heap] in which the ninth allocation fails: the
    one [clear] makes for its temporary when queue 0 merges queue 1. *)
Definition ninth_allocation_fails : @World Z Z :=
  mkWorld sample_heap
          (mkSched [] [None; None; None; None; None; None; None; None; Some 0]).

(** C1: the guarantee does not cover every allocation.  When the
    allocation [clear] makes at the end of merge fails, the exception
    meets the noexcept of [clear]: the run ends in std::terminate, not
    in an exception, with the pairs of queue 1 already in queue 0 and
    still in queue 1. *)
Theorem merge_terminates_when_clear_cannot_allocate :
  fst (merge 0 1 ninth_allocation_fails) = Abort Terminated /\
  pairs_by_K (heap (snd (merge 0 1 ninth_allocation_fails)) 0)
  = Some [(1, 10); (2, 5); (3, 1)]%Z /\
  pairs_by_K (heap (snd (merge 0 1 ninth_allocation_fails)) 1)
  = Some [(3, 1)]%Z.
Proof. repeat split. Qed.

Lemma strong_exception_guarantee_witness :
  holds (heap faulty_world 0) [(1, 10); (2, 5)]%Z [(2, 5); (1, 10)]%Z /\
  fst (insert 0 3%Z 1%Z faulty_world) = Throw (Fault KV 7) /\
  unchanged (heap faulty_world) (heap (snd (insert 0 3%Z 1%Z faulty_world))).
Proof.
  assert (Hrun : fst (insert 0 3%Z 1%Z faulty_world) = Throw (Fault KV 7))
    by reflexivity.
  split; [exact holds_sample|]. split; [exact Hrun|].
  exact (proj2 (proj1 strong_exception_guarantee 0 3%Z 1%Z faulty_world _ _ _ _
                  holds_sample (run_fst _ _ _ Hrun))).
Defined.

Lemma changeValue_absent_key_witness :
  wf (heap sample_world 0) /\
  (forall v : Z, ~ In (3, v)%Z [(1, 10); (2, 5)]%Z) /\
  exists w', changeValue 0 3%Z 1%Z sample_world = (Throw PQNotFoundEx, w') /\
             heap w' = heap sample_world.
Proof.
  split; [exact wf_two_pairs|]. split; [exact no_key_3|].
  refine (changeValue_absent_key 0 3%Z 1%Z sample_world _ _
            wf_two_pairs holds_sample _ no_key_3 eq_refl).
  discriminate.
Defined.

(** ** Comparisons, copies, moves and swaps on the sample store *)

Lemma operator_lt_strict_total_order_witness :
  wf (heap sample_world 0) /\ wf (heap sample_world 1) /\ wf (heap sample_world 2) /\
  outlook (faults sample_world) = (None, None) /\
  returns (operator_lt 0 0) sample_world false.
Proof.
  split; [exact (all_wf_sample 0)|]. split; [exact (all_wf_sample 1)|].
  split; [exact (all_wf_sample 2)|]. split; [reflexivity|].
  exact (proj1 (operator_lt_strict_total_order 0 1 2 sample_world
                  (all_wf_sample 0) (all_wf_sample 1) (all_wf_sample 2) eq_refl)).
Defined.

Lemma derived_operators_mirror_witness :
  wf (heap sample_world 0) /\ wf (heap sample_world 1) /\
  outlook (faults sample_world) = (None, None) /\
  exists ab ba e,
    returns (operator_lt 0 1) sample_world ab /\
    returns (operator_lt 1 0) sample_world ba /\
    returns (operator_eq 0 1) sample_world e /\
    returns (operator_gt 0 1) sample_world ba /\
    returns (operator_le 0 1) sample_world (negb ba) /\
    returns (operator_ge 0 1) sample_world (negb ab) /\
    returns (operator_ne 0 1) sample_world (negb e).
Proof.
  split; [exact (all_wf_sample 0)|]. split; [exact (all_wf_sample 1)|].
  split; [reflexivity|].
  exact (derived_operators_mirror 0 1 sample_world
           (all_wf_sample 0) (all_wf_sample 1) eq_refl).
Defined.

Lemma valid_sample : pairs_by_K (heap sample_world 0) <> None.
Proof. discriminate. Defined.

Lemma copy_gives_equal_queue_witness :
  wf (heap sample_world 0) /\ pairs_by_K (heap sample_world 0) <> None /\
  outlook (faults sample_world) = (None, None) /\
  exists w', bind (copy_assign 2 0) (fun _ => operator_eq 2 0) sample_world
             = (Ret true, w').
Proof.
  split; [exact (all_wf_sample 0)|]. split; [exact valid_sample|].
  split; [reflexivity|].
  exact (proj2 (proj2 copy_gives_equal_queue) 2 0 sample_world
           (all_wf_sample 0) valid_sample eq_refl).
Defined.

Lemma move_empties_the_source_witness :
  2 <> 0 /\
  exists w', move_ctor 2 0 sample_world = (Ret tt, w') /\
             moved 2 0 sample_world w'.
Proof.
  assert (Hne : 2 <> 0) by discriminate.
  split; [exact Hne|].
  exact (proj2 move_empties_the_source 2 0 sample_world Hne).
Defined.

(** The sample store after the queue at address 0 was moved to address 2. *)
Definition moved_world : @World Z Z := snd (move_assign 2 0 sample_world).

Lemma moved_from_queue_acts_empty_witness :
  observable (heap moved_world 0) = (None, None) /\
  size 0 moved_world = (Ret 0, moved_world) /\
  empty 0 moved_world = (Ret true, moved_world) /\
  minValue 0 moved_world = (Throw PQEmptyEx, moved_world).
Proof.
  assert (H : observable (heap moved_world 0) = (None, None)) by reflexivity.
  split; [exact H|].
  destruct (moved_from_queue_acts_empty 0 moved_world H)
    as (H1 & H2 & _ & _ & H5 & _).
  split; [exact H1|]. split; [exact H2|exact H5].
Defined.

Lemma iterators_and_assertions_hold_witness :
  all_wf (heap faulty_world) /\
  well_behaved (fst (run_calls sample_calls faulty_world)).
Proof.
  split; [exact all_wf_sample|].
  exact (proj1 (iterators_and_assertions_hold faulty_world all_wf_sample)
           sample_calls).
Defined.

Lemma drain_returns_values_in_order_witness :
  wf (heap sample_world 0) /\
  holds (heap sample_world 0) [(1, 10); (2, 5)]%Z [(2, 5); (1, 10)]%Z /\
  outlook (faults sample_world) = (None, None) /\
  exists w', drain 0 2 sample_world = (Ret [5; 10]%Z, w') /\
             holds (heap w' 0) [] [].
Proof.
  split; [exact (all_wf_sample 0)|]. split; [exact holds_sample|].
  split; [reflexivity|].
  destruct (drain_returns_values_in_order 0 sample_world _ _
              (all_wf_sample 0) holds_sample eq_refl)
    as (w' & H1 & _ & _ & H4 & _).
  exists w'. split; [exact H1|exact H4].
Defined.

Lemma below_sample :
  forall z, In z [(2, 5); (1, 10)]%Z -> cmp_snd (0, 1)%Z z = true.
Proof. intros z [<-|[<-|[]]]; reflexivity. Defined.

Lemma insert_then_delete_restores_witness :
  wf (heap sample_world 0) /\
  holds (heap sample_world 0) [(1, 10); (2, 5)]%Z [(2, 5); (1, 10)]%Z /\
  outlook (faults sample_world) = (None, None) /\
  (forall z, In z [(2, 5); (1, 10)]%Z -> cmp_snd (0, 1)%Z z = true) /\
  exists w',
    bind (insert 0 0%Z 1%Z) (fun _ => deleteMin 0) sample_world = (Ret tt, w') /\
    holds (heap w' 0) [(1, 10); (2, 5)]%Z [(2, 5); (1, 10)]%Z.
Proof.
  split; [exact (all_wf_sample 0)|]. split; [exact holds_sample|].
  split; [reflexivity|]. split; [exact below_sample|].
  destruct (proj1 (insert_then_delete_restores 0 0%Z 1%Z sample_world _ _
                     (all_wf_sample 0) holds_sample eq_refl) below_sample)
    as (w' & H1 & H2 & _).
  exists w'. split; [exact H1|exact H2].
Defined.

Lemma default_ctor_gives_empty_queue_witness :
  fst (exec (DefaultCtor 5) sample_world) = Ret tt /\
  holds (heap (snd (exec (DefaultCtor 5) sample_world)) 5) [] [] /\
  size 5 (snd (exec (DefaultCtor 5) sample_world))
  = (Ret 0, snd (exec (DefaultCtor 5) sample_world)).
Proof.
  assert (Hrun : fst (exec (DefaultCtor 5) sample_world) = Ret tt) by reflexivity.
  split; [exact Hrun|].
  pose proof (default_ctor_gives_empty_queue 5 sample_world _ _
                (run_fst _ _ _ Hrun)) as H.
  cbv beta iota in H.
  destruct H as (_ & _ & H1 & H2 & _).
  split; [exact H1|exact H2].
Defined.
